(** * citygraph: spatial map, line classifier, boundary extractor,
      nearest-site query, tower spacing and district bookkeeping.

    A shallow embedding of the Go sources of voidshard/citygraph
    together with the properties stated about them.

    Conventions.
    - Go's [int] is embedded as [Z].  Coordinates are image coordinates
      and counters are list lengths, all far from the 64-bit limits, so
      the arithmetic is written without wrap-around; the fixed-width
      conversions the code performs itself ([uint8], [uint16],
      [uint32]) are written out with [mod].
    - Go's truncating [/] on [int] is [Z.quot].
    - An interface ([Outline], [voronoi.Site]) is a record of its
      methods.
    - A pointer to a [District] is its index in [Citygraph.Districts].
*)

From Stdlib Require Import ZArith Lia List Bool Permutation Sorted.
From Stdlib Require Strings.Byte.
From stdpp Require Import base tactics option list sorting gmap.

Local Open Scope Z_scope.

(* ===================================================================== *)
(** * Part I.  The embedding                                              *)
(* ===================================================================== *)

(** ** Package image (Go standard library): points and rectangles *)
Module image.

Record Point := Pt { X : Z; Y : Z }.

Record Rectangle := Rectangle_ { Min : Point; Max : Point }.

(** [image.Rect]: the constructor that orders its corners. *)
Definition Rect (x0 y0 x1 y1 : Z) : Rectangle :=
  let '(x0, x1) := if x1 <? x0 then (x1, x0) else (x0, x1) in
  let '(y0, y1) := if y1 <? y0 then (y1, y0) else (y0, y1) in
  Rectangle_ (Pt x0 y0) (Pt x1 y1).

(** [Point.In]: membership in the half-open rectangle. *)
Definition In_ (p : Point) (r : Rectangle) : bool :=
  (X (Min r) <=? X p) && (X p <? X (Max r)) &&
  (Y (Min r) <=? Y p) && (Y p <? Y (Max r)).

Definition ZP : Point := Pt 0 0.

End image.

Abbreviation Point := image.Point.
Abbreviation Pt := image.Pt.
Abbreviation Rectangle := image.Rectangle.

#[export] Instance Point_eq_dec : EqDecision Point.
Proof. solve_decision. Defined.

#[export] Instance Point_countable : Countable Point :=
  inj_countable' (fun p => (image.X p, image.Y p)) (fun q => Pt q.1 q.2)
    (fun p => match p with image.Pt _ _ => eq_refl end).

(** A line segment or polygon edge, Go's [[2]image.Point]. *)
Definition Segment : Type := Point * Point.

(** ** Package internal/line: the segment rasterizer *)
Module line.

(** The four loops of [bresenham] that move by a fixed step and end with
    [p.Set(x1, y1)] on the values the loop has reached. *)
Fixpoint stepLoop (n : nat) (x1 y1 sx sy : Z) : list Point :=
  match n with
  | O => [Pt x1 y1]
  | S k => Pt x1 y1 :: stepLoop k (x1 + sx) (y1 + sy) sx sy
  end.

(** "wider than high": [x1++] every turn, [y1] moves by [sy] when the
    error term goes negative; the loop is followed by [p.Set(x2, y2)]. *)
Fixpoint wideLoop (n : nat) (x1 y1 e dy slope sy x2 y2 : Z) : list Point :=
  match n with
  | O => [Pt x2 y2]
  | S k =>
      Pt x1 y1 ::
      (let e := e - dy in
       if e <? 0
       then wideLoop k (x1 + 1) (y1 + sy) (e + slope) dy slope sy x2 y2
       else wideLoop k (x1 + 1) y1 e dy slope sy x2 y2)
  end.

(** "higher than wide": [y1] moves by [sy] every turn, [x1++] when the
    error term goes negative; followed by [p.Set(x2, y2)]. *)
Fixpoint highLoop (n : nat) (x1 y1 e dx slope sy x2 y2 : Z) : list Point :=
  match n with
  | O => [Pt x2 y2]
  | S k =>
      Pt x1 y1 ::
      (let e := e - dx in
       if e <? 0
       then highLoop k (x1 + 1) (y1 + sy) (e + slope) dx slope sy x2 y2
       else highLoop k x1 (y1 + sy) e dx slope sy x2 y2)
  end.

(** [bresenham] with the [listPlot] plotter: the points in plot order. *)
Definition bresenham (x1 y1 x2 y2 : Z) : list Point :=
  let '(x1, y1, x2, y2) :=
    if x2 <? x1 then (x2, y2, x1, y1) else (x1, y1, x2, y2) in
  let dx := x2 - x1 in
  let dy := y2 - y1 in
  let dy := if dy <? 0 then - dy else dy in
  if (x1 =? x2) && (y1 =? y2) then [Pt x1 y1]
  else if y1 =? y2 then stepLoop (Z.to_nat dx) x1 y1 1 0
  else if x1 =? x2 then
    let y1 := if y2 <? y1 then y2 else y1 in
    stepLoop (Z.to_nat dy) x1 y1 0 1
  else if dx =? dy then
    if y1 <? y2 then stepLoop (Z.to_nat dx) x1 y1 1 1
    else stepLoop (Z.to_nat dx) x1 y1 1 (-1)
  else if dy <? dx then
    if y1 <? y2
    then wideLoop (Z.to_nat dx) x1 y1 dx (2 * dy) (2 * dx) 1 x2 y2
    else wideLoop (Z.to_nat dx) x1 y1 dx (2 * dy) (2 * dx) (-1) x2 y2
  else
    if y1 <? y2
    then highLoop (Z.to_nat dy) x1 y1 dy (2 * dx) (2 * dy) 1 x2 y2
    else highLoop (Z.to_nat dy) x1 y1 dy (2 * dx) (2 * dy) (-1) x2 y2.

(** [PointsBetween]: all points on a line between [a] and [b]. *)
Definition PointsBetween (a b : Point) : list Point :=
  bresenham (image.X a) (image.Y a) (image.X b) (image.Y b).

End line.

(** ** Package internal/encoding: packing small integers *)
Module encoding.

(** [Split32]: a uint32 as two uint16, most significant first. *)
Definition Split32 (i : Z) : Z * Z :=
  (Z.shiftr i 16 mod 65536, i mod 65536).

(** [Merge16]: two uint16 as one uint32. *)
Definition Merge16 (a b : Z) : Z :=
  (Z.shiftl a 16 + b) mod 4294967296.

(** [Split16]: a uint16 as two uint8, most significant first. *)
Definition Split16 (i : Z) : Z * Z :=
  (Z.shiftr i 8 mod 256, i mod 256).

(** [Merge8]: two uint8 as one uint16. *)
Definition Merge8 (a b : Z) : Z :=
  (Z.shiftl a 8 + b) mod 65536.

(** [FromBytes8] on the one-byte slice that [Bitmap.Data] returns, and
    [ToBytes8]: both are the identity on a byte. *)
Definition FromBytes8 (b : Z) : Z := b mod 256.
Definition ToBytes8 (b : Z) : Z := b.

End encoding.

(** ** Package go-bitmap (external): an 8-bit bitmap is one byte;
    [Get] tests a bit and [Set] with [true] switches it on. *)
Module bitmap.

Definition New8 : Z := 0.
Definition Get (bm : Z) (i : Z) : bool := Z.testbit bm i.
Definition Set_ (bm : Z) (i : Z) : Z := Z.lor bm (Z.shiftl 1 i).

End bitmap.

(** ** interface.go: the terrain outline, an interface of three queries *)
Record Outline := {
  CanBuildOn : Z -> Z -> bool;
  CanBridgeOver : Z -> Z -> bool;
  SuitableDock : Z -> Z -> bool
}.

(** ** district_types.go: the fixed enumeration of district types *)
Inductive DistrictType :=
  | Park | Temple | Civic | Graveyard
  | ResidentialUpper | ResidentialMiddle | ResidentialLower | ResidentialSlum
  | Abandoned | Fortress | Market | Commercial | Square | Industrial
  | Warehouse | Barracks | Prison | Docks | Research | Fields | Empty.

#[export] Instance DistrictType_eq_dec : EqDecision DistrictType.
Proof. solve_decision. Defined.

(** All districts ordered by their relative closeness to the centre. *)
Definition allDistricts : list DistrictType :=
  [ Fortress; Civic; ResidentialUpper; Temple; Square; Market; Commercial;
    Park; ResidentialMiddle; Research; Graveyard; ResidentialLower; Docks;
    ResidentialSlum; Industrial; Warehouse; Barracks; Prison; Fields;
    Abandoned; Empty ].

(** [DistrictType.ID]: the table [districtindex]. *)
Definition DistrictType_ID (d : DistrictType) : Z :=
  match d with
  | Empty => 0 | Fortress => 1 | Civic => 2 | ResidentialUpper => 3
  | Temple => 4 | Square => 5 | Market => 6 | Commercial => 7 | Park => 8
  | ResidentialMiddle => 9 | Research => 10 | Graveyard => 11
  | ResidentialLower => 12 | Docks => 13 | ResidentialSlum => 14
  | Industrial => 15 | Warehouse => 16 | Barracks => 17 | Prison => 18
  | Fields => 19 | Abandoned => 20
  end.

(** [districtForID]: the inverse table, [Empty] for an unknown index. *)
Definition districtForID (i : Z) : DistrictType :=
  match find (fun d => DistrictType_ID d =? i) allDistricts with
  | Some d => d
  | None => Empty
  end.

(** [desirability]: the index, with [Empty] last. *)
Definition desirability (d : DistrictType) : Z :=
  let id := DistrictType_ID d in
  if id =? 0 then Z.of_nat (length allDistricts) + 1 else id.

(** Go's [for i := lo; i < hi; i++]: the values [i] takes. *)
Definition zrange (lo hi : Z) : list Z :=
  map (fun k => lo + Z.of_nat k) (seq 0 (Z.to_nat (hi - lo))).

(** ** The spatial map ([imageMap]) *)
Module citymap.

Definition bitRoad : Z := 0.
Definition bitBridge : Z := 1.
Definition bitWall : Z := 2.
Definition bitTower : Z := 3.
Definition bitGate : Z := 4.

(** A pixel of [image.RGBA64]: four 16-bit channels. *)
Record RGBA64 := mkRGBA64 { R : Z; G : Z; B : Z; A : Z }.

(** [image.RGBA64]: reads outside the rectangle give the zero colour and
    writes outside it are dropped. *)
Record Image64 := mkImage64 { Rect64 : Rectangle; Pix64 : gmap Point RGBA64 }.

Definition RGBA64At (m : Image64) (x y : Z) : RGBA64 :=
  if image.In_ (Pt x y) (Rect64 m)
  then default (mkRGBA64 0 0 0 0) (Pix64 m !! Pt x y)
  else mkRGBA64 0 0 0 0.

Definition SetRGBA64 (m : Image64) (x y : Z) (c : RGBA64) : Image64 :=
  if image.In_ (Pt x y) (Rect64 m)
  then mkImage64 (Rect64 m) (<[Pt x y := c]> (Pix64 m))
  else m.

(** A pixel of the scratch surface ([image.RGBA] under the drawing
    context): four 8-bit channels. *)
Record RGBA := mkRGBA { R8 : Z; G8 : Z; B8 : Z; A8 : Z }.

Record Surface := mkSurface { SRect : Rectangle; SPix : gmap Point RGBA }.

Definition At (s : Surface) (x y : Z) : RGBA :=
  if image.In_ (Pt x y) (SRect s)
  then default (mkRGBA 0 0 0 0) (SPix s !! Pt x y)
  else mkRGBA 0 0 0 0.

(** [color.RGBA.RGBA]: every channel widened to 16 bits, [r |= r << 8]. *)
Definition RGBA_ (c : RGBA) : Z * Z * Z * Z :=
  (Z.lor (R8 c) (Z.shiftl (R8 c) 8), Z.lor (G8 c) (Z.shiftl (G8 c) 8),
   Z.lor (B8 c) (Z.shiftl (B8 c) 8), Z.lor (A8 c) (Z.shiftl (A8 c) 8)).

(** [imageMap]: the packed map [im] and the scratch surface [ctx].  The
    mask only restricts the drawing primitives and is left out. *)
Record imageMap := mkImageMap { im : Image64; ctx : Surface }.

(** The error value of the two fallible reads. *)
Inductive error := ErrOutOfBounds (x y : Z).

(** [isOutOfBounds] determines if x,y is outside of the image area. *)
Definition isOutOfBounds (c : imageMap) (x y : Z) : bool :=
  let bnds := Rect64 (im c) in
  (x <? image.X (image.Min bnds)) || (image.X (image.Max bnds) <? x) ||
  (y <? image.Y (image.Min bnds)) || (image.Y (image.Max bnds) <? y).

(** [District] returns the district type and id at x,y, and an error. *)
Definition District (c : imageMap) (x y : Z)
  : DistrictType * Z * option error :=
  if isOutOfBounds c x y then (Empty, -1, Some (ErrOutOfBounds x y))
  else
    let v := RGBA64At (im c) x y in
    let typeid := fst (encoding.Split16 (A v)) in
    (districtForID typeid, R v, None).

(** [BuildingID] returns the building id at x,y, and an error. *)
Definition BuildingID (c : imageMap) (x y : Z) : Z * option error :=
  if isOutOfBounds c x y then (-1, Some (ErrOutOfBounds x y))
  else
    let v := RGBA64At (im c) x y in
    (encoding.Merge16 (G v) (B v), None).

Definition setBuildingID (c : imageMap) (x y id : Z) : imageMap :=
  let v := RGBA64At (im c) x y in
  let '(g, b) := encoding.Split32 (id mod 4294967296) in
  mkImageMap (SetRGBA64 (im c) x y (mkRGBA64 (R v) g b (A v))) (ctx c).

Definition setDistrict (c : imageMap) (x y : Z) (typ : DistrictType) (id : Z)
  : imageMap :=
  let denum := DistrictType_ID typ in
  let v := RGBA64At (im c) x y in
  let bmbits := snd (encoding.Split16 (A v)) in
  mkImageMap
    (SetRGBA64 (im c) x y
       (mkRGBA64 (id mod 65536) (G v) (B v)
          (encoding.Merge8 (denum mod 256) bmbits)))
    (ctx c).

(** [setBM] sets the 8 bit bitmap at x,y. *)
Definition setBM (c : imageMap) (x y : Z) (bm : Z) : imageMap :=
  let num := encoding.FromBytes8 bm in
  let current := RGBA64At (im c) x y in
  let dtype := fst (encoding.Split16 (A current)) in
  mkImageMap
    (SetRGBA64 (im c) x y
       (mkRGBA64 (R current) (G current) (B current)
          (encoding.Merge8 dtype num)))
    (ctx c).

(** [getBM] gets the 8 bit bitmap at x,y. *)
Definition getBM (c : imageMap) (x y : Z) : Z :=
  let current := RGBA64At (im c) x y in
  encoding.ToBytes8 (snd (encoding.Split16 (A current))).

Definition setRoad (c : imageMap) (x y : Z) : imageMap :=
  setBM c x y (bitmap.Set_ (getBM c x y) bitRoad).

Definition setBridge (c : imageMap) (x y : Z) : imageMap :=
  setBM c x y (bitmap.Set_ (getBM c x y) bitBridge).

(** [isFortification] returns if x,y is any of Tower, Gate, Wall; it
    reads the blue channel of the scratch surface. *)
Definition isFortification (c : imageMap) (x y : Z) : bool :=
  let '(_, _, b, _) := RGBA_ (At (ctx c) x y) in
  0 <? b.

Definition IsWall (c : imageMap) (x y : Z) : bool :=
  if isOutOfBounds c x y then false else bitmap.Get (getBM c x y) bitWall.

Definition IsTower (c : imageMap) (x y : Z) : bool :=
  if isOutOfBounds c x y then false else bitmap.Get (getBM c x y) bitTower.

Definition IsGatehouse (c : imageMap) (x y : Z) : bool :=
  if isOutOfBounds c x y then false else bitmap.Get (getBM c x y) bitGate.

Definition IsRoad (c : imageMap) (x y : Z) : bool :=
  if isOutOfBounds c x y then false else bitmap.Get (getBM c x y) bitRoad.

Definition IsBridge (c : imageMap) (x y : Z) : bool :=
  if isOutOfBounds c x y then false else bitmap.Get (getBM c x y) bitBridge.

(** [nearbyFortifications]: is any pixel within [radius] of x,y on the
    surface a wall, gatehouse or tower. *)
Definition nearbyFortifications (x y radius : Z) (s : Surface) : bool :=
  existsb
    (fun dy =>
       existsb
         (fun dx => let '(_, _, b, _) := RGBA_ (At s dx dy) in 50 <=? b)
         (zrange (x - radius) (x + radius)))
    (zrange (y - radius) (y + radius)).

(** The body of the double loop of [endDraw] at one pixel. *)
Definition endDrawPixel (wallBorderRoadWidth : Z) (outline : Outline)
    (temp : Surface) (dx dy : Z) (c : imageMap) : imageMap :=
  let '(r, g, b, _) := RGBA_ (At temp dx dy) in
  let r := Z.shiftr r 8 in
  let g := Z.shiftr g 8 in
  let b := Z.shiftr b 8 in
  let bm := bitmap.New8 in
  if (r =? 0) && (g =? 0) && (b =? 0) then
    let road := CanBuildOn outline dx dy in
    let water := CanBridgeOver outline dx dy in
    if (road || water) && nearbyFortifications dx dy wallBorderRoadWidth temp
    then
      let bit := if water then bitBridge else bitRoad in
      setBM c dx dy (bitmap.Set_ bm bit)
    else c
  else
    let bm := if 0 <? g then bitmap.Set_ bm bitBridge else bm in
    let bm :=
      if 150 <=? b then bitmap.Set_ bm bitGate
      else if 100 <=? b then bitmap.Set_ bm bitTower
      else if 50 <=? b then bitmap.Set_ bm bitWall
      else bm in
    let bm := if 0 <? r then bitmap.Set_ bm bitRoad else bm in
    setBM c dx dy bm.

(** [endDraw] copies the sketch on the scratch surface to the map. *)
Definition endDraw (wallBorderRoadWidth : Z) (outline : Outline)
    (c : imageMap) : imageMap :=
  let temp := ctx c in
  let bnds := SRect temp in
  fold_left
    (fun c dy =>
       fold_left
         (fun c dx => endDrawPixel wallBorderRoadWidth outline temp dx dy c)
         (zrange (image.X (image.Min bnds)) (image.X (image.Max bnds))) c)
    (zrange (image.Y (image.Min bnds)) (image.Y (image.Max bnds))) c.

(** [newMap] returns a new map with the given bounds: a cleared scratch
    surface and a zeroed packed image. *)
Definition newMap (bounds : Rectangle) : imageMap :=
  mkImageMap (mkImage64 bounds ∅) (mkSurface bounds ∅).

(** At most one of the wall, tower and gatehouse flags is set at x,y. *)
Definition exclusiveAt (c : imageMap) (x y : Z) : Prop :=
  IsWall c x y && IsTower c x y = false /\
  IsWall c x y && IsGatehouse c x y = false /\
  IsTower c x y && IsGatehouse c x y = false.

(** The same on a flag byte. *)
Definition exclusiveByte (bm : Z) : Prop :=
  bitmap.Get bm bitWall && bitmap.Get bm bitTower = false /\
  bitmap.Get bm bitWall && bitmap.Get bm bitGate = false /\
  bitmap.Get bm bitTower && bitmap.Get bm bitGate = false.

(** A map as it stands before [endDraw]: the packed image of [newMap]
    and whatever has been drawn on the scratch surface. *)
Definition sketched (bounds : Rectangle) (drawn : gmap Point RGBA)
  : imageMap :=
  mkImageMap (im (newMap bounds)) (mkSurface bounds drawn).

End citymap.

(** ** Distances.

    [calculateDist] is [math.Sqrt] of an integer sum of two squares.
    The code only compares such a distance with another one, with zero,
    with the negative sentinel [-1.0], or truncates it to [int].  The
    square root is increasing, so the first three are decided on the
    squares ([calculateDistSq], with [-1] standing for the sentinel) and
    the truncation is the integer square root ([calculateDistInt]). *)
Definition calculateDistSq (ax ay bx by_ : Z) : Z :=
  (ax - bx) * (ax - bx) + (ay - by_) * (ay - by_).

Definition calculateDistInt (ax ay bx by_ : Z) : Z :=
  Z.sqrt (calculateDistSq ax ay bx by_).

(** ** Package internal/voronoi *)
Module voronoi.

(** The [Site] interface, as far as its callers here use it. *)
Record Site := mkSite {
  ID : Z;
  X : Z;
  Y : Z;
  Edges : list Segment;
  Contains : Z -> Z -> bool
}.

Record Voronoi := mkVoronoi { sites : list Site; bounds : Rectangle }.

(** The loop of [SiteFor]; [dist] starts at the sentinel and [pick] at
    [nil]. *)
Fixpoint SiteFor_loop (ss : list Site) (x y : Z) (dist : Z)
    (pick : option Site) : option Site :=
  match ss with
  | [] => pick
  | site :: rest =>
      let sdist := calculateDistSq (X site) (Y site) x y in
      if dist =? 0 then Some site
      else if (dist <? 0) || (sdist <? dist)
           then SiteFor_loop rest x y sdist (Some site)
           else SiteFor_loop rest x y dist pick
  end.

(** [SiteFor] returns the nearest Site for the given point. *)
Definition SiteFor (v : Voronoi) (x y : Z) : option Site :=
  SiteFor_loop (sites v) x y (-1) None.

End voronoi.

(** ** citygraph.go: the line classifier *)
Module classifier.

Definition enumNothing : Z := 0.
Definition enumRoad : Z := 1.
Definition enumBridge : Z := 2.
Definition enumWall : Z := 3.

(** The classification [me] that the loop of [lineSegments] computes for
    the point [p]. *)
Definition classifyPoint (cmap : citymap.imageMap) (outline : Outline)
    (site : option voronoi.Site) (p : Point) : Z :=
  let buildingID := fst (citymap.BuildingID cmap (image.X p) (image.Y p)) in
  if match site with
     | Some s => negb (voronoi.Contains s (image.X p) (image.Y p))
     | None => false
     end
  then enumNothing
  else if negb (buildingID =? 0) then enumNothing
  else if citymap.isFortification cmap (image.X p) (image.Y p) then enumWall
  else if CanBuildOn outline (image.X p) (image.Y p) then enumRoad
  else if CanBridgeOver outline (image.X p) (image.Y p) then enumBridge
  else enumNothing.

(** The variables the loop of [lineSegments] carries. *)
Record State := mkState {
  prevIndex : Z;
  prevEnum : Z;
  roads : list Segment;
  bridges : list Segment;
  walls : list Segment
}.

(** [path[i]]; every index the loop uses is in range. *)
Definition at_ (path : list Point) (i : Z) : Point :=
  nth (Z.to_nat i) path image.ZP.

(** One turn of the loop, at index [i] with classification [me]. *)
Definition step (path : list Point) (me : Z) (i : Z) (st : State) : State :=
  if prevIndex st =? -1 then
    mkState i me (roads st) (bridges st) (walls st)
  else if prevEnum st =? me then st
  else
    let seg := (at_ path (prevIndex st), at_ path (i - 1)) in
    if prevEnum st =? enumBridge then
      if (0 <? Z.of_nat (length (roads st)))
      then mkState i me (roads st) (bridges st ++ [seg]) (walls st)
      else mkState i me (roads st) (bridges st) (walls st)
    else if prevEnum st =? enumRoad then
      mkState i me (roads st ++ [seg]) (bridges st) (walls st)
    else if prevEnum st =? enumWall then
      mkState i me (roads st) (bridges st) (walls st ++ [seg])
    else mkState i me (roads st) (bridges st) (walls st).

(** [for i := range path]: [rest] is what is left of the path from
    index [i] on. *)
Fixpoint loop (classify : Point -> Z) (path rest : list Point) (i : Z)
    (st : State) : State :=
  match rest with
  | [] => st
  | p :: rest' =>
      loop classify path rest' (i + 1) (step path (classify p) i st)
  end.

(** The statements after the loop: the run that is still open. *)
Definition flush (path : list Point) (st : State)
  : list Segment * list Segment * list Segment :=
  let last := Z.of_nat (length path) - 1 in
  if negb (prevIndex st =? last) then
    let seg := (at_ path (prevIndex st), at_ path last) in
    if prevEnum st =? enumBridge then (roads st, bridges st ++ [seg], walls st)
    else if prevEnum st =? enumRoad then
      (roads st ++ [seg], bridges st, walls st)
    else if prevEnum st =? enumWall then
      (roads st, bridges st, walls st ++ [seg])
    else (roads st, bridges st, walls st)
  else (roads st, bridges st, walls st).

(** [lineSegments] on an already rasterized path. *)
Definition lineSegmentsOn (classify : Point -> Z) (path : list Point)
  : list Segment * list Segment * list Segment :=
  flush path (loop classify path path 0 (mkState (-1) (-1) [] [] [])).

(** [lineSegments] breaks up the points between (start, end) into
    sections of roads, bridges and walls. *)
Definition lineSegments (cmap : citymap.imageMap) (outline : Outline)
    (start end_ : Point) (site : option voronoi.Site)
  : list Segment * list Segment * list Segment :=
  lineSegmentsOn (classifyPoint cmap outline site)
    (line.PointsBetween start end_).

(** *** The run decomposition the classifier is compared with.

    A run is a maximal block of consecutive path indices that carry one
    classification: first index, last index, classification. *)
Record Run := mkRun { rfirst : nat; rlast : nat; rclass : Z }.

(** [runsFrom s e c l]: the run [s..e] of class [c] is open and [l] are
    the classifications of the indices after [e]. *)
Fixpoint runsFrom (s e : nat) (c : Z) (l : list Z) : list Run :=
  match l with
  | [] => [mkRun s e c]
  | d :: l' =>
      if c =? d then runsFrom s (S e) c l'
      else mkRun s e c :: runsFrom (S e) (S e) d l'
  end.

Definition runsOf (l : list Z) : list Run :=
  match l with
  | [] => []
  | c :: l' => runsFrom 0 0 c l'
  end.

(** The sub-segment of a run: its first and last point. *)
Definition segOf (path : list Point) (r : Run) : Segment :=
  (nth (rfirst r) path image.ZP, nth (rlast r) path image.ZP).

(** The path indices and the points of a run. *)
Definition indicesOf (r : Run) : list nat :=
  seq (rfirst r) (S (rlast r - rfirst r)).

Definition pointsOf (path : list Point) (r : Run) : list Point :=
  map (fun i => nth i path image.ZP) (indicesOf r).

Definition isClass (c : Z) (r : Run) : bool := rclass r =? c.

(** A road run lies before the run [r]. *)
Definition roadBefore (rs : list Run) (r : Run) : bool :=
  existsb (fun q => isClass enumRoad q && (rfirst q <? rfirst r)%nat) rs.

(** Consecutive runs touch and carry different classifications. *)
Fixpoint chained (rs : list Run) : Prop :=
  match rs with
  | a :: (b :: _) as rest =>
      rfirst b = S (rlast a) /\ rclass a <> rclass b /\ chained rest
  | _ => True
  end.

(** The bridge runs of a list of closed runs that the loop emits, given
    whether a road has been emitted before the list starts. *)
Fixpoint emitBridges (hasRoad : bool) (rs : list Run) : list Run :=
  match rs with
  | [] => []
  | r :: rs' =>
      if isClass enumBridge r
      then if hasRoad then r :: emitBridges hasRoad rs'
           else emitBridges hasRoad rs'
      else emitBridges (hasRoad || isClass enumRoad r) rs'
  end.

(** The test [len(roads) > 0] on a state. *)
Definition hasRoads (st : State) : bool :=
  0 <? Z.of_nat (length (roads st)).

(** A placeholder for the last run of an empty list. *)
Definition noRun : Run := mkRun 0 0 (-1).

(** Runs in path order. *)
Definition firstLt (a b : Run) : Prop := (rfirst a < rfirst b)%nat.

(** What the statements after the loop add to the list of
    classification [c]: the last run, when it has that classification
    and more than one point. *)
Definition finalSeg (path : list Point) (rs : list Run) (c : Z)
  : list Segment :=
  match rs with
  | [] => []
  | _ :: _ =>
      let r := List.last rs noRun in
      if isClass c r && negb (rfirst r =? rlast r)%nat
      then [segOf path r] else []
  end.

(** The list in which a sub-segment of classification [c] is returned. *)
Definition emittedAs (c : Z)
    (out : list Segment * list Segment * list Segment) : list Segment :=
  if c =? enumRoad then out.1.1
  else if c =? enumBridge then out.1.2
  else if c =? enumWall then out.2
  else [].

(** The reading of "the sub-segments together with the nothing points
    reproduce the path": every index of the path is classified nothing
    or lies between the two ends of an emitted sub-segment of its own
    classification. *)
Definition covers (path : list Point) (cl : list Z)
    (out : list Segment * list Segment * list Segment) : Prop :=
  forall i, (i < length path)%nat ->
    nth i cl enumNothing = enumNothing \/
    exists a b, (a <= i <= b)%nat /\
      In (nth a path image.ZP, nth b path image.ZP)
         (emittedAs (nth i cl enumNothing) out).

(** The reading of the bridge rule: a bridge run that starts the path is
    not emitted, every later bridge run is. *)
Definition bridgeRule (path : list Point) (cl : list Z)
    (out : list Segment * list Segment * list Segment) : Prop :=
  forall r, In r (runsOf cl) -> rclass r = enumBridge ->
    (rfirst r = 0%nat -> ~ In (segOf path r) out.1.2) /\
    (rfirst r <> 0%nat -> In (segOf path r) out.1.2).

End classifier.

(** ** Package internal/cell: the boundary extractor *)
Module cell.

(** The closure [onBorder]: the frame and the points next to it. *)
Definition onBorder (bnds : Rectangle) (p : Point) : bool :=
  (image.X p <=? image.X (image.Min bnds) + 1) ||
  (image.X (image.Max bnds) - 1 <=? image.X p) ||
  (image.Y p <=? image.Y (image.Min bnds) + 1) ||
  (image.Y (image.Max bnds) - 1 <=? image.Y p).

(** The closure [toEdgeID].  The code orders the two end points and
    prints them as ["%d,%d-%d,%d"]; every number in that text is
    followed by a separator that is not a digit and a sign only stands
    in front of a digit, so the text determines the ordered pair.  The
    key is embedded as the ordered pair. *)
Definition toEdgeID (a b : Point) : Point * Point :=
  if image.X b <? image.X a then (b, a)
  else if (image.X a =? image.X b) && (image.Y b <? image.Y a) then (b, a)
  else (a, b).

(** [m[k]] on a [map[K]bool]: [false] when the key is missing. *)
Definition getb `{Countable K} (m : gmap K bool) (k : K) : bool :=
  default false (m !! k).

(** [neighbours[a][b] = val], creating the inner map when [a] has
    none yet. *)
Definition setLink (a b : Point) (val : bool)
    (nb : gmap Point (gmap Point bool)) : gmap Point (gmap Point bool) :=
  <[a := <[b := val]> (default ∅ (nb !! a))]> nb.

(** The body of the loop that fills [edgeOwnedOutside] and
    [vertOwnedOutside]. *)
Definition ownStep (acc : gmap (Point * Point) bool * gmap Point bool)
    (edge : Segment) : gmap (Point * Point) bool * gmap Point bool :=
  let '(eo, vo) := acc in
  (<[toEdgeID edge.1 edge.2 := true]> eo,
   <[edge.2 := true]> (<[edge.1 := true]> vo)).

(** [edgeOwnedOutside] and [vertOwnedOutside]. *)
Definition ownedOutside (outside : list voronoi.Site)
  : gmap (Point * Point) bool * gmap Point bool :=
  fold_left (fun acc s => fold_left ownStep (voronoi.Edges s) acc)
    outside (∅, ∅).

(** The body of the loop that fills [neighbours]. *)
Definition linkStep (nb : gmap Point (gmap Point bool)) (edge : Segment)
  : gmap Point (gmap Point bool) :=
  setLink edge.2 edge.1 true (setLink edge.1 edge.2 true nb).

(** The adjacency structure over every edge of every inside site. *)
Definition neighboursOf (inside : list voronoi.Site)
  : gmap Point (gmap Point bool) :=
  fold_left (fun nb s => fold_left linkStep (voronoi.Edges s) nb) inside ∅.

(** The entry [neighbours[v][n]], if there is one. *)
Definition linkAt (nb : gmap Point (gmap Point bool)) (v n : Point)
  : option bool :=
  nb !! v ≫= (fun partners => partners !! n).

(** The pairs [(v, n)] that the two nested [range] loops visit.  Go
    leaves the order of a [range] over a map open; the loops neither
    add nor remove a key, so every order visits the same pairs. *)
Definition linksOf (nb : gmap Point (gmap Point bool))
  : list (Point * Point) :=
  map_to_list nb ≫=
    (fun vp => (fun ne => (vp.1, ne.1)) <$> map_to_list vp.2).

(** The body of the deleting loop at the pair [(v, n)]; [valid] is read
    when the pair is reached. *)
Definition visit (bnds : Rectangle) (eo : gmap (Point * Point) bool)
    (vo : gmap Point bool) (nb : gmap Point (gmap Point bool))
    (vn : Point * Point) : gmap Point (gmap Point bool) :=
  let '(v, n) := vn in
  let vOutside := getb vo v in
  let valid := default false (linkAt nb v n) in
  if negb valid then nb
  else
    let eOutside := getb eo (toEdgeID v n) in
    let nOutside := getb vo n in
    if vOutside && nOutside && eOutside then nb
    else if onBorder bnds n && onBorder bnds v then nb
    else setLink v n false (setLink n v false nb).

(** The deleting loop, visiting the pairs in the order [order]. *)
Definition sweep (bnds : Rectangle) (eo : gmap (Point * Point) bool)
    (vo : gmap Point bool) (order : list (Point * Point))
    (nb : gmap Point (gmap Point bool)) : gmap Point (gmap Point bool) :=
  fold_left (visit bnds eo vo) order nb.

(** The collecting loop: the pairs that are still valid. *)
Definition collect (order : list (Point * Point))
    (nb : gmap Point (gmap Point bool)) : list Segment :=
  filter (fun vn => default false (linkAt nb vn.1 vn.2) = true) order.

(** [deletionMethod] with the two visiting orders made explicit. *)
Definition deletionMethodIn (bnds : Rectangle)
    (inside outside : list voronoi.Site)
    (order1 order2 : list (Point * Point)) : list Segment :=
  let '(eo, vo) := ownedOutside outside in
  let nb := neighboursOf inside in
  collect order2 (sweep bnds eo vo order1 nb).

Definition deletionMethod (bnds : Rectangle)
    (inside outside : list voronoi.Site) : list Segment :=
  let '(eo, vo) := ownedOutside outside in
  let nb := neighboursOf inside in
  let nb' := sweep bnds eo vo (linksOf nb) nb in
  collect (linksOf nb') nb'.

(** [Circut] finds a path around all inside sites. *)
Definition Circut (bnds : Rectangle) (inside outside : list voronoi.Site)
  : list Segment :=
  deletionMethod bnds inside outside.

(** *** The vocabulary of the property *)

(** [(v, n)] is a link: some inside site has the edge in one of its two
    directions. *)
Definition isLink (inside : list voronoi.Site) (v n : Point) : Prop :=
  ∃ s, s ∈ inside ∧ ((v, n) ∈ voronoi.Edges s ∨ (n, v) ∈ voronoi.Edges s).

(** [p] is a vertex of some outside site: an end point of one of its
    edges. *)
Definition vertexOutside (outside : list voronoi.Site) (p : Point) : Prop :=
  ∃ s e, s ∈ outside ∧ e ∈ voronoi.Edges s ∧ (p = e.1 ∨ p = e.2).

(** The edge between [v] and [n] is an edge of some outside site. *)
Definition edgeOutside (outside : list voronoi.Site) (v n : Point) : Prop :=
  ∃ s, s ∈ outside ∧ ((v, n) ∈ voronoi.Edges s ∨ (n, v) ∈ voronoi.Edges s).

(** The condition under which a link survives. *)
Definition kept (bnds : Rectangle) (outside : list voronoi.Site)
    (v n : Point) : Prop :=
  (vertexOutside outside v ∧ vertexOutside outside n ∧
   edgeOutside outside v n) ∨
  (onBorder bnds v = true ∧ onBorder bnds n = true).

(** *** Auxiliary readings used in the proofs *)

(** All edges of a list of sites, in loop order. *)
Definition edgesOf (ss : list voronoi.Site) : list Segment :=
  concat (map voronoi.Edges ss).

(** [valid] as the loops read it. *)
Definition validAt (nb : gmap Point (gmap Point bool)) (v n : Point) : bool :=
  default false (linkAt nb v n).

(** The test under which [visit] leaves a valid link alone. *)
Definition keepb (bnds : Rectangle) (eo : gmap (Point * Point) bool)
    (vo : gmap Point bool) (v n : Point) : bool :=
  (getb vo v && getb vo n && getb eo (toEdgeID v n)) ||
  (onBorder bnds n && onBorder bnds v).

(** A link is valid in both directions or in none. *)
Definition symmetric (nb : gmap Point (gmap Point bool)) : Prop :=
  forall a b, validAt nb a b = validAt nb b a.

(** The pair, in one of its two directions, occurs in the list. *)
Definition touches (l : list (Point * Point)) (a b : Point) : bool :=
  existsb (fun p => bool_decide (p = (a, b) \/ p = (b, a))) l.

End cell.

(** ** citygraph.go: towers along a wall *)
Module towers.

(** [towerFits]: the tower area centred on px,py and whether it fits.
    A tower may sit on a wall and on bridgeable pixels. *)
Definition towerFits (cmap : citymap.imageMap) (outline : Outline)
    (twr : Rectangle) (px py : Z) : Rectangle * bool :=
  let tw := image.X (image.Max twr) - image.X (image.Min twr) in
  let th := image.Y (image.Max twr) - image.Y (image.Min twr) in
  let area :=
    image.Rect (px - tw ÷ 2) (py - th ÷ 2) (px + tw ÷ 2) (py + th ÷ 2) in
  (area,
   forallb
     (fun x =>
        forallb
          (fun y =>
             if citymap.IsTower cmap x y || citymap.IsGatehouse cmap x y
             then false
             else if CanBuildOn outline x y || CanBridgeOver outline x y
                  then true
                  else false)
          (zrange (image.Y (image.Min area)) (image.Y (image.Max area))))
     (zrange (image.X (image.Min area)) (image.X (image.Max area)))).

(** The centre [(tx, ty)] that [tryPlaceTower] computes for a tower. *)
Definition towerCentre (t : Rectangle) : Point :=
  Pt ((image.X (image.Max t) + image.X (image.Min t)) ÷ 2)
     ((image.Y (image.Max t) + image.Y (image.Min t)) ÷ 2).

(** The test inside the loop of [tryPlaceTower]. *)
Definition tooClose (mdbt : Z) (p : Point) (t : Rectangle) : bool :=
  calculateDistInt (image.X (towerCentre t)) (image.Y (towerCentre t))
    (image.X p) (image.Y p) <? mdbt.

Section Closures.

(** What the closures of [wallDistricts] capture.  The packed image of
    [cmap] is not written while walls are built: [drawTower] paints the
    scratch surface, which [towerFits] does not read. *)
Variable cmap : citymap.imageMap.
Variable outline : Outline.
Variable TowerArea : Rectangle.
Variable MinDistBetweenTowers : Z.
Variable allTowers : list Rectangle.

(** The closure [tryPlaceTower], as a function on the captured
    [towers]. *)
Definition tryPlaceTower (p : Point) (mdbt : Z) (towers : list Rectangle)
  : list Rectangle :=
  let '(tower, ok) :=
    towerFits cmap outline TowerArea (image.X p) (image.Y p) in
  if negb ok then towers
  else if (0 <? mdbt) && existsb (tooClose mdbt p) (allTowers ++ towers)
       then towers
       else towers ++ [tower].

(** [for i := mdbt; i < len(pnts); i += mdbt].  [None] stands for a run
    that does not come back: the index is out of range, or the turns
    given by [fuel] are used up. *)
Fixpoint fillLoop (fuel : nat) (pnts : list Point) (mdbt i : Z)
    (towers : list Rectangle) : option (list Rectangle) :=
  match fuel with
  | O => None
  | S fuel' =>
      if i <? Z.of_nat (length pnts) then
        if i <? 0 then None
        else
          fillLoop fuel' pnts mdbt (i + mdbt)
            (tryPlaceTower (nth (Z.to_nat i) pnts image.ZP) mdbt towers)
      else Some towers
  end.

(** The closure [fillWithTowers]. *)
Definition fillWithTowers (fuel : nat) (a b : Point)
    (towers : list Rectangle) : option (list Rectangle) :=
  let mdbt := MinDistBetweenTowers in
  let towers := tryPlaceTower a (mdbt ÷ 2) towers in
  let towers := tryPlaceTower b (mdbt ÷ 2) towers in
  let pnts := line.PointsBetween a b in
  fillLoop fuel pnts mdbt mdbt towers.

End Closures.

(** The tower [t] keeps the real distance [m] from every tower of
    [before], centre to centre. *)
Definition spaced (m : Z) (t : Rectangle) (before : list Rectangle) : Prop :=
  Forall
    (fun t0 =>
       m * m <=
       calculateDistSq (image.X (towerCentre t0)) (image.Y (towerCentre t0))
         (image.X (towerCentre t)) (image.Y (towerCentre t)))
    before.

(** Every tower of [new] keeps the spacing [mdbt] from all towers placed
    before it, or it stands on [a] or [b] and keeps half of it. *)
Definition wellSpaced (mdbt : Z) (a b : Point) (old new : list Rectangle)
  : Prop :=
  forall (k : nat) (t : Rectangle),
    new !! k = Some t ->
    spaced mdbt t (old ++ take k new) \/
    ((towerCentre t = a \/ towerCentre t = b) /\
     spaced (mdbt ÷ 2) t (old ++ take k new)).

End towers.

(** ** Districts and their configuration *)

#[export] Instance DistrictType_countable : Countable DistrictType :=
  inj_countable' DistrictType_ID districtForID
    (fun d => match d with
              | Park => eq_refl | Temple => eq_refl | Civic => eq_refl
              | Graveyard => eq_refl | ResidentialUpper => eq_refl
              | ResidentialMiddle => eq_refl | ResidentialLower => eq_refl
              | ResidentialSlum => eq_refl | Abandoned => eq_refl
              | Fortress => eq_refl | Market => eq_refl
              | Commercial => eq_refl | Square => eq_refl
              | Industrial => eq_refl | Warehouse => eq_refl
              | Barracks => eq_refl | Prison => eq_refl | Docks => eq_refl
              | Research => eq_refl | Fields => eq_refl | Empty => eq_refl
              end).

(** [DistrictConfig], the fields that district bookkeeping reads. *)
Record DistrictConfig := mkDistrictConfig {
  MaxInCity : Z;
  MinInCity : Z;
  cfgHasFortifications : bool;
  cfgHasCurtainFortifications : bool
}.

(** [District], without the collected output geometry. *)
Record District := mkDistrict {
  dID : Z;
  dType : DistrictType;
  dSite : Point;
  dDockSuitable : Z;
  HasFortifications : bool;
  HasCurtainFortifications : bool
}.

(** A fresh district as [newDistrict] makes it; the type is the zero
    value until it is assigned. *)
Definition newDistrict (id : Z) (site : Point) (typ : DistrictType)
  : District :=
  mkDistrict id typ site 0 false false.

(** Reading through a district pointer. *)
Definition deref (ds : list District) (i : nat) : District :=
  nth i ds (newDistrict (-1) image.ZP Empty).

Definition setType (t : DistrictType) (d : District) : District :=
  mkDistrict (dID d) t (dSite d) (dDockSuitable d) (HasFortifications d)
    (HasCurtainFortifications d).

Definition setFortified (f c : bool) (d : District) : District :=
  mkDistrict (dID d) (dType d) (dSite d) (dDockSuitable d) f c.

Definition setHasFortifications (f : bool) (d : District) : District :=
  mkDistrict (dID d) (dType d) (dSite d) (dDockSuitable d) f
    (HasCurtainFortifications d).

Definition addDockSuitable (k : Z) (d : District) : District :=
  mkDistrict (dID d) (dType d) (dSite d) (dDockSuitable d + k)
    (HasFortifications d) (HasCurtainFortifications d).

(** Writing through a district pointer. *)
Definition update (i : nat) (f : District -> District) (ds : list District)
  : list District :=
  <[i := f (deref ds i)]> ds.

(** The squared distance the comparison of [sortDistrictsByDistance]
    looks at. *)
Definition distanceTo (ds : list District) (p : Point) (i : nat) : Z :=
  calculateDistSq (image.X (dSite (deref ds i))) (image.Y (dSite (deref ds i)))
    (image.X p) (image.Y p).

(** ** citygraph.go: who is inside the city wall *)
Module walls.

Section Sorting.

(** [sort.Slice] (Go standard library) on a slice of pointers, given the
    comparison. *)
Variable sortSlice : (nat -> nat -> bool) -> list nat -> list nat.

(** [sortDistrictsByDistance] sorts districts by how close they are to
    some point p. *)
Definition sortDistrictsByDistance (ds : list District) (p : Point)
    (l : list nat) : list nat :=
  sortSlice (fun a b => distanceTo ds p a <? distanceTo ds p b) l.

(** The first loop of [addWalls]: the flags of the added districts come
    from the configuration of their type; [None] is the error return. *)
Fixpoint flagsFromConfig (bcfg : gmap DistrictType DistrictConfig)
    (added : list nat) (ds : list District) : option (list District) :=
  match added with
  | [] => Some ds
  | d :: rest =>
      match bcfg !! dType (deref ds d) with
      | None => None
      | Some dcfg =>
          flagsFromConfig bcfg rest
            (update d
               (setFortified (cfgHasFortifications dcfg)
                  (cfgHasCurtainFortifications dcfg))
               ds)
      end
  end.

(** The second loop: curtain walled, inside and outside districts. *)
Definition sortOut (ds : list District)
  : list nat * list nat * list nat :=
  fold_left
    (fun acc i =>
       let '(curtainWall, insideDists, outsideDists) := acc in
       if HasCurtainFortifications (deref ds i)
       then (curtainWall ++ [i], insideDists, outsideDists)
       else if HasFortifications (deref ds i)
            then (curtainWall, insideDists ++ [i], outsideDists)
            else (curtainWall, insideDists, outsideDists ++ [i]))
    (seq 0 (length ds)) ([], [], []).

(** "if required, choose some more districts to be inside". *)
Definition chooseMore (MinFortifiedSites : Z) (centre : Point)
    (ds : list District) (insideDists outsideDists : list nat)
  : list District * list nat * list nat :=
  let needed := MinFortifiedSites - Z.of_nat (length insideDists) in
  if 0 <? needed then
    if Z.of_nat (length outsideDists) <=? needed then
      (ds, insideDists ++ outsideDists, outsideDists)
    else
      let sorted := sortDistrictsByDistance ds centre outsideDists in
      let chosen := firstn (Z.to_nat needed) sorted in
      (fold_left (fun ds d => update d (setHasFortifications true) ds)
         chosen ds,
       insideDists ++ chosen,
       skipn (Z.to_nat needed) sorted)
  else (ds, insideDists, outsideDists).

(** [addWalls] up to the point where the three groups are settled:
    the districts, then [curtainWall], [insideDists], [outsideDists]. *)
Definition settleGroups (bcfg : gmap DistrictType DistrictConfig)
    (MinFortifiedSites : Z) (centre : Point) (added : list nat)
    (ds : list District)
  : option (list District * list nat * list nat * list nat) :=
  match flagsFromConfig bcfg added ds with
  | None => None
  | Some ds =>
      let '(curtainWall, insideDists, outsideDists) := sortOut ds in
      let '(ds, insideDists, outsideDists) :=
        chooseMore MinFortifiedSites centre ds insideDists outsideDists in
      Some (ds, curtainWall, insideDists, outsideDists)
  end.

End Sorting.

(** The three groups of the second loop, as tests on a district. *)
Definition isCurtain (ds : list District) (i : nat) : bool :=
  HasCurtainFortifications (deref ds i).

Definition isInside (ds : list District) (i : nat) : bool :=
  negb (HasCurtainFortifications (deref ds i)) &&
  HasFortifications (deref ds i).

Definition isOutside (ds : list District) (i : nat) : bool :=
  negb (HasCurtainFortifications (deref ds i)) &&
  negb (HasFortifications (deref ds i)).

End walls.

(** ** citygraph.go: assigning district types *)
Module districts.

(** How a modelled run ends: it returns [nil] with a value, it returns
    an error, or it does not come back (a panic, or a retry loop that
    the given random draws do not get out of). *)
Inductive Result (A : Type) :=
  | Done (a : A)
  | Failed
  | Stuck.
Arguments Done {A} a.
Arguments Failed {A}.
Arguments Stuck {A}.

(** [CityStats.DistrictsByType] with [count], [increment] and
    [decrement]. *)
Definition count (stats : gmap DistrictType Z) (t : DistrictType) : Z :=
  default 0 (stats !! t).

Definition increment (stats : gmap DistrictType Z) (t : DistrictType)
  : gmap DistrictType Z :=
  <[t := count stats t + 1]> stats.

Definition decrement (stats : gmap DistrictType Z) (t : DistrictType)
  : gmap DistrictType Z :=
  <[t := count stats t - 1]> stats.

(** The part of [CityConfig] that the assignment reads. *)
Record CityConfig := mkCityConfig {
  DesiredDistricts : Z;
  MinDockSize : Z;
  Centre : Point
}.

(** The state of a build that the assignment works on.  [draws] is the
    random source: each call of [chooseDistrictType] takes one number
    from the generator and returns a type determined by it, and the
    embedding records the sequence of types returned. *)
Record Build := mkBuild {
  Districts : list District;
  Stats : gmap DistrictType Z;
  draws : list DistrictType
}.

(** The first loop of [randomDistricts]: enough of every configured
    type to reach its [MinInCity]. *)
Definition addMinimums (bcfg : gmap DistrictType DistrictConfig)
    (stats : gmap DistrictType Z)
  : list DistrictType * gmap DistrictType Z :=
  fold_left
    (fun acc typ =>
       match bcfg !! typ with
       | None => acc
       | Some dc =>
           Nat.iter (Z.to_nat (MinInCity dc - count stats typ))
             (fun acc =>
                let '(dtypes, tempStats) := acc in
                (dtypes ++ [typ], <[typ := count tempStats typ + 1]> tempStats))
             acc
       end)
    allDistricts ([], ∅).

(** The site loop of [randomDistricts].  [attempts] are the outcomes of
    the successive calls of [AddRandomSite]: the accepted point, or
    [None] for a rejected candidate; [n] counts the turns left.
    [newDistrict] appends to [c.Districts] as well, so the test that
    ends the loop adds the new districts in twice. *)
Fixpoint placeSites (n : nat) (attempts : list (option Point))
    (desired : Z) (ds : list District) (toSet : list nat)
  : list District * list nat :=
  match n with
  | O => (ds, toSet)
  | S n' =>
      if desired <=? Z.of_nat (length toSet) + Z.of_nat (length ds)
      then (ds, toSet)
      else
        match attempts with
        | [] => (ds, toSet)
        | None :: attempts' => placeSites n' attempts' desired ds toSet
        | Some site :: attempts' =>
            let id := length ds in
            placeSites n' attempts' desired
              (ds ++ [newDistrict (Z.of_nat id) site Empty])
              (toSet ++ [id])
        end
  end.

(** Is [t] turned down by the retry loop of [randomDistricts]. *)
Definition acceptable (bcfg : gmap DistrictType DistrictConfig)
    (stats tempStats : gmap DistrictType Z) (t : DistrictType) : bool :=
  match bcfg !! t with
  | None => false
  | Some dc =>
      negb ((0 <? MaxInCity dc) &&
            (MaxInCity dc <=? count stats t + count tempStats t))
  end.

(** A retry loop [for { t := c.chooseDistrictType(..); ..continue..;
    break }]: draw until a type passes. *)
Fixpoint drawUntil (ok : DistrictType -> bool) (ds : list DistrictType)
  : option (DistrictType * list DistrictType) :=
  match ds with
  | [] => None
  | t :: ds' => if ok t then Some (t, ds') else drawUntil ok ds'
  end.

(** The loop that fills the remaining slots with random types. *)
Fixpoint fillRandom (k : nat) (bcfg : gmap DistrictType DistrictConfig)
    (stats : gmap DistrictType Z) (dtypes : list DistrictType)
    (tempStats : gmap DistrictType Z) (ds : list DistrictType)
  : option (list DistrictType * list DistrictType) :=
  match k with
  | O => Some (dtypes, ds)
  | S k' =>
      match drawUntil (acceptable bcfg stats tempStats) ds with
      | None => None
      | Some (t, ds') =>
          fillRandom k' bcfg stats (dtypes ++ [t])
            (<[t := count tempStats t + 1]> tempStats) ds'
      end
  end.

(** The zip at the end of [randomDistricts]. *)
Fixpoint zipTypes (toSet : list nat) (dtypes : list DistrictType)
    (ds : list District) (stats : gmap DistrictType Z)
  : list District * gmap DistrictType Z :=
  match toSet, dtypes with
  | d :: toSet', t :: dtypes' =>
      zipTypes toSet' dtypes' (update d (setType t) ds) (increment stats t)
  | _, _ => (ds, stats)
  end.

Section Sorting.

Variable sortSlice : (nat -> nat -> bool) -> list nat -> list nat.

(** [sort.Slice] on the slice of types; the comparison looks at the
    desirability only. *)
Variable sortTypes :
  (DistrictType -> DistrictType -> bool) -> list DistrictType ->
  list DistrictType.

Definition sortTypesByDesirability (l : list DistrictType)
  : list DistrictType :=
  sortTypes (fun a b => desirability a <? desirability b) l.

(** [randomDistricts] adds more districts, up to [DesiredDistricts];
    it returns the districts it added. *)
Definition randomDistricts (bcfg : gmap DistrictType DistrictConfig)
    (cfg : CityConfig) (attempts : list (option Point)) (b : Build)
  : Result (Build * list nat) :=
  if DesiredDistricts cfg <=? Z.of_nat (length (Districts b)) then Done (b, [])
  else
    let '(dtypes, tempStats) := addMinimums bcfg (Stats b) in
    let '(ds, toSet) :=
      placeSites (Z.to_nat (DesiredDistricts cfg * 5)) attempts
        (DesiredDistricts cfg) (Districts b) [] in
    if (length toSet <? length dtypes)%nat then Failed
    else
      match fillRandom (length toSet - length dtypes) bcfg (Stats b)
              dtypes tempStats (draws b) with
      | None => Stuck
      | Some (dtypes, rest) =>
          let toSet := walls.sortDistrictsByDistance sortSlice ds
                         (Centre cfg) toSet in
          let dtypes := sortTypesByDesirability dtypes in
          let '(ds, stats) := zipTypes toSet dtypes ds (Stats b) in
          Done (mkBuild ds stats rest, toSet)
      end.

End Sorting.

(** Step 0 of [verifyDistrictLocations] for one district: the
    statistics, then whether it is a dock that has to move or a district
    that could be a dock.  [dockCells id] is the number of dock-suitable
    points that the cell of the site [id] contains. *)
Definition collectStep (MinDockSize : Z) (dockCells : Z -> Z)
    (acc : list District * list nat * list nat) (d : nat)
  : list District * list nat * list nat :=
  let '(ds, docks, potentialdock) := acc in
  let ds := update d (addDockSuitable (dockCells (dID (deref ds d)))) ds in
  let dd := deref ds d in
  if bool_decide (dType dd = Docks) && (dDockSuitable dd <? MinDockSize)
  then (ds, docks ++ [d], potentialdock)
  else if negb (bool_decide (dType dd = Docks)) &&
          (MinDockSize <=? dDockSuitable dd)
       then (ds, docks, potentialdock ++ [d])
       else (ds, docks, potentialdock).

Definition collectDocks (MinDockSize : Z) (dockCells : Z -> Z)
    (added : list nat) (ds : list District)
  : list District * list nat * list nat :=
  fold_left (collectStep MinDockSize dockCells) added (ds, [], []).

(** Is [t] accepted by the retry loop of the repair. *)
Definition replacement (bcfg : gmap DistrictType DistrictConfig)
    (stats : gmap DistrictType Z) (t : DistrictType) : bool :=
  if bool_decide (t = Docks) then false
  else
    match bcfg !! t with
    | None => false
    | Some dc => negb ((0 <? MaxInCity dc) && (MaxInCity dc <=? count stats t))
    end.

(** Step 1: the shuffling loop.  Both slices are used as stacks and are
    passed top first. *)
Fixpoint fixDocks (bcfg : gmap DistrictType DistrictConfig)
    (docks potentialdock : list nat) (b : Build) : Result Build :=
  match docks with
  | [] => Done b
  | d :: docks' =>
      match potentialdock with
      | last :: potentialdock' =>
          let lt := dType (deref (Districts b) last) in
          let ds := update last (setType Docks) (Districts b) in
          let ds := update d (setType lt) ds in
          fixDocks bcfg docks' potentialdock' (mkBuild ds (Stats b) (draws b))
      | [] =>
          let minInCity :=
            match bcfg !! Docks with
            | Some dcfg => MinInCity dcfg
            | None => 0
            end in
          if minInCity <? count (Stats b) Docks then
            match drawUntil (replacement bcfg (Stats b)) (draws b) with
            | None => Stuck
            | Some (t, rest) =>
                fixDocks bcfg docks' []
                  (mkBuild (update d (setType t) (Districts b))
                     (decrement (increment (Stats b) t) Docks) rest)
            end
          else Failed
      end
  end.

(** [verifyDistrictLocations]. *)
Definition verifyDistrictLocations (bcfg : gmap DistrictType DistrictConfig)
    (cfg : CityConfig) (dockCells : Z -> Z) (added : list nat) (b : Build)
  : Result Build :=
  let '(ds, docks, potentialdock) :=
    collectDocks (MinDockSize cfg) dockCells added (Districts b) in
  let b := mkBuild ds (Stats b) (draws b) in
  if (length docks =? 0)%nat then Done b
  else fixDocks bcfg (rev docks) (rev potentialdock) b.

Section Build.

Variable sortSlice : (nat -> nat -> bool) -> list nat -> list nat.
Variable sortTypes :
  (DistrictType -> DistrictType -> bool) -> list DistrictType ->
  list DistrictType.

(** [build] for a configuration without [DistrictSites], up to the end
    of the repair.  The phases after it (walls, roads, buildings) write
    neither a district's type nor the statistics.  A diagram without a
    site is a panic in [Builder.Voronoi]. *)
Definition buildTypes (bcfg : gmap DistrictType DistrictConfig)
    (cfg : CityConfig) (attempts : list (option Point))
    (dockCells : Z -> Z) (rnd : list DistrictType) : Result Build :=
  match randomDistricts sortSlice sortTypes bcfg cfg attempts
          (mkBuild [] ∅ rnd) with
  | Done (b, added) =>
      if (length (Districts b) =? 0)%nat then Stuck
      else verifyDistrictLocations bcfg cfg dockCells added b
  | Failed => Failed
  | Stuck => Stuck
  end.

End Build.

(** The number of districts of type [t]. *)
Definition countType (t : DistrictType) (ds : list District) : Z :=
  Z.of_nat (length (filter (fun d => dType d = t) ds)).

(** The number of entries [t] in a list of types. *)
Definition occurrences (t : DistrictType) (l : list DistrictType) : Z :=
  Z.of_nat (length (filter (fun u => u = t) l)).

(** The counts [n] respect the configuration: every configured type has
    at least its minimum, and one with a maximum of its own has at most
    the larger of the two bounds. *)
Definition respects (bcfg : gmap DistrictType DistrictConfig)
    (n : DistrictType -> Z) : Prop :=
  forall t dc, bcfg !! t = Some dc ->
    MinInCity dc <= n t /\
    (0 < MaxInCity dc -> n t <= Z.max (MinInCity dc) (MaxInCity dc)).

(** How many districts of type [t] the first loop of [randomDistricts]
    asks for. *)
Definition needOf (bcfg : gmap DistrictType DistrictConfig)
    (stats : gmap DistrictType Z) (t : DistrictType) : Z :=
  match bcfg !! t with
  | Some dc => Z.max 0 (MinInCity dc - count stats t)
  | None => 0
  end.

(** The body of that loop for one type. *)
Definition addMinimum (bcfg : gmap DistrictType DistrictConfig)
    (stats : gmap DistrictType Z)
    (acc : list DistrictType * gmap DistrictType Z) (typ : DistrictType)
  : list DistrictType * gmap DistrictType Z :=
  match bcfg !! typ with
  | None => acc
  | Some dc =>
      Nat.iter (Z.to_nat (MinInCity dc - count stats typ))
        (fun acc =>
           let '(dtypes, tempStats) := acc in
           (dtypes ++ [typ], <[typ := count tempStats typ + 1]> tempStats))
        acc
  end.

(** The statistics agree with the districts. *)
Definition consistent (b : Build) : Prop :=
  forall t, count (Stats b) t = countType t (Districts b).

(** What the shuffling loop relies on and keeps. *)
Definition repairable (bcfg : gmap DistrictType DistrictConfig)
    (docks potentialdock : list nat) (b : Build) : Prop :=
  NoDup docks /\
  Forall (fun d => (d < length (Districts b))%nat /\
                   dType (deref (Districts b) d) = Docks) docks /\
  Forall (fun d => (d < length (Districts b))%nat) potentialdock /\
  consistent b /\
  respects bcfg (fun t => countType t (Districts b)).

(** The reading of the claim as stated: no configured type with a
    maximum is above it and none is below its minimum. *)
Definition withinBounds (bcfg : gmap DistrictType DistrictConfig)
    (ds : list District) : Prop :=
  forall t dc, bcfg !! t = Some dc ->
    MinInCity dc <= countType t ds /\
    (0 < MaxInCity dc -> countType t ds <= MaxInCity dc).

End districts.

(** ** Concrete inputs for the examples *)
Module samples.

(** A fresh 10 by 10 map. *)
Definition map10 : citymap.imageMap := citymap.newMap (image.Rect 0 0 10 10).

(** Terrain along the x axis: water at x = 0, land from x = 1 on. *)
Definition shore : Outline :=
  {| CanBuildOn := fun x _ => 1 <=? x;
     CanBridgeOver := fun x _ => x =? 0;
     SuitableDock := fun _ _ => false |}.

(** Terrain along the x axis: rock at x = 0, water at x = 1, land from
    x = 2 on. *)
Definition cliff : Outline :=
  {| CanBuildOn := fun x _ => 2 <=? x;
     CanBridgeOver := fun x _ => x =? 1;
     SuitableDock := fun _ _ => false |}.

(** Terrain along the x axis: land at x = 0 and from x = 3 on, water at
    x = 1 and x = 2. *)
Definition ford : Outline :=
  {| CanBuildOn := fun x _ => (x =? 0) || (3 <=? x);
     CanBridgeOver := fun x _ => (x =? 1) || (x =? 2);
     SuitableDock := fun _ _ => false |}.

(** A map with one tower pixel sketched at (3,3). *)
Definition towerSketch : citymap.imageMap :=
  citymap.sketched (image.Rect 0 0 10 10)
    {[ Pt 3 3 := citymap.mkRGBA 0 0 100 255 ]}.

(** Two sites; the query point (0,0) is the first site itself. *)
Definition twoSites : voronoi.Voronoi :=
  voronoi.mkVoronoi
    [ voronoi.mkSite 0 0 0 [] (fun _ _ => true);
      voronoi.mkSite 1 10 10 [] (fun _ _ => true) ]
    (image.Rect 0 0 20 20).

(** Land everywhere. *)
Definition plain : Outline :=
  {| CanBuildOn := fun _ _ => true;
     CanBridgeOver := fun _ _ => false;
     SuitableDock := fun _ _ => false |}.

(** A fresh 40 by 40 map. *)
Definition map40 : citymap.imageMap := citymap.newMap (image.Rect 0 0 40 40).

(** A sort for the examples: insertion sort by the comparison. *)
Fixpoint insertBy {A} (less : A -> A -> bool) (x : A) (l : list A) : list A :=
  match l with
  | [] => [x]
  | y :: l' => if less y x then y :: insertBy less x l' else x :: l
  end.

Definition sortBy {A} (less : A -> A -> bool) (l : list A) : list A :=
  fold_right (insertBy less) [] l.

(** Seven districts: four fortresses and three fields at distance 9, 1
    and 5 from the centre (0,0). *)
Definition sevenDistricts : list District :=
  [ newDistrict 0 (Pt 0 1) Fortress; newDistrict 1 (Pt 9 0) Fields;
    newDistrict 2 (Pt 0 2) Fortress; newDistrict 3 (Pt 1 0) Fields;
    newDistrict 4 (Pt 2 0) Fortress; newDistrict 5 (Pt 5 0) Fields;
    newDistrict 6 (Pt 2 2) Fortress ].

Definition wallConfig : gmap DistrictType DistrictConfig :=
  {[ Fortress := mkDistrictConfig 0 0 true false;
     Fields := mkDistrictConfig 0 0 false false ]}.

(** A city of parks and docks: at least one park and at most two, at
    most one dock. *)
Definition parksAndDocks : gmap DistrictType DistrictConfig :=
  {[ Park := mkDistrictConfig 2 1 false false;
     Docks := mkDistrictConfig 1 0 false false ]}.

(** A configuration that asks for at least two parks and at most one. *)
Definition twoParksAtMostOne : gmap DistrictType DistrictConfig :=
  {[ Park := mkDistrictConfig 1 2 false false ]}.

Definition fourDistricts : districts.CityConfig :=
  districts.mkCityConfig 4 5 (Pt 0 0).

(** The build of parks and docks: two sites are accepted, the random
    source says docks, then park; no cell has a dock-suitable point. *)
Definition smallBuild : districts.Result districts.Build :=
  districts.buildTypes sortBy sortBy parksAndDocks fourDistricts
    [Some (Pt 3 3); None; Some (Pt 8 8)] (fun _ => 0) [Docks; Park; Park].

Definition overfullBuild : districts.Result districts.Build :=
  districts.buildTypes sortBy sortBy twoParksAtMostOne fourDistricts
    [Some (Pt 3 3); Some (Pt 8 8)] (fun _ => 0) [].

(** The state of a finished build, the empty one otherwise. *)
Definition builtOf (r : districts.Result districts.Build)
  : districts.Build :=
  match r with
  | districts.Done b => b
  | _ => districts.mkBuild [] ∅ []
  end.

End samples.

(** ** Vocabulary for the rasterizer *)
Module raster.

(** Two different points that touch, side by side or corner to corner. *)
Definition adjacent (p q : Point) : Prop :=
  Z.abs (image.X q - image.X p) <= 1 /\
  Z.abs (image.Y q - image.Y p) <= 1 /\ p <> q.

(** Every point of the list touches the next one. *)
Fixpoint connected (l : list Point) : Prop :=
  match l with
  | p :: (q :: _) as rest => adjacent p q /\ connected rest
  | _ => True
  end.

(** [a] comes first in the order by x, then by y. *)
Definition leftmost (a b : Point) : Prop :=
  image.X a < image.X b \/ (image.X a = image.X b /\ image.Y a <= image.Y b).

End raster.

(** ** Package encoding/binary (Go standard library), big endian *)
Module binary.

Definition byteZ (b : Byte.byte) : Z := Z.of_N (Byte.to_N b).

(** The conversion [byte(v)] of an unsigned number. *)
Definition toByte (v : Z) : Byte.byte :=
  default Byte.x00 (Byte.of_N (Z.to_N (v mod 256))).

(** [BigEndian.Uint16]; a slice shorter than two bytes is a panic. *)
Definition Uint16 (b : list Byte.byte) : option Z :=
  match b with
  | b0 :: b1 :: _ => Some (Z.lor (byteZ b1) (Z.shiftl (byteZ b0) 8))
  | _ => None
  end.

(** [BigEndian.PutUint16] into a fresh buffer of two bytes. *)
Definition PutUint16 (v : Z) : list Byte.byte :=
  [toByte (Z.shiftr v 8); toByte v].

End binary.

(** ** Package internal/encoding: numbers as byte slices *)
Module slices.

(** [FromBytes16] turns []byte into uint16. *)
Definition FromBytes16 (data : list Byte.byte) : option Z :=
  binary.Uint16 data.

(** [ToBytes16] turns a uint16 into []byte len 2. *)
Definition ToBytes16 (i : Z) : list Byte.byte := binary.PutUint16 i.

(** [FromBytes8] turns a []byte into a uint8. *)
Definition FromBytes8 (data : list Byte.byte) : option Z :=
  let data :=
    match data with
    | [b] => [Byte.x00; b]
    | _ => data
    end in
  (fun i16 => i16 mod 256) <$> binary.Uint16 data.

(** [ToBytes8] turns uint8 into []byte of len 1. *)
Definition ToBytes8 (i : Z) : list Byte.byte := [binary.toByte i].

End slices.

(** ** config.go: a building footprint *)
Record BuildingConfig := mkBuildingConfig {
  bID : Z;
  bArea : Rectangle
}.

(** ** Buildings on the spatial map *)
Module buildings.

(** [imageMap.setBuilding]; [None] is the nil building. *)
Definition setBuilding (c : citymap.imageMap) (x y : Z)
    (b : option BuildingConfig) : citymap.imageMap :=
  match b with
  | None => c
  | Some b =>
      fold_left
        (fun c dx =>
           fold_left
             (fun c dy => citymap.setBuildingID c (x + dx) (y + dy) (bID b))
             (zrange (image.Y (image.Min (bArea b)))
                     (image.Y (image.Max (bArea b)))) c)
        (zrange (image.X (image.Min (bArea b)))
                (image.X (image.Max (bArea b)))) c
  end.

(** [districtBuilder.buildingFits] returns if the building b fits at
    (ox,oy) (top left). *)
Definition buildingFits (cm : citymap.imageMap) (outline : Outline)
    (site : voronoi.Site) (ox oy : Z) (b : BuildingConfig) : bool :=
  forallb
    (fun x =>
       forallb
         (fun y =>
            if citymap.IsRoad cm (x + ox) (y + oy)
               || citymap.IsBridge cm (x + ox) (y + oy)
               || citymap.IsWall cm (x + ox) (y + oy)
               || citymap.IsTower cm (x + ox) (y + oy)
               || citymap.IsGatehouse cm (x + ox) (y + oy)
            then false
            else if negb (fst (citymap.BuildingID cm (x + ox) (y + oy)) =? 0)
            then false
            else if CanBuildOn outline (x + ox) (y + oy)
                    && voronoi.Contains site (x + ox) (y + oy)
            then true
            else false)
         (zrange (image.Y (image.Min (bArea b)) - 1)
                 (image.Y (image.Max (bArea b)) + 1)))
    (zrange (image.X (image.Min (bArea b))) (image.X (image.Max (bArea b)))).

(** The cell (px,py) belongs to the footprint of [b] placed at (ox,oy),
    with the row above and the row below it. *)
Definition inPadded (b : BuildingConfig) (ox oy px py : Z) : Prop :=
  image.X (image.Min (bArea b)) <= px - ox < image.X (image.Max (bArea b)) /\
  image.Y (image.Min (bArea b)) - 1 <= py - oy < image.Y (image.Max (bArea b)) + 1.

End buildings.

(** The five flag queries of the spatial map at x,y: road, bridge, wall,
    tower, gatehouse. *)
Definition flagsAt (c : citymap.imageMap) (x y : Z)
  : bool * bool * bool * bool * bool :=
  (citymap.IsRoad c x y, citymap.IsBridge c x y, citymap.IsWall c x y,
   citymap.IsTower c x y, citymap.IsGatehouse c x y).

(** ** Package internal/voronoi: polygons *)
Module polygon.

(** One turn of the loop of [Bounds]. *)
Definition widen (acc : Z * Z * Z * Z) (p : Point) : Z * Z * Z * Z :=
  let '(x0, y0, x1, y1) := acc in
  let '(x0, x1) :=
    if image.X p <? x0 then (image.X p, x1)
    else if x1 <? image.X p then (x0, image.X p) else (x0, x1) in
  let '(y0, y1) :=
    if image.Y p <? y0 then (image.Y p, y1)
    else if y1 <? image.Y p then (y0, image.Y p) else (y0, y1) in
  (x0, y0, x1, y1).

(** [Polygon.Bounds] returns the highest and lowest x and y values from
    the points of the polygon. *)
Definition Bounds (points : list Point) : Rectangle :=
  match points with
  | [] => image.Rect 0 0 0 0
  | first :: rest =>
      let '(x0, y0, x1, y1) :=
        fold_left widen rest
          (image.X first, image.Y first, image.X first, image.Y first) in
      image.Rect x0 y0 x1 y1
  end.

(** [Polygon.IsClosed]. *)
Definition IsClosed (points : list Point) : bool :=
  negb (Z.of_nat (length points) <? 3).

(** The loop at the top of [intersectsWithRaycast]: the point moves one
    row down while it is level with an end of the edge.  The code takes
    [math.Ceil] of the next float above [point.Y], which is the next
    integer for every coordinate an image can have.  [None] when the
    turns given by [fuel] are used up. *)
Fixpoint offRow (fuel : nat) (y sy ey : Z) : option Z :=
  match fuel with
  | O => None
  | S k => if (y =? sy) || (y =? ey) then offRow k (y + 1) sy ey else Some y
  end.

Section Raycast.

(** The comparison [raySlope >= diagSlope] of two float quotients, given
    the two numerators and the two denominators. *)
Variable slopeGe : Z -> Z -> Z -> Z -> bool.

(** [intersectsWithRaycast]: does the ray from the point cross the edge
    from [start] to [end]. *)
Definition intersectsWithRaycast (fuel : nat) (point start end_ : Point)
  : option bool :=
  let '(start, end_) :=
    if image.Y end_ <? image.Y start then (end_, start) else (start, end_) in
  match offRow fuel (image.Y point) (image.Y start) (image.Y end_) with
  | None => None
  | Some py =>
      Some
        (if (py <? image.Y start) || (image.Y end_ <? py) then false
         else if image.X end_ <? image.X start then
           if image.X start <? image.X point then false
           else if image.X point <? image.X end_ then true
           else slopeGe (py - image.Y start) (image.X point - image.X start)
                  (image.Y end_ - image.Y start)
                  (image.X end_ - image.X start)
         else
           if image.X end_ <? image.X point then false
           else if image.X point <? image.X start then true
           else slopeGe (py - image.Y start) (image.X point - image.X start)
                  (image.Y end_ - image.Y start)
                  (image.X end_ - image.X start))
  end.

(** The loop of [Contains] over the edges between consecutive points. *)
Fixpoint crossings (fuel : nat) (point prev : Point) (rest : list Point)
    (contains : bool) : option bool :=
  match rest with
  | [] => Some contains
  | p :: rest' =>
      match intersectsWithRaycast fuel point prev p with
      | None => None
      | Some hit =>
          crossings fuel point p rest' (if hit then negb contains else contains)
      end
  end.

(** [Polygon.Contains] returns whether the polygon contains the point. *)
Definition Contains (fuel : nat) (points : list Point) (point : Point)
  : option bool :=
  if negb (IsClosed points) then Some false
  else
    match points with
    | [] => Some false
    | first :: rest =>
        match intersectsWithRaycast fuel point (List.last points image.ZP)
                first with
        | None => None
        | Some contains => crossings fuel point first rest contains
        end
    end.

End Raycast.

(** The box [acc] is the tight box around the points [l]: every point
    lies in it and each of its four sides goes through a point. *)
Definition boxOf (l : list Point) (acc : Z * Z * Z * Z) : Prop :=
  let '(x0, y0, x1, y1) := acc in
  Forall (fun p => x0 <= image.X p <= x1 /\ y0 <= image.Y p <= y1) l /\
  (exists p, In p l /\ image.X p = x0) /\
  (exists p, In p l /\ image.Y p = y0) /\
  (exists p, In p l /\ image.X p = x1) /\
  (exists p, In p l /\ image.Y p = y1).

(** The four numbers of a rectangle. *)
Definition corners (r : Rectangle) : Z * Z * Z * Z :=
  (image.X (image.Min r), image.Y (image.Min r),
   image.X (image.Max r), image.Y (image.Max r)).

End polygon.

(** ** internal/voronoi/site.go: the generator of the points of a site *)
Module pgen.

(** [vPGen]: the bounds and the position reached; the polygon is
    represented by its membership test. *)
Record vPGen := mkGen { gbounds : Rectangle; gx : Z; gy : Z }.

Section Generator.

(** [v.poly.Contains]. *)
Variable contains : Point -> bool.

(** The two nested loops of [Next] from the row [y0] on: [rows] are the
    rows still to visit and [x] is where the first of them is entered.
    The result is the point found, and [v.x] and [v.y] on return. *)
Fixpoint scanRows (bnds : Rectangle) (rows : list Z) (x y0 : Z)
  : option Point * (Z * Z) :=
  match rows with
  | [] => (None, (x, y0))
  | y :: rows' =>
      match find (fun x' => contains (Pt x' y))
              (zrange x (image.X (image.Max bnds))) with
      | Some x' => (Some (Pt x' y), (x' + 1, y))
      | None => scanRows bnds rows' (image.X (image.Min bnds)) (y + 1)
      end
  end.

(** [Next] returns the next point contained in a site; [None] is nil. *)
Definition Next (v : vPGen) : option Point * vPGen :=
  let bnds := gbounds v in
  let '(x, y) :=
    if (gx v =? -1) && (gy v =? -1)
    then (image.X (image.Min bnds), image.Y (image.Min bnds))
    else (gx v, gy v) in
  let '(p, (x, y)) :=
    scanRows bnds (zrange y (image.Y (image.Max bnds))) x y in
  (p, mkGen bnds x y).

(** [AllContains] returns a generator for a site with the bounds
    [bnds]. *)
Definition AllContains (bnds : Rectangle) : vPGen := mkGen bnds (-1) (-1).

(** The loop of the callers: [for { p := gen.Next(); if p == nil
    { break }; ... }], collecting the points; [fuel] bounds the turns. *)
Fixpoint drain (fuel : nat) (v : vPGen) : list Point :=
  match fuel with
  | O => []
  | S k =>
      match Next v with
      | (None, _) => []
      | (Some p, v') => p :: drain k v'
      end
  end.

End Generator.

(** The points of a rectangle, row by row. *)
Definition rowFrom (bnds : Rectangle) (x y : Z) : list Point :=
  map (fun x' => Pt x' y) (zrange x (image.X (image.Max bnds))).

Definition rowsFrom (bnds : Rectangle) (y : Z) : list Point :=
  concat (map (rowFrom bnds (image.X (image.Min bnds)))
            (zrange y (image.Y (image.Max bnds)))).

Definition rowMajor (bnds : Rectangle) : list Point :=
  rowsFrom bnds (image.Y (image.Min bnds)).

(** What is left to visit from the position (x, y). *)
Definition remaining (bnds : Rectangle) (x y : Z) : list Point :=
  if y <? image.Y (image.Max bnds)
  then rowFrom bnds x y ++ rowsFrom bnds (y + 1)
  else [].

End pgen.

(** ** Package internal/voronoi: the diagram builder *)
Module builder.

(** [CandidateFilter] accepts or rejects a candidate point (x, y);
    [SiteFilter] compares it with a site that was accepted before. *)
Definition CandidateFilter : Type := Z -> Z -> bool.
Definition SiteFilter : Type := Z -> Z -> Z -> Z -> bool.

(** [Builder] without its random number generator: the callers of
    [AddRandomSite] pass the two numbers it draws. *)
Record Builder := mkBuilder {
  bbounds : Rectangle;
  bsites : list Point;
  sfilt : list SiteFilter;
  cfilt : list CandidateFilter
}.

Definition NewBuilder (bounds : Rectangle) : Builder :=
  mkBuilder bounds [] [] [].

Definition SiteCount (b : Builder) : Z := Z.of_nat (length (bsites b)).

Definition SetCandidateFilters (b : Builder) (f : list CandidateFilter)
  : Builder :=
  mkBuilder (bbounds b) (bsites b) (sfilt b) f.

Definition SetSiteFilters (b : Builder) (f : list SiteFilter) : Builder :=
  mkBuilder (bbounds b) (bsites b) f (cfilt b).

(** [MinDistance] for a distance that is a whole number, as its caller
    passes it: [calculateDist(sx, sy, ax, ay) >= dist]. *)
Definition MinDistance (dist : Z) : SiteFilter :=
  fun ax ay sx sy =>
    (dist <=? 0) || (dist * dist <=? calculateDistSq sx sy ax ay).

(** [accepted] returns if the proposed site location is acceptable to
    the filters. *)
Definition accepted (b : Builder) (candidateX candidateY : Z) : bool :=
  forallb (fun fn : CandidateFilter => fn candidateX candidateY) (cfilt b) &&
  forallb
    (fun s =>
       forallb
         (fun fn : SiteFilter =>
            fn candidateX candidateY (image.X s) (image.Y s))
         (sfilt b))
    (bsites b).

(** [addSite] adds a site, no filters are run. *)
Definition addSite (b : Builder) (x y : Z) : Builder * Z :=
  (mkBuilder (bbounds b) (bsites b ++ [Pt x y]) (sfilt b) (cfilt b),
   Z.of_nat (length (bsites b))).

(** [AddSite] places a site at the given location, assuming it obeys the
    filters. *)
Definition AddSite (b : Builder) (x y : Z) : Builder * Z * bool :=
  if negb (accepted b x y) then (b, 0, false)
  else let '(b', id) := addSite b x y in (b', id, true).

(** [AddRandomSite]; [rx] and [ry] are what the two calls of [rng.Intn]
    return.  [Intn] panics on a bound that is not positive: [None]. *)
Definition AddRandomSite (b : Builder) (rx ry : Z)
  : option (Builder * Z * Z * Z * bool) :=
  let w := image.X (image.Max (bbounds b)) - image.X (image.Min (bbounds b)) in
  let h := image.Y (image.Max (bbounds b)) - image.Y (image.Min (bbounds b)) in
  if (w <=? 0) || (h <=? 0) then None
  else
    let candidateX := rx + image.X (image.Min (bbounds b)) in
    let candidateY := ry + image.Y (image.Min (bbounds b)) in
    if negb (accepted b candidateX candidateY) then Some (b, 0, 0, 0, false)
    else
      let '(b', id) := addSite b candidateX candidateY in
      Some (b', candidateX, candidateY, id, true).

(** One request to a builder. *)
Inductive request :=
  | Place (x y : Z)
  | Random (rx ry : Z).

(** The builder after a request; a panic leaves no builder. *)
Definition serve (b : Builder) (r : request) : option Builder :=
  match r with
  | Place x y => Some (AddSite b x y).1.1
  | Random rx ry =>
      (fun out : Builder * Z * Z * Z * bool => out.1.1.1.1)
        <$> AddRandomSite b rx ry
  end.

Fixpoint serveAll (b : Builder) (rs : list request) : option Builder :=
  match rs with
  | [] => Some b
  | r :: rs' =>
      match serve b r with
      | None => None
      | Some b' => serveAll b' rs'
      end
  end.

(** Every site passed all site filters against every site before it. *)
Definition apart (b : Builder) : Prop :=
  forall (i j : nat) (s t : Point),
    (i < j)%nat -> bsites b !! i = Some s -> bsites b !! j = Some t ->
    Forall (fun fn : SiteFilter =>
              fn (image.X t) (image.Y t) (image.X s) (image.Y s) = true)
      (sfilt b).

End builder.

(** ** internal/voronoi/site.go: the neighbours of a site *)
Module neighbours.

(** The closure [toEdgeId]; the key it prints is embedded as the ordered
    pair of end points. *)
Definition toEdgeId (e : Segment) : Point * Point :=
  let '(a, b) := e in
  let '(a, b) := if image.X b <? image.X a then (b, a) else (a, b) in
  let '(a, b) :=
    if (image.X a =? image.X b) && (image.Y b <? image.Y a)
    then (b, a) else (a, b) in
  (a, b).

(** The map [myedges]. *)
Definition myedges (s : voronoi.Site) : gmap (Point * Point) Segment :=
  fold_left (fun m e => <[toEdgeId e := e]> m) (voronoi.Edges s) ∅.

(** [Neighbour] is a site and the edges it shares. *)
Definition Neighbour : Type := voronoi.Site * list Segment.

(** [Neighbours] returns all sites that share an edge with the site;
    [all] is [s.parent.Sites()]. *)
Definition Neighbours (all : list voronoi.Site) (s : voronoi.Site)
  : list Neighbour :=
  fold_left
    (fun ls syte =>
       if voronoi.ID syte =? voronoi.ID s then ls
       else
         let edges :=
           List.filter
             (fun e => bool_decide (is_Some (myedges s !! toEdgeId e)))
             (voronoi.Edges syte) in
         if (0 <? length edges)%nat then ls ++ [(syte, edges)] else ls)
    all [].

(** The edge [e] is an edge of [s], in one direction or the other. *)
Definition sharedWith (s : voronoi.Site) (e : Segment) : Prop :=
  exists e', In e' (voronoi.Edges s) /\ toEdgeId e' = toEdgeId e.

End neighbours.

(** ** Vocabulary for the nearest-site query *)
Module nearest.

(** The squared distance from the site to the point. *)
Definition distSq (x y : Z) (s : voronoi.Site) : Z :=
  calculateDistSq (voronoi.X s) (voronoi.Y s) x y.

End nearest.

(** ** citygraph.go: bridges along a road *)
Module bridges.

(** [int(calculateDist(path[0].X, path[0].Y, path[1].X, path[1].Y))]. *)
Definition bridgeLength (path : Segment) : Z :=
  calculateDistInt (image.X path.1) (image.Y path.1)
    (image.X path.2) (image.Y path.2).

(** The loop over the bridges of one edge in [addMainRoads] and
    [addMinorRoads]: the bridges that are drawn, and the counter of
    bridges afterwards. *)
Fixpoint drawBridges (maxBridges MaxBridgeLength MinBridgeLength : Z)
    (created : Z) (bridges : list Segment) : list Segment * Z :=
  match bridges with
  | [] => ([], created)
  | path :: rest =>
      if (0 <=? maxBridges) && (maxBridges <=? created) then ([], created)
      else
        let blen := bridgeLength path in
        if (0 <? MaxBridgeLength) && (MaxBridgeLength <? blen) then
          drawBridges maxBridges MaxBridgeLength MinBridgeLength created rest
        else if blen <? MinBridgeLength then
          drawBridges maxBridges MaxBridgeLength MinBridgeLength created rest
        else
          let '(drawn, n) :=
            drawBridges maxBridges MaxBridgeLength MinBridgeLength
              (created + 1) rest in
          (path :: drawn, n)
  end.

End bridges.

(** ** The spatial map as a picture *)
Module render.

Section Colours.

(** [color.Color], as the scheme holds it and the picture stores it. *)
Variable Colour : Type.

(** [ColourScheme]. *)
Record ColourScheme := mkColourScheme {
  Roads : Colour;
  Bridges : Colour;
  Walls : Colour;
  Towers : Colour;
  Gates : Colour;
  Buildings : Colour;
  Districts : gmap DistrictType Colour
}.

(** [image.RGBA]: a pixel that was never set is absent. *)
Record Picture := mkPicture { PRect : Rectangle; PPix : gmap Point Colour }.

Definition NewRGBA (bnds : Rectangle) : Picture := mkPicture bnds ∅.

Definition Set_ (im : Picture) (x y : Z) (col : Colour) : Picture :=
  if image.In_ (Pt x y) (PRect im)
  then mkPicture (PRect im) (<[Pt x y := col]> (PPix im))
  else im.

(** The body of the double loop of [CustomImage] at one pixel; [inl] is
    the error return. *)
Definition customPixel (c : citymap.imageMap) (scheme : ColourScheme)
    (dx dy : Z) (im : Picture) : citymap.error + Picture :=
  let bm := citymap.getBM c dx dy in
  if bitmap.Get bm citymap.bitGate then inr (Set_ im dx dy (Gates scheme))
  else if bitmap.Get bm citymap.bitTower
  then inr (Set_ im dx dy (Towers scheme))
  else if bitmap.Get bm citymap.bitWall
  then inr (Set_ im dx dy (Walls scheme))
  else if bitmap.Get bm citymap.bitBridge
  then inr (Set_ im dx dy (Bridges scheme))
  else if bitmap.Get bm citymap.bitRoad
  then inr (Set_ im dx dy (Roads scheme))
  else
    match citymap.BuildingID c dx dy with
    | (_, Some err) => inl err
    | (buildingID, None) =>
        if negb (buildingID =? 0)
        then inr (Set_ im dx dy (Buildings scheme))
        else
          match citymap.District c dx dy with
          | (_, _, Some err) => inl err
          | (dtype, _, None) =>
              match Districts scheme !! dtype with
              | Some col => inr (Set_ im dx dy col)
              | None => inr im
              end
          end
    end.

(** [CustomImage] returns the map coloured with the given scheme. *)
Definition CustomImage (c : citymap.imageMap) (scheme : ColourScheme)
  : citymap.error + Picture :=
  let bnds := citymap.Rect64 (citymap.im c) in
  fold_left
    (fun acc dy =>
       fold_left
         (fun acc dx =>
            match acc with
            | inl err => inl err
            | inr im => customPixel c scheme dx dy im
            end)
         (zrange (image.X (image.Min bnds)) (image.X (image.Max bnds))) acc)
    (zrange (image.Y (image.Min bnds)) (image.Y (image.Max bnds)))
    (inr (NewRGBA bnds)).

(** The colour of the pixel x,y by what is there: a gatehouse before a
    tower, a wall, a bridge, a road, a building and the district. *)
Definition colourAt (c : citymap.imageMap) (scheme : ColourScheme)
    (x y : Z) : option Colour :=
  if citymap.IsGatehouse c x y then Some (Gates scheme)
  else if citymap.IsTower c x y then Some (Towers scheme)
  else if citymap.IsWall c x y then Some (Walls scheme)
  else if citymap.IsBridge c x y then Some (Bridges scheme)
  else if citymap.IsRoad c x y then Some (Roads scheme)
  else if negb (fst (citymap.BuildingID c x y) =? 0)
  then Some (Buildings scheme)
  else Districts scheme !! fst (fst (citymap.District c x y)).

End Colours.

End render.

(** ** Concrete inputs for further examples *)
Module cases.

(** A building of two by two cells with the id 5. *)
Definition hut : BuildingConfig := mkBuildingConfig 5 (image.Rect 0 0 2 2).

(** A site whose cell is the whole plane. *)
Definition everywhere : voronoi.Site :=
  voronoi.mkSite 0 5 5 [] (fun _ _ => true).

Definition triangle : list Point := [Pt 0 0; Pt 4 0; Pt 0 4].

(** A slope comparison that always says yes. *)
Definition anySlope : Z -> Z -> Z -> Z -> bool := fun _ _ _ _ => true.

(** The points on the diagonal. *)
Definition diagonal : Point -> bool := fun p => image.X p =? image.Y p.

(** One row of three points left of the origin. *)
Definition strip : Rectangle := image.Rect (-3) (-1) 0 0.

(** A builder that keeps sites five apart, and three sites to place. *)
Definition fiveApart : builder.Builder :=
  builder.SetSiteFilters
    (builder.SetCandidateFilters (builder.NewBuilder (image.Rect 0 0 20 20)) [])
    [builder.MinDistance 5].

Definition threePlaces : list builder.request :=
  [builder.Place 1 1; builder.Place 2 2; builder.Place 9 9].

(** Two square cells side by side; they share the edge at x = 4, which
    each of them runs through in its own direction. *)
Definition leftCell : voronoi.Site :=
  voronoi.mkSite 0 2 2
    [(Pt 0 0, Pt 4 0); (Pt 4 0, Pt 4 4); (Pt 4 4, Pt 0 4); (Pt 0 4, Pt 0 0)]
    (fun _ _ => true).

Definition rightCell : voronoi.Site :=
  voronoi.mkSite 1 6 2
    [(Pt 4 4, Pt 4 0); (Pt 4 0, Pt 8 0); (Pt 8 0, Pt 8 4); (Pt 8 4, Pt 4 4)]
    (fun _ _ => true).

(** A docks district whose cell has no dock-suitable point and a park
    whose cell has nine. *)
Definition harbour : districts.Build :=
  districts.mkBuild
    [mkDistrict 0 Docks (Pt 1 1) 0 false false;
     mkDistrict 1 Park (Pt 5 5) 0 false false]
    {[ Docks := 1; Park := 1 ]} [].

Definition berths : Z -> Z := fun id => if id =? 1 then 9 else 0.

Definition harbourVerified : districts.Build :=
  samples.builtOf
    (districts.verifyDistrictLocations samples.parksAndDocks
       samples.fourDistricts berths [0; 1]%nat harbour).

(** The seven districts with the flags of their configuration. *)
Definition sevenFlagged : list District :=
  default []
    (walls.flagsFromConfig samples.wallConfig [0; 1; 2; 3; 4; 5; 6]%nat
       samples.sevenDistricts).

End cases.

(* ===================================================================== *)
(** * Part II.  Properties                                                *)
(* ===================================================================== *)

(** ** The line classifier *)
Module classifier_facts.
Import classifier.

(** *** Shape of the run decomposition *)

Lemma runsFrom_nonempty s e c l : runsFrom s e c l <> [].
Proof.
  revert s e c; induction l as [|d l IH]; intros s e c; simpl.
  - discriminate.
  - destruct (c =? d); [apply IH | discriminate].
Qed.

(** The head of [runsFrom s e c l] starts at [s] with class [c]. *)
Lemma runsFrom_head s e c l :
  exists e' rest, runsFrom s e c l = mkRun s e' c :: rest /\ (e <= e')%nat.
Proof.
  revert e; induction l as [|d l IH]; intros e; simpl.
  - exists e, []; split; [reflexivity | lia].
  - destruct (c =? d).
    + destruct (IH (S e)) as (e' & rest & -> & He).
      exists e', rest; split; [reflexivity | lia].
    + exists e, (runsFrom (S e) (S e) d l); split; [reflexivity | lia].
Qed.

Lemma runsFrom_chained s e c l : chained (runsFrom s e c l).
Proof.
  revert s e c; induction l as [|d l IH]; intros s e c; simpl.
  - exact I.
  - destruct (c =? d) eqn:Hcd; [apply IH |].
    destruct (runsFrom_head (S e) (S e) d l) as (e' & rest & Heq & _).
    pose proof (IH (S e) (S e) d) as Hch.
    rewrite Heq in *. simpl. repeat split; [|exact Hch].
    apply Z.eqb_neq in Hcd. exact Hcd.
Qed.

(** The runs are well formed, start after [s] and are ordered. *)
Lemma runsFrom_bounds s e c l :
  (s <= e)%nat ->
  Forall (fun r => (s <= rfirst r <= rlast r)%nat /\
                   (rlast r <= e + length l)%nat) (runsFrom s e c l).
Proof.
  revert s e c; induction l as [|d l IH]; intros s e c Hse; simpl.
  - constructor; [simpl; lia | constructor].
  - destruct (c =? d).
    + eapply List.Forall_impl; [|apply IH; lia]. simpl. intros r; lia.
    + constructor; [simpl; lia |].
      eapply List.Forall_impl; [|apply (IH (S e) (S e) d); lia].
      simpl. intros r; lia.
Qed.

Lemma runsFrom_sorted s e c l :
  (s <= e)%nat -> StronglySorted firstLt (runsFrom s e c l).
Proof.
  revert s e c; induction l as [|d l IH]; intros s e c Hse; simpl.
  - repeat constructor.
  - destruct (c =? d); [apply IH; lia |].
    constructor; [apply IH; lia |].
    eapply List.Forall_impl; [|apply (runsFrom_bounds (S e) (S e) d l); lia].
    unfold firstLt; simpl. intros r; lia.
Qed.

(** The indices of the runs, put end to end, are the indices from [s]
    on. *)
Lemma runsFrom_indices s e c l :
  (s <= e)%nat ->
  concat (map indicesOf (runsFrom s e c l)) = seq s (S (e - s) + length l).
Proof.
  revert s e c; induction l as [|d l IH]; intros s e c Hse; simpl runsFrom.
  - cbn [map concat length]. unfold indicesOf; cbn [rfirst rlast].
    rewrite app_nil_r, Nat.add_0_r. reflexivity.
  - destruct (c =? d).
    + rewrite IH by lia. f_equal. cbn [length]. lia.
    + cbn [map concat]. rewrite (IH (S e) (S e) d) by lia.
      unfold indicesOf at 1; cbn [rfirst rlast].
      replace (S (e - s) + length (d :: l))%nat
        with (S (e - s) + (S (S e - S e) + length l))%nat by (simpl; lia).
      rewrite (seq_app (S (e - s)) (S (S e - S e) + length l) s).
      replace (s + S (e - s))%nat with (S e) by lia. reflexivity.
Qed.

(** Every index of a run carries the class of the run. *)
Lemma runsFrom_class (full : list Z) s e c l :
  (s <= e)%nat ->
  (forall i, (s <= i <= e)%nat -> nth i full enumNothing = c) ->
  skipn (S e) full = l ->
  Forall (fun r => forall i, (rfirst r <= i <= rlast r)%nat ->
                             nth i full enumNothing = rclass r)
         (runsFrom s e c l).
Proof.
  revert s e c; induction l as [|d l IH]; intros s e c Hse Hc Hl; simpl.
  - constructor; [|constructor]. simpl. auto.
  - assert (Hd : nth (S e) full enumNothing = d).
    { rewrite <- (Nat.add_0_r (S e)), <- nth_skipn, Hl. reflexivity. }
    assert (Hl' : skipn (S (S e)) full = l).
    { change (S (S e)) with (1 + S e)%nat.
      rewrite <- skipn_skipn, Hl. reflexivity. }
    destruct (c =? d) eqn:Hcd.
    + apply Z.eqb_eq in Hcd. apply IH; [lia | | exact Hl'].
      intros i Hi. destruct (Nat.eq_dec i (S e)) as [->|Hne].
      * congruence.
      * apply Hc. lia.
    + constructor; [simpl; auto |].
      apply IH; [lia | | exact Hl'].
      intros i Hi. assert (i = S e) as -> by lia. exact Hd.
Qed.

(** *** The loop against the run decomposition *)

Lemma removelast_cons_runsFrom r s e c l :
  removelast (r :: runsFrom s e c l) = r :: removelast (runsFrom s e c l).
Proof.
  pose proof (runsFrom_nonempty s e c l).
  destruct (runsFrom s e c l); [contradiction | reflexivity].
Qed.

Lemma last_cons_runsFrom r s e c l :
  List.last (r :: runsFrom s e c l) noRun = List.last (runsFrom s e c l) noRun.
Proof.
  pose proof (runsFrom_nonempty s e c l).
  destruct (runsFrom s e c l); [contradiction | reflexivity].
Qed.

Lemma at_segOf path s e c :
  (at_ path (Z.of_nat s), at_ path (Z.of_nat (S e) - 1)) =
  segOf path (mkRun s e c).
Proof.
  unfold at_, segOf; cbn [rfirst rlast].
  rewrite Nat2Z.id. f_equal. f_equal. lia.
Qed.

Lemma hasRoads_app st seg i me b w :
  hasRoads (mkState i me (roads st ++ [seg]) b w) = true.
Proof.
  unfold hasRoads; cbn [roads]. rewrite length_app; cbn [length].
  apply Z.ltb_lt. lia.
Qed.

Lemma emitBridges_cons h r l :
  emitBridges h (r :: l) =
  emitBridges h [r] ++ emitBridges (h || isClass enumRoad r) l.
Proof.
  cbn [emitBridges]. unfold isClass.
  destruct (rclass r =? enumBridge) eqn:Hb.
  - apply Z.eqb_eq in Hb. rewrite Hb.
    change (enumBridge =? enumRoad) with false. rewrite orb_false_r.
    destruct h; reflexivity.
  - reflexivity.
Qed.

Lemma filter_cons_app {A} (f : A -> bool) r l :
  List.filter f (r :: l) = List.filter f [r] ++ List.filter f l.
Proof. cbn [List.filter]. destruct (f r); reflexivity. Qed.

(** One turn of the loop that closes the run [s..e]. *)
Lemma step_close path me st s e :
  prevIndex st = Z.of_nat s ->
  (prevEnum st =? me) = false ->
  let r := mkRun s e (prevEnum st) in
  let st1 := step path me (Z.of_nat (S e)) st in
  prevIndex st1 = Z.of_nat (S e) /\ prevEnum st1 = me /\
  roads st1 =
    roads st ++ map (segOf path) (List.filter (isClass enumRoad) [r]) /\
  bridges st1 =
    bridges st ++ map (segOf path) (emitBridges (hasRoads st) [r]) /\
  walls st1 =
    walls st ++ map (segOf path) (List.filter (isClass enumWall) [r]) /\
  hasRoads st1 = hasRoads st || isClass enumRoad r.
Proof.
  intros Hs Hne r st1. subst st1. unfold step.
  rewrite Hs, Hne.
  replace (Z.of_nat s =? -1) with false by (symmetry; apply Z.eqb_neq; lia).
  rewrite (at_segOf path s e (prevEnum st)). fold r.
  cbn [List.filter emitBridges]. unfold isClass. subst r. cbn [rclass].
  fold (hasRoads st).
  destruct (prevEnum st =? enumBridge) eqn:Hb.
  - apply Z.eqb_eq in Hb. rewrite Hb.
    change (enumBridge =? enumRoad) with false.
    change (enumBridge =? enumWall) with false.
    destruct (hasRoads st) eqn:Hr; cbn [prevIndex prevEnum roads bridges walls map];
      rewrite ?app_nil_r; unfold hasRoads in *; cbn [roads]; rewrite ?Hr; auto 10.
  - destruct (prevEnum st =? enumRoad) eqn:Hrd.
    + apply Z.eqb_eq in Hrd. rewrite Hrd.
      change (enumRoad =? enumWall) with false.
      cbn [prevIndex prevEnum roads bridges walls map].
      rewrite ?app_nil_r, orb_true_r.
      repeat split; try reflexivity.
      unfold hasRoads; cbn [roads]. rewrite length_app; cbn [length].
      apply Z.ltb_lt. lia.
    + destruct (prevEnum st =? enumWall) eqn:Hw;
        cbn [prevIndex prevEnum roads bridges walls map];
        rewrite ?app_nil_r, orb_false_r; unfold hasRoads; cbn [roads]; auto 10.
Qed.

(** The state the loop reaches from an open run [s..e] of class [c]. *)
Lemma loop_runs classify path rest :
  forall s e c st,
    prevIndex st = Z.of_nat s -> prevEnum st = c ->
    let rs := runsFrom s e c (map classify rest) in
    let closed := removelast rs in
    let st' := loop classify path rest (Z.of_nat (S e)) st in
    prevIndex st' = Z.of_nat (rfirst (List.last rs noRun)) /\
    prevEnum st' = rclass (List.last rs noRun) /\
    roads st' =
      roads st ++ map (segOf path) (List.filter (isClass enumRoad) closed) /\
    bridges st' =
      bridges st ++ map (segOf path) (emitBridges (hasRoads st) closed) /\
    walls st' =
      walls st ++ map (segOf path) (List.filter (isClass enumWall) closed).
Proof.
  induction rest as [|p rest IH]; intros s e c st Hs Hc; cbn zeta.
  - cbn. rewrite !app_nil_r. auto.
  - cbn [map runsFrom loop].
    replace (Z.of_nat (S e) + 1) with (Z.of_nat (S (S e))) by lia.
    destruct (c =? classify p) eqn:Hcd.
    + assert (Hst : step path (classify p) (Z.of_nat (S e)) st = st).
      { unfold step. rewrite Hs, Hc, Hcd.
        replace (Z.of_nat s =? -1) with false
          by (symmetry; apply Z.eqb_neq; lia).
        reflexivity. }
      rewrite Hst. apply (IH s (S e) c st Hs Hc).
    + rewrite removelast_cons_runsFrom, last_cons_runsFrom.
      subst c.
      destruct (step_close path (classify p) st s e Hs Hcd)
        as (K1 & K2 & K3 & K4 & K5 & K6).
      destruct (IH (S e) (S e) (classify p) _ K1 K2)
        as (H1 & H2 & H3 & H4 & H5).
      rewrite (filter_cons_app (isClass enumRoad)).
      rewrite (filter_cons_app (isClass enumWall)).
      rewrite (emitBridges_cons (hasRoads st)).
      rewrite H1, H2, H3, H4, H5, K3, K4, K5, K6.
      rewrite !map_app, <- !app_assoc. auto.
Qed.

Lemma runsFrom_last_rlast s e c l :
  rlast (List.last (runsFrom s e c l) noRun) = (e + length l)%nat.
Proof.
  revert s e c; induction l as [|d l IH]; intros s e c; cbn [runsFrom].
  - cbn. lia.
  - destruct (c =? d).
    + rewrite IH. cbn [length]. lia.
    + rewrite last_cons_runsFrom, IH. cbn [length]. lia.
Qed.

Lemma runsFrom_last_bounds s e c l :
  (s <= e)%nat ->
  (rfirst (List.last (runsFrom s e c l) noRun) <=
   rlast (List.last (runsFrom s e c l) noRun))%nat.
Proof.
  intros Hse. pose proof (runsFrom_bounds s e c l Hse) as HF.
  pose proof (runsFrom_nonempty s e c l) as Hne.
  rewrite List.Forall_forall in HF.
  destruct (HF (List.last (runsFrom s e c l) noRun)) as [H _]; [|lia].
  destruct (exists_last Hne) as (l' & a & ->).
  rewrite last_last. apply in_or_app; right; left; reflexivity.
Qed.

(** [lineSegments] in terms of the runs of the classification: the
    closed runs are emitted in path order, bridges only once a road has
    been emitted, and the last run by the statements after the loop. *)
Lemma lineSegmentsOn_runs classify path :
  let rs := runsOf (map classify path) in
  let closed := removelast rs in
  lineSegmentsOn classify path =
  (map (segOf path) (List.filter (isClass enumRoad) closed)
     ++ finalSeg path rs enumRoad,
   map (segOf path) (emitBridges false closed)
     ++ finalSeg path rs enumBridge,
   map (segOf path) (List.filter (isClass enumWall) closed)
     ++ finalSeg path rs enumWall).
Proof.
  destruct path as [|p rest]; [reflexivity|].
  cbn zeta. unfold lineSegmentsOn. cbn [loop map runsOf].
  assert (Hst : step (p :: rest) (classify p) 0 (mkState (-1) (-1) [] [] [])
                = mkState 0 (classify p) [] [] []) by reflexivity.
  rewrite Hst. clear Hst.
  destruct (loop_runs classify (p :: rest) rest 0 0 (classify p)
              (mkState 0 (classify p) [] [] []) eq_refl eq_refl)
    as (H1 & H2 & H3 & H4 & H5).
  change (Z.of_nat 1) with (0 + 1) in *.
  set (st' := loop classify (p :: rest) rest (0 + 1)
                (mkState 0 (classify p) [] [] [])) in *.
  set (rs := runsFrom 0 0 (classify p) (map classify rest)) in *.
  cbn [roads bridges walls app] in H3, H4, H5.
  change (hasRoads _) with false in H4.
  pose proof (runsFrom_last_rlast 0 0 (classify p) (map classify rest)) as Hl.
  pose proof (runsFrom_last_bounds 0 0 (classify p) (map classify rest)
                (Nat.le_refl 0)) as Hb.
  fold rs in Hl, Hb. rewrite length_map in Hl. cbn [Nat.add] in Hl.
  unfold flush. rewrite H1, H2, H3, H4, H5.
  unfold finalSeg.
  pose proof (runsFrom_nonempty 0 0 (classify p) (map classify rest)) as Hne.
  fold rs in Hne. destruct rs as [|r0 rs0] eqn:Hrs; [contradiction|].
  rewrite <- Hrs in *.
  set (r := List.last rs noRun) in *.
  assert (Hat : (at_ (p :: rest) (Z.of_nat (rfirst r)),
                 at_ (p :: rest) (Z.of_nat (length (p :: rest)) - 1))
                = segOf (p :: rest) r).
  { unfold at_, segOf. rewrite Nat2Z.id. f_equal. f_equal.
    cbn [length]. lia. }
  rewrite Hat. unfold isClass.
  destruct (Nat.eqb_spec (rfirst r) (rlast r)) as [He | He].
  - replace (Z.of_nat (rfirst r) =? Z.of_nat (length (p :: rest)) - 1)
      with true by (symmetry; apply Z.eqb_eq; cbn [length]; lia).
    cbn [negb]. rewrite !andb_false_r, !app_nil_r. reflexivity.
  - replace (Z.of_nat (rfirst r) =? Z.of_nat (length (p :: rest)) - 1)
      with false by (symmetry; apply Z.eqb_neq; cbn [length]; lia).
    cbn [negb]. rewrite !andb_true_r.
    destruct (rclass r =? enumBridge) eqn:Hbr.
    + apply Z.eqb_eq in Hbr. rewrite Hbr.
      change (enumBridge =? enumRoad) with false.
      change (enumBridge =? enumWall) with false.
      rewrite !app_nil_r. reflexivity.
    + destruct (rclass r =? enumRoad) eqn:Hrd.
      * apply Z.eqb_eq in Hrd. rewrite Hrd.
        change (enumRoad =? enumWall) with false.
        rewrite !app_nil_r. reflexivity.
      * destruct (rclass r =? enumWall); rewrite !app_nil_r; reflexivity.
Qed.

(** *** Bridges are emitted exactly when a road run lies before them *)

Lemma existsb_agree {A} (f g : A -> bool) l :
  (forall a, In a l -> f a = g a) -> existsb f l = existsb g l.
Proof.
  induction l as [|a l IH]; intros H; [reflexivity|].
  cbn [existsb]. rewrite (H a) by (left; reflexivity).
  rewrite IH; [reflexivity|]. intros b Hb. apply H. right; exact Hb.
Qed.

Lemma existsb_never {A} (l : list A) : existsb (fun _ => false) l = false.
Proof. induction l; [reflexivity | exact IHl]. Qed.

Lemma roadBefore_split pre r rest :
  StronglySorted firstLt (pre ++ r :: rest) ->
  roadBefore (pre ++ r :: rest) r = existsb (isClass enumRoad) pre.
Proof.
  intros HS. unfold roadBefore. rewrite existsb_app.
  apply StronglySorted_app in HS as (H12 & _ & H2).
  apply StronglySorted_cons in H2 as [Hr _].
  rewrite List.Forall_forall in Hr.
  rewrite (existsb_agree _ (isClass enumRoad) pre).
  - rewrite (existsb_agree _ (fun _ => false) (r :: rest)).
    + rewrite existsb_never. apply orb_false_r.
    + intros q [<- | Hq].
      * rewrite Nat.ltb_irrefl. apply andb_false_r.
      * specialize (Hr q Hq). unfold firstLt in Hr.
        replace (rfirst q <? rfirst r)%nat with false
          by (symmetry; apply Nat.ltb_ge; lia).
        apply andb_false_r.
  - intros q Hq.
    assert (firstLt q r) as Hlt.
    { apply H12; [apply list_elem_of_In; exact Hq | left]. }
    unfold firstLt in Hlt.
    replace (rfirst q <? rfirst r)%nat with true
      by (symmetry; apply Nat.ltb_lt; lia).
    apply andb_true_r.
Qed.

Lemma emitBridges_roadBefore cur :
  forall pre post,
    StronglySorted firstLt (pre ++ cur ++ post) ->
    emitBridges (existsb (isClass enumRoad) pre) cur =
    List.filter
      (fun r => isClass enumBridge r && roadBefore (pre ++ cur ++ post) r) cur.
Proof.
  induction cur as [|r cur IH]; intros pre post HS; [reflexivity|].
  cbn [emitBridges List.filter].
  change ((r :: cur) ++ post) with (r :: (cur ++ post)) in *.
  rewrite (roadBefore_split pre r (cur ++ post) HS).
  assert (HS' : StronglySorted firstLt ((pre ++ [r]) ++ cur ++ post)).
  { rewrite <- app_assoc. exact HS. }
  specialize (IH (pre ++ [r]) post HS').
  rewrite existsb_app in IH. cbn [existsb] in IH.
  rewrite orb_false_r, <- app_assoc in IH. cbn [app] in IH.
  destruct (isClass enumBridge r) eqn:Hb.
  - assert (isClass enumRoad r = false) as Hnr.
    { unfold isClass in *. apply Z.eqb_eq in Hb. rewrite Hb. reflexivity. }
    rewrite Hnr, orb_false_r in IH. cbn [andb].
    destruct (existsb (isClass enumRoad) pre); rewrite IH; reflexivity.
  - cbn [andb]. exact IH.
Qed.

Lemma emitBridges_closed c l :
  let rs := runsFrom 0 0 c l in
  emitBridges false (removelast rs) =
  List.filter (fun r => isClass enumBridge r && roadBefore rs r)
    (removelast rs).
Proof.
  cbn zeta.
  pose proof (runsFrom_nonempty 0 0 c l) as Hne.
  pose proof (runsFrom_sorted 0 0 c l (Nat.le_refl 0)) as HS.
  rewrite (app_removelast_last noRun Hne) in HS.
  pose proof (emitBridges_roadBefore (removelast (runsFrom 0 0 c l)) []
                [List.last (runsFrom 0 0 c l) noRun] HS) as H.
  cbn [existsb app] in H.
  rewrite <- (app_removelast_last noRun Hne) in H. exact H.
Qed.

End classifier_facts.

(** ** The rasterizer never plots a point twice *)
Module line_facts.
Import line.

Lemma stepLoop_X n : forall x y sy,
  Forall (fun p => x <= image.X p) (stepLoop n x y 1 sy) /\
  List.NoDup (stepLoop n x y 1 sy).
Proof.
  induction n as [|n IH]; intros x y sy; cbn [stepLoop].
  - split; [repeat constructor; simpl; lia |].
    constructor; [intros [] | constructor].
  - destruct (IH (x + 1) (y + sy) sy) as [HF HN]. split.
    + constructor; [simpl; lia |].
      eapply List.Forall_impl; [|exact HF]. simpl; intros; lia.
    + constructor; [|exact HN]. intros Hin.
      rewrite List.Forall_forall in HF. specialize (HF _ Hin). simpl in HF. lia.
Qed.

Lemma stepLoop_Y n : forall x y,
  Forall (fun p => y <= image.Y p) (stepLoop n x y 0 1) /\
  List.NoDup (stepLoop n x y 0 1).
Proof.
  induction n as [|n IH]; intros x y; cbn [stepLoop].
  - split; [repeat constructor; simpl; lia |].
    constructor; [intros [] | constructor].
  - destruct (IH (x + 0) (y + 1)) as [HF HN]. split.
    + constructor; [simpl; lia |].
      eapply List.Forall_impl; [|exact HF]. simpl; intros; lia.
    + constructor; [|exact HN]. intros Hin.
      rewrite List.Forall_forall in HF. specialize (HF _ Hin). simpl in HF. lia.
Qed.

Lemma wideLoop_X n : forall x1 y1 e dy slope sy x2 y2,
  x2 = x1 + Z.of_nat n ->
  Forall (fun p => x1 <= image.X p) (wideLoop n x1 y1 e dy slope sy x2 y2) /\
  List.NoDup (wideLoop n x1 y1 e dy slope sy x2 y2).
Proof.
  induction n as [|n IH]; intros x1 y1 e dy slope sy x2 y2 Hx; cbn [wideLoop].
  - split; [repeat constructor; simpl; lia |].
    constructor; [intros [] | constructor].
  - cbn zeta.
    assert (Hx' : x2 = x1 + 1 + Z.of_nat n) by lia.
    destruct (e - dy <? 0);
      match goal with |- context [wideLoop n ?a ?b ?c ?d ?f ?g ?h ?i] =>
        destruct (IH a b c d f g h i Hx') as [HF HN] end;
      (split;
       [ constructor; [simpl; lia |];
         eapply List.Forall_impl; [|exact HF]; simpl; intros; lia
       | constructor; [|exact HN]; intros Hin;
         rewrite List.Forall_forall in HF; specialize (HF _ Hin);
         simpl in HF; lia ]).
Qed.

Lemma highLoop_Y n : forall x1 y1 e dx slope sy x2 y2,
  sy = 1 \/ sy = -1 ->
  y2 = y1 + sy * Z.of_nat n ->
  Forall (fun p => 0 <= sy * (image.Y p - y1))
    (highLoop n x1 y1 e dx slope sy x2 y2) /\
  List.NoDup (highLoop n x1 y1 e dx slope sy x2 y2).
Proof.
  induction n as [|n IH]; intros x1 y1 e dx slope sy x2 y2 Hsy Hy;
    cbn [highLoop].
  - split; [repeat constructor; simpl; destruct Hsy; subst; lia |].
    constructor; [intros [] | constructor].
  - cbn zeta.
    assert (Hy' : y2 = y1 + sy + sy * Z.of_nat n) by (destruct Hsy; subst; lia).
    destruct (e - dx <? 0);
      match goal with |- context [highLoop n ?a ?b ?c ?d ?f ?g ?h ?i] =>
        destruct (IH a b c d f g h i Hsy Hy') as [HF HN] end;
      (split;
       [ constructor; [simpl; destruct Hsy; subst; lia |];
         eapply List.Forall_impl; [|exact HF]; simpl; intros;
         destruct Hsy; subst; lia
       | constructor; [|exact HN]; intros Hin;
         rewrite List.Forall_forall in HF; specialize (HF _ Hin);
         simpl in HF; destruct Hsy; subst; lia ]).
Qed.

Lemma bresenham_NoDup x1 y1 x2 y2 : List.NoDup (bresenham x1 y1 x2 y2).
Proof.
  unfold bresenham.
  destruct (x2 <? x1) eqn:Hsw;
    [apply Z.ltb_lt in Hsw | apply Z.ltb_ge in Hsw];
  cbn zeta;
  repeat match goal with
  | |- List.NoDup (if ?b then _ else _) =>
      let H := fresh "H" in destruct b eqn:H
  | |- List.NoDup (let _ := _ in _) => cbn zeta
  end;
  try (constructor; [intros [] | constructor]);
  try apply stepLoop_X; try apply stepLoop_Y;
  rewrite ?andb_true_iff, ?andb_false_iff, ?Z.ltb_lt, ?Z.ltb_ge,
    ?Z.eqb_eq, ?Z.eqb_neq in *;
  try (apply wideLoop_X; lia);
  match goal with
  | |- context [if ?c <? 0 then _ else _] =>
      let H := fresh "H" in
      destruct (c <? 0) eqn:H;
        [apply Z.ltb_lt in H | apply Z.ltb_ge in H];
        apply highLoop_Y; lia
  end.
Qed.

Lemma PointsBetween_NoDup a b : List.NoDup (PointsBetween a b).
Proof. apply bresenham_NoDup. Qed.

Lemma PointsBetween_nonempty a b : PointsBetween a b <> [].
Proof.
  unfold PointsBetween, bresenham.
  repeat match goal with
  | |- context [if ?c then _ else _] => destruct c
  | |- context [let '(_, _) := ?p in _] => destruct p
  end; cbn zeta;
  repeat match goal with
  | |- context [if ?c then _ else _] => destruct c
  end;
  match goal with
  | |- context [stepLoop ?n _ _ _ _] => destruct n; discriminate
  | |- context [wideLoop ?n _ _ _ _ _ _ _ _] => destruct n; discriminate
  | |- context [highLoop ?n _ _ _ _ _ _ _ _] => destruct n; discriminate
  | |- _ => discriminate
  end.
Qed.

End line_facts.

(** ** The line classifier: the stated properties *)
Module classifier_claims.
Import classifier classifier_facts.

Lemma map_nth_seq {A} (d : A) (l : list A) :
  map (fun i => nth i l d) (seq 0 (length l)) = l.
Proof.
  induction l as [|a l IH]; [reflexivity|].
  cbn [length seq map nth]. f_equal.
  rewrite <- seq_shift, map_map. exact IH.
Qed.

(** The runs, put end to end, are the path. *)
Lemma runsOf_partition (path : list Point) (cl : list Z) :
  length cl = length path ->
  concat (map (pointsOf path) (runsOf cl)) = path.
Proof.
  intros Hlen. unfold pointsOf.
  rewrite <- (map_map indicesOf (map (fun i => nth i path image.ZP))).
  rewrite <- concat_map.
  destruct cl as [|c l]; cbn [runsOf].
  - destruct path; [reflexivity | discriminate].
  - rewrite runsFrom_indices by lia.
    replace (S (0 - 0) + length l)%nat with (length path)
      by (cbn [length] in Hlen; lia).
    apply map_nth_seq.
Qed.

Lemma runsOf_class (cl : list Z) :
  Forall (fun r => forall i, (rfirst r <= i <= rlast r)%nat ->
                             nth i cl enumNothing = rclass r) (runsOf cl).
Proof.
  destruct cl as [|c l]; [constructor|]. cbn [runsOf].
  apply runsFrom_class; [lia | | reflexivity].
  intros i Hi. assert (i = 0%nat) as -> by lia. reflexivity.
Qed.

Lemma runsOf_chained cl : chained (runsOf cl).
Proof. destruct cl; [exact I | apply runsFrom_chained]. Qed.

Lemma runsOf_sorted cl : StronglySorted firstLt (runsOf cl).
Proof. destruct cl; [constructor | apply runsFrom_sorted; lia]. Qed.

Lemma runsOf_bounds cl :
  Forall (fun r => (rfirst r <= rlast r < length cl)%nat) (runsOf cl).
Proof.
  destruct cl as [|c l]; [constructor|]. cbn [runsOf length].
  eapply List.Forall_impl; [|apply (runsFrom_bounds 0 0 c l); lia].
  cbn beta. intros r; lia.
Qed.

(** In a strictly ordered list a run is known by its first index. *)
Lemma sorted_first_inj rs a b :
  StronglySorted firstLt rs -> In a rs -> In b rs ->
  rfirst a = rfirst b -> a = b.
Proof.
  induction 1 as [|x l HS IH HF]; intros Ha Hb Heq; [destruct Ha|].
  rewrite List.Forall_forall in HF. unfold firstLt in HF.
  destruct Ha as [<-|Ha], Hb as [<-|Hb]; auto.
  - specialize (HF b Hb). lia.
  - specialize (HF a Ha). lia.
Qed.

(** The three lists [lineSegments] returns, by the runs of the path. *)
Lemma lineSegments_by_runs cmap outline start end_ site :
  let path := line.PointsBetween start end_ in
  let rs := runsOf (map (classifyPoint cmap outline site) path) in
  lineSegments cmap outline start end_ site =
  (map (segOf path) (List.filter (isClass enumRoad) (removelast rs))
     ++ finalSeg path rs enumRoad,
   map (segOf path)
     (List.filter (fun r => isClass enumBridge r && roadBefore rs r)
        (removelast rs))
     ++ finalSeg path rs enumBridge,
   map (segOf path) (List.filter (isClass enumWall) (removelast rs))
     ++ finalSeg path rs enumWall).
Proof.
  cbn zeta. unfold lineSegments. rewrite lineSegmentsOn_runs. cbn zeta.
  destruct (map (classifyPoint cmap outline site)
              (line.PointsBetween start end_)) as [|c l] eqn:Hcl;
    [reflexivity|].
  cbn [runsOf]. rewrite (emitBridges_closed c l). reflexivity.
Qed.

Lemma finalSeg_cases path rs c :
  finalSeg path rs c = [] \/
  (finalSeg path rs c = [segOf path (List.last rs noRun)] /\
   rclass (List.last rs noRun) = c /\ rs <> []).
Proof.
  unfold finalSeg. destruct rs as [|r0 rs0]; [left; reflexivity|].
  destruct (isClass c (List.last (r0 :: rs0) noRun)) eqn:Hc; cbn [andb];
    [|left; reflexivity].
  destruct (negb _); [|left; reflexivity].
  right. repeat split; [|discriminate].
  unfold isClass in Hc. apply Z.eqb_eq in Hc. exact Hc.
Qed.

(** C1. For every spatial map, outline, optional containing cell and
    point, the classification that [lineSegments] computes for the point
    follows this order: outside a given containing cell, nothing; else a
    nonzero building id, nothing; else a fortification on the map, wall;
    else buildable, road; else bridgeable, bridge; else nothing.  The
    loop of [lineSegments] applies it to every point of the rasterized
    path. *)
Theorem classifyPoint_priority (cmap : citymap.imageMap) (outline : Outline)
    (site : option voronoi.Site) (p : Point) :
  let x := image.X p in
  let y := image.Y p in
  let outsideCell :=
    match site with
    | Some s => voronoi.Contains s x y = false
    | None => False
    end in
  let building := fst (citymap.BuildingID cmap x y) <> 0 in
  let fort := citymap.isFortification cmap x y in
  let me := classifyPoint cmap outline site p in
  (outsideCell -> me = enumNothing) /\
  (~ outsideCell -> building -> me = enumNothing) /\
  (~ outsideCell -> ~ building -> fort = true -> me = enumWall) /\
  (~ outsideCell -> ~ building -> fort = false ->
   CanBuildOn outline x y = true -> me = enumRoad) /\
  (~ outsideCell -> ~ building -> fort = false ->
   CanBuildOn outline x y = false -> CanBridgeOver outline x y = true ->
   me = enumBridge) /\
  (~ outsideCell -> ~ building -> fort = false ->
   CanBuildOn outline x y = false -> CanBridgeOver outline x y = false ->
   me = enumNothing) /\
  (forall start end_,
     lineSegments cmap outline start end_ site =
     flush (line.PointsBetween start end_)
       (fold_left
          (fun st ip => step (line.PointsBetween start end_)
                          (classifyPoint cmap outline site ip.2)
                          (Z.of_nat ip.1) st)
          (combine (seq 0 (length (line.PointsBetween start end_)))
             (line.PointsBetween start end_))
          (mkState (-1) (-1) [] [] []))).
Proof.
  cbn zeta.
  assert (Hloop : forall classify path rest (k : nat) st,
             loop classify path rest (Z.of_nat k) st =
             fold_left (fun st ip => step path (classify ip.2) (Z.of_nat ip.1) st)
               (combine (seq k (length rest)) rest) st).
  { intros classify path rest. induction rest as [|q rest IH]; intros k st.
    - reflexivity.
    - cbn [loop length seq combine fold_left fst snd].
      replace (Z.of_nat k + 1) with (Z.of_nat (S k)) by lia. apply IH. }
  assert (Hlast : forall start end_,
             lineSegments cmap outline start end_ site =
             flush (line.PointsBetween start end_)
               (fold_left
                  (fun st ip => step (line.PointsBetween start end_)
                                  (classifyPoint cmap outline site ip.2)
                                  (Z.of_nat ip.1) st)
                  (combine (seq 0 (length (line.PointsBetween start end_)))
                     (line.PointsBetween start end_))
                  (mkState (-1) (-1) [] [] []))).
  { intros start end_. unfold lineSegments, lineSegmentsOn.
    f_equal. apply (Hloop _ _ _ 0%nat). }
  refine (conj _ (conj _ (conj _ (conj _ (conj _ (conj _ Hlast))))));
    clear Hloop Hlast; unfold classifyPoint;
    (destruct site as [s|];
     [destruct (voronoi.Contains s (image.X p) (image.Y p)) eqn:Hc|]);
    cbn [negb];
    destruct (fst (citymap.BuildingID cmap (image.X p) (image.Y p)) =? 0)
      eqn:Hb; cbn [negb];
    first [apply Z.eqb_eq in Hb | apply Z.eqb_neq in Hb];
    destruct (citymap.isFortification cmap (image.X p) (image.Y p));
    destruct (CanBuildOn outline (image.X p) (image.Y p));
    destruct (CanBridgeOver outline (image.X p) (image.Y p));
    intros; try reflexivity; try congruence; try contradiction.
Qed.

(** C2 (as amended). The maximal runs of equal classification partition
    the rasterized path: put end to end they are the path, every index
    of a run carries the run's classification, and consecutive runs
    touch and differ in classification.  [lineSegments] returns, in
    path order, the (first point, last point) pair of every road run
    and every wall run that is followed by another run, and of every
    such bridge run that has a road run before it; nothing runs are
    never returned.  The last run of the path adds at most one
    sub-segment, its own, to the list of its classification. *)
Theorem lineSegments_runs_cover (cmap : citymap.imageMap) (outline : Outline)
    (start end_ : Point) (site : option voronoi.Site) :
  let path := line.PointsBetween start end_ in
  let cl := map (classifyPoint cmap outline site) path in
  let rs := runsOf cl in
  let closed := removelast rs in
  concat (map (pointsOf path) rs) = path /\
  Forall (fun r => forall i, (rfirst r <= i <= rlast r)%nat ->
                             nth i cl enumNothing = rclass r) rs /\
  chained rs /\
  exists fr fb fw : list Segment,
    lineSegments cmap outline start end_ site =
    (map (segOf path) (List.filter (isClass enumRoad) closed) ++ fr,
     map (segOf path)
       (List.filter (fun r => isClass enumBridge r && roadBefore rs r) closed)
       ++ fb,
     map (segOf path) (List.filter (isClass enumWall) closed) ++ fw) /\
    Forall (fun cf : Z * list Segment =>
              cf.2 = [] \/
              (cf.2 = [segOf path (List.last rs noRun)] /\
               rclass (List.last rs noRun) = cf.1))
      [(enumRoad, fr); (enumBridge, fb); (enumWall, fw)].
Proof.
  cbn zeta. repeat split.
  - apply runsOf_partition. apply length_map.
  - apply runsOf_class.
  - apply runsOf_chained.
  - eexists _, _, _. split; [apply lineSegments_by_runs|].
    constructor; [|constructor; [|constructor; [|constructor]]];
      cbn [fst snd];
      match goal with |- finalSeg ?p ?r ?c = [] \/ _ =>
        destruct (finalSeg_cases p r c) as [H | (H1 & H2 & _)]; auto end.
Qed.

(** C2, the claim as stated, fails: on the path (0,0)..(2,0) with water
    at x = 0 and land after it, the first point is classified bridge and
    no bridge sub-segment is returned. *)
Lemma lineSegments_leading_bridge_uncovered :
  ~ covers (line.PointsBetween (Pt 0 0) (Pt 2 0))
      (map (classifyPoint samples.map10 samples.shore None)
         (line.PointsBetween (Pt 0 0) (Pt 2 0)))
      (lineSegments samples.map10 samples.shore (Pt 0 0) (Pt 2 0) None).
Proof.
  intros H.
  assert (H0 := H 0%nat ltac:(vm_compute; lia)).
  vm_compute in H0.
  destruct H0 as [H0 | (a & b & _ & [])]. discriminate H0.
Qed.

(** C3 (as amended). A bridge run that is followed by another run is
    returned as a bridge sub-segment exactly when a road run lies before
    it on the path, wherever the run begins; so such a run that begins
    at the first point of the path is never returned. *)
Theorem bridge_run_needs_road_before (cmap : citymap.imageMap)
    (outline : Outline) (start end_ : Point) (site : option voronoi.Site)
    (r : Run) :
  let path := line.PointsBetween start end_ in
  let rs := runsOf (map (classifyPoint cmap outline site) path) in
  In r (removelast rs) ->
  rclass r = enumBridge ->
  (In (segOf path r) (lineSegments cmap outline start end_ site).1.2 <->
   roadBefore rs r = true) /\
  (rfirst r = 0%nat ->
   ~ In (segOf path r) (lineSegments cmap outline start end_ site).1.2).
Proof.
  cbn zeta. intros Hr Hb.
  set (path := line.PointsBetween start end_) in *.
  set (cl := map (classifyPoint cmap outline site) path) in *.
  set (rs := runsOf cl) in *.
  assert (Hne : rs <> []) by (intros E; rewrite E in Hr; destruct Hr).
  pose proof (runsOf_sorted cl) as HS. fold rs in HS.
  pose proof (runsOf_bounds cl) as HB. fold rs in HB.
  rewrite List.Forall_forall in HB.
  assert (Hlen : length cl = length path) by apply length_map.
  pose proof (app_removelast_last noRun Hne) as Hsplit.
  assert (Hrs : In r rs).
  { rewrite Hsplit. apply in_or_app. left; exact Hr. }
  assert (Hlast : In (List.last rs noRun) rs).
  { rewrite Hsplit at 2. apply in_or_app. right; left; reflexivity. }
  assert (Hlt : (rfirst r < rfirst (List.last rs noRun))%nat).
  { rewrite Hsplit in HS. apply StronglySorted_app in HS as (H12 & _ & _).
    apply H12; [apply list_elem_of_In; exact Hr | left]. }
  assert (Hinj : forall q, In q rs -> segOf path q = segOf path r -> q = r).
  { intros q Hq Hseg. apply (sorted_first_inj rs q r HS Hq Hrs).
    unfold segOf in Hseg. injection Hseg as Hf _.
    pose proof (HB q Hq). pose proof (HB r Hrs).
    apply (proj1 (NoDup_nth path image.ZP)
             (line_facts.PointsBetween_NoDup start end_)); [lia | lia | exact Hf]. }
  assert (Hiff : In (segOf path r)
                   (lineSegments cmap outline start end_ site).1.2 <->
                 roadBefore rs r = true).
  { rewrite (lineSegments_by_runs cmap outline start end_ site).
    cbn zeta. fold path cl rs. cbn [fst snd]. split.
    - intros Hin. apply in_app_or in Hin as [Hin | Hin].
      + apply in_map_iff in Hin as (q & Hseg & Hq).
        apply filter_In in Hq as [Hq HP].
        assert (In q rs) as Hqrs
            by (rewrite Hsplit; apply in_or_app; left; exact Hq).
        rewrite (Hinj q Hqrs Hseg) in HP.
        apply andb_true_iff in HP as [_ HP]. exact HP.
      + destruct (finalSeg_cases path rs enumBridge) as [E | (E & _ & _)];
          rewrite E in Hin; [destruct Hin|].
        destruct Hin as [Hin | []].
        pose proof (Hinj _ Hlast Hin) as Heq. rewrite Heq in Hlt. lia.
    - intros HP. apply in_or_app. left. apply in_map.
      apply filter_In. split; [exact Hr|].
      unfold isClass. rewrite Hb, HP. reflexivity. }
  split; [exact Hiff|].
  intros H0 Hin. apply Hiff in Hin.
  unfold roadBefore in Hin. apply existsb_exists in Hin as (q & _ & Hq).
  apply andb_true_iff in Hq as [_ Hq]. apply Nat.ltb_lt in Hq. lia.
Qed.

(** An instance of C3: on the path (0,0)..(4,0) with land at x = 0, water
    at x = 1 and x = 2 and land after it, the bridge run 1..2 has a road
    run before it and is returned. *)
Lemma bridge_run_needs_road_before_witness :
  (In (segOf (line.PointsBetween (Pt 0 0) (Pt 4 0)) (mkRun 1 2 enumBridge))
      (lineSegments samples.map10 samples.ford (Pt 0 0) (Pt 4 0) None).1.2 <->
   roadBefore
     (runsOf (map (classifyPoint samples.map10 samples.ford None)
                (line.PointsBetween (Pt 0 0) (Pt 4 0))))
     (mkRun 1 2 enumBridge) = true) /\
  ((1 = 0)%nat ->
   ~ In (segOf (line.PointsBetween (Pt 0 0) (Pt 4 0)) (mkRun 1 2 enumBridge))
       (lineSegments samples.map10 samples.ford (Pt 0 0) (Pt 4 0) None).1.2).
Proof.
  apply (bridge_run_needs_road_before samples.map10 samples.ford
           (Pt 0 0) (Pt 4 0) None (mkRun 1 2 enumBridge)).
  - vm_compute. right; left; reflexivity.
  - reflexivity.
Defined.

(** C3, the claim as stated, fails: on the path (0,0)..(2,0) with rock at
    x = 0, water at x = 1 and land at x = 2, the bridge run begins after
    the start of the path and is not returned. *)
Lemma bridge_run_after_start_dropped :
  ~ bridgeRule (line.PointsBetween (Pt 0 0) (Pt 2 0))
      (map (classifyPoint samples.map10 samples.cliff None)
         (line.PointsBetween (Pt 0 0) (Pt 2 0)))
      (lineSegments samples.map10 samples.cliff (Pt 0 0) (Pt 2 0) None).
Proof.
  intros H.
  destruct (H (mkRun 1 1 enumBridge)) as [_ H2].
  - vm_compute. right; left; reflexivity.
  - reflexivity.
  - assert (Hin := H2 ltac:(discriminate)). vm_compute in Hin. exact Hin.
Qed.

End classifier_claims.

(** ** The spatial map *)
Module citymap_facts.
Import citymap.

Lemma RGBA64At_Set_same m x y v :
  image.In_ (Pt x y) (Rect64 m) = true ->
  RGBA64At (SetRGBA64 m x y v) x y = v.
Proof.
  intros Hin. unfold RGBA64At, SetRGBA64. rewrite Hin. cbn [Rect64 Pix64].
  rewrite Hin, lookup_insert_eq. reflexivity.
Qed.

Lemma RGBA64At_Set_other m dx dy x y v :
  Pt dx dy <> Pt x y ->
  RGBA64At (SetRGBA64 m dx dy v) x y = RGBA64At m x y.
Proof.
  intros Hne. unfold RGBA64At, SetRGBA64.
  destruct (image.In_ (Pt dx dy) (Rect64 m)); [|reflexivity].
  cbn [Rect64 Pix64]. rewrite lookup_insert_ne by exact Hne. reflexivity.
Qed.

Lemma Rect64_Set m x y v : Rect64 (SetRGBA64 m x y v) = Rect64 m.
Proof.
  unfold SetRGBA64. destruct (image.In_ _ _); reflexivity.
Qed.

Lemma RGBA64At_outside m x y :
  image.In_ (Pt x y) (Rect64 m) = false ->
  RGBA64At m x y = mkRGBA64 0 0 0 0.
Proof. intros H. unfold RGBA64At. rewrite H. reflexivity. Qed.

(** The low byte of a merged pair is the second byte. *)
Lemma Split16_Merge8_snd a b :
  snd (encoding.Split16 (encoding.Merge8 a b)) = b mod 256.
Proof.
  unfold encoding.Split16, encoding.Merge8. cbn [snd].
  rewrite Z.shiftl_mul_pow2 by lia.
  rewrite Z.mod_mod_divide by (exists 256; reflexivity).
  change (2 ^ 8) with 256. rewrite Z.add_comm, Z_mod_plus_full. reflexivity.
Qed.

(** [setBM] replaces the flag byte, whatever it was. *)
Lemma getBM_setBM_same c x y bm :
  image.In_ (Pt x y) (Rect64 (im c)) = true ->
  getBM (setBM c x y bm) x y = bm mod 256.
Proof.
  intros Hin. unfold getBM, setBM, encoding.ToBytes8. cbn [im].
  rewrite RGBA64At_Set_same by exact Hin. cbn [A].
  rewrite Split16_Merge8_snd. unfold encoding.FromBytes8.
  apply Z.mod_mod. lia.
Qed.

Lemma getBM_setBM_other c dx dy x y bm :
  Pt dx dy <> Pt x y ->
  getBM (setBM c dx dy bm) x y = getBM c x y.
Proof.
  intros Hne. unfold getBM, setBM. cbn [im].
  rewrite RGBA64At_Set_other by exact Hne. reflexivity.
Qed.

Lemma getBM_setBM_outside c x y bm :
  image.In_ (Pt x y) (Rect64 (im c)) = false ->
  getBM (setBM c x y bm) x y = getBM c x y.
Proof.
  intros Hout. unfold getBM, setBM, SetRGBA64. cbn [im]. rewrite Hout.
  reflexivity.
Qed.

Lemma Rect64_setBM c x y bm : Rect64 (im (setBM c x y bm)) = Rect64 (im c).
Proof. unfold setBM. cbn [im]. apply Rect64_Set. Qed.

Lemma getBM_outside c x y :
  image.In_ (Pt x y) (Rect64 (im c)) = false -> getBM c x y = 0.
Proof.
  intros H. unfold getBM. rewrite RGBA64At_outside by exact H. reflexivity.
Qed.

(** The byte that [endDraw] commits at a pixel, if it commits one. *)
Lemma endDrawPixel_cases w outline temp dx dy c :
  endDrawPixel w outline temp dx dy c = c \/
  exists bm, endDrawPixel w outline temp dx dy c = setBM c dx dy bm /\
             exclusiveByte (bm mod 256).
Proof.
  unfold endDrawPixel.
  destruct (RGBA_ (At temp dx dy)) as [[[r g] b] a].
  destruct ((Z.shiftr r 8 =? 0) && (Z.shiftr g 8 =? 0) && (Z.shiftr b 8 =? 0)).
  - destruct ((CanBuildOn outline dx dy || CanBridgeOver outline dx dy) &&
              nearbyFortifications dx dy w temp); [|left; reflexivity].
    right. eexists; split; [reflexivity|].
    destruct (CanBridgeOver outline dx dy); vm_compute; auto.
  - right. eexists; split; [reflexivity|].
    destruct (0 <? Z.shiftr g 8), (150 <=? Z.shiftr b 8),
      (100 <=? Z.shiftr b 8), (50 <=? Z.shiftr b 8), (0 <? Z.shiftr r 8);
      vm_compute; auto.
Qed.

Lemma exclusiveAt_byte c x y :
  exclusiveByte (getBM c x y) -> exclusiveAt c x y.
Proof.
  unfold exclusiveByte, exclusiveAt, IsWall, IsTower, IsGatehouse.
  destruct (isOutOfBounds c x y); [cbn; auto | auto].
Qed.

Lemma exclusiveByte_zero : exclusiveByte 0.
Proof. vm_compute. auto. Qed.

(** One step of [endDraw] keeps the flags at x,y exclusive. *)
Lemma endDrawPixel_exclusive w outline temp dx dy c x y :
  exclusiveAt c x y -> exclusiveAt (endDrawPixel w outline temp dx dy c) x y.
Proof.
  intros H.
  destruct (endDrawPixel_cases w outline temp dx dy c) as [-> | (bm & -> & Hbm)];
    [exact H|].
  destruct (decide (Pt dx dy = Pt x y)) as [Heq | Hne].
  - injection Heq as -> ->.
    destruct (image.In_ (Pt x y) (Rect64 (im c))) eqn:Hin.
    + apply exclusiveAt_byte. rewrite getBM_setBM_same by exact Hin. exact Hbm.
    + apply exclusiveAt_byte. rewrite getBM_setBM_outside by exact Hin.
      rewrite getBM_outside by exact Hin. exact exclusiveByte_zero.
  - unfold exclusiveAt, IsWall, IsTower, IsGatehouse, isOutOfBounds in *.
    rewrite Rect64_setBM, getBM_setBM_other by exact Hne. exact H.
Qed.

Lemma fold_exclusive {B} (f : imageMap -> B -> imageMap) (l : list B) x y :
  (forall c b, exclusiveAt c x y -> exclusiveAt (f c b) x y) ->
  forall c, exclusiveAt c x y -> exclusiveAt (fold_left f l c) x y.
Proof.
  intros Hf. induction l as [|b l IH]; intros c Hc; [exact Hc|].
  cbn [fold_left]. apply IH, Hf, Hc.
Qed.

Lemma newMap_exclusive bounds drawn x y :
  exclusiveAt (sketched bounds drawn) x y.
Proof.
  apply exclusiveAt_byte. unfold getBM, sketched, newMap, RGBA64At.
  cbn [im Rect64 Pix64]. rewrite lookup_empty.
  destruct (image.In_ _ _); exact exclusiveByte_zero.
Qed.

(** C10. [endDraw] keeps the wall, tower and gatehouse flags exclusive:
    at a coordinate where at most one of the three was set before, as
    on every map that has only been sketched on, at most one is set
    afterwards.  The three thresholds are branches of one conditional,
    and [setBM] overwrites the flag byte. *)
Theorem endDraw_flags_exclusive (w : Z) (outline : Outline) (c : imageMap)
    (x y : Z) :
  exclusiveAt c x y -> exclusiveAt (endDraw w outline c) x y.
Proof.
  intros H. unfold endDraw.
  apply fold_exclusive; [|exact H].
  intros c1 dy H1. apply fold_exclusive; [|exact H1].
  intros c2 dx H2. apply endDrawPixel_exclusive. exact H2.
Qed.

(** An instance of C10: the sketched tower pixel becomes a tower and
    nothing else. *)
Lemma endDraw_flags_exclusive_witness :
  exclusiveAt (endDraw 2 samples.shore samples.towerSketch) 3 3.
Proof.
  apply (endDraw_flags_exclusive 2 samples.shore samples.towerSketch 3 3).
  vm_compute. auto.
Defined.

Example endDraw_tower_pixel :
  IsTower (endDraw 2 samples.shore samples.towerSketch) 3 3 = true /\
  IsWall (endDraw 2 samples.shore samples.towerSketch) 3 3 = false /\
  IsGatehouse (endDraw 2 samples.shore samples.towerSketch) 3 3 = false /\
  IsRoad (endDraw 2 samples.shore samples.towerSketch) 4 3 = true.
Proof. vm_compute. auto. Qed.

(** The other writers of the packed image leave the flag byte alone. *)
Lemma getBM_setDistrict c dx dy typ id x y :
  getBM (setDistrict c dx dy typ id) x y = getBM c x y.
Proof.
  unfold getBM, setDistrict, encoding.ToBytes8. cbn [im].
  destruct (decide (Pt dx dy = Pt x y)) as [Heq | Hne].
  - injection Heq as -> ->.
    destruct (image.In_ (Pt x y) (Rect64 (im c))) eqn:Hin.
    + rewrite RGBA64At_Set_same by exact Hin. cbn [A].
      rewrite Split16_Merge8_snd. unfold encoding.Split16. cbn [snd].
      apply Z.mod_mod. lia.
    + unfold SetRGBA64. rewrite Hin. reflexivity.
  - rewrite RGBA64At_Set_other by exact Hne. reflexivity.
Qed.

Lemma getBM_setBuildingID c dx dy id x y :
  getBM (setBuildingID c dx dy id) x y = getBM c x y.
Proof.
  unfold getBM, setBuildingID, encoding.ToBytes8.
  destruct (encoding.Split32 (id mod 4294967296)) as [g b]. cbn [im].
  destruct (decide (Pt dx dy = Pt x y)) as [Heq | Hne].
  - injection Heq as -> ->.
    destruct (image.In_ (Pt x y) (Rect64 (im c))) eqn:Hin.
    + rewrite RGBA64At_Set_same by exact Hin. reflexivity.
    + unfold SetRGBA64. rewrite Hin. reflexivity.
  - rewrite RGBA64At_Set_other by exact Hne. reflexivity.
Qed.

(** Outside the rectangle of the image every flag reads as unset. *)
Lemma flags_outside_rectangle c x y :
  image.In_ (Pt x y) (Rect64 (im c)) = false ->
  IsRoad c x y = false /\ IsBridge c x y = false /\ IsWall c x y = false /\
  IsTower c x y = false /\ IsGatehouse c x y = false.
Proof.
  intros H. unfold IsRoad, IsBridge, IsWall, IsTower, IsGatehouse.
  rewrite (getBM_outside c x y H).
  destruct (isOutOfBounds c x y); repeat split; reflexivity.
Qed.

(** C8 (as amended). At every coordinate that [isOutOfBounds] turns
    down, [IsRoad], [IsBridge], [IsWall], [IsTower] and [IsGatehouse]
    return false, and [District] and [BuildingID] return the
    out-of-bounds error together with the placeholders (Empty, -1) and
    -1. *)
Theorem out_of_bounds_reads (c : imageMap) (x y : Z) :
  isOutOfBounds c x y = true ->
  IsRoad c x y = false /\ IsBridge c x y = false /\ IsWall c x y = false /\
  IsTower c x y = false /\ IsGatehouse c x y = false /\
  District c x y = (Empty, -1, Some (ErrOutOfBounds x y)) /\
  BuildingID c x y = (-1, Some (ErrOutOfBounds x y)).
Proof.
  intros H.
  unfold IsRoad, IsBridge, IsWall, IsTower, IsGatehouse, District, BuildingID.
  rewrite H. repeat split; reflexivity.
Qed.

Lemma out_of_bounds_reads_witness :
  IsRoad samples.map10 (-1) 0 = false /\
  IsBridge samples.map10 (-1) 0 = false /\
  IsWall samples.map10 (-1) 0 = false /\
  IsTower samples.map10 (-1) 0 = false /\
  IsGatehouse samples.map10 (-1) 0 = false /\
  District samples.map10 (-1) 0 = (Empty, -1, Some (ErrOutOfBounds (-1) 0)) /\
  BuildingID samples.map10 (-1) 0 = (-1, Some (ErrOutOfBounds (-1) 0)).
Proof.
  apply (out_of_bounds_reads samples.map10 (-1) 0). reflexivity.
Defined.

(** C8, the claim as stated, fails: left of the map [BuildingID] and
    [District] return an error. *)
Lemma out_of_bounds_reads_are_errors :
  snd (BuildingID samples.map10 (-1) 0) <> None /\
  snd (District samples.map10 (-1) 0) <> None.
Proof. split; discriminate. Qed.

End citymap_facts.

(** ** The boundary extractor *)
Module cell_facts.
Import cell.

Lemma fold_left_concat {A B C} (f : A -> C -> A) (g : B -> list C) l :
  forall a,
    fold_left (fun a b => fold_left f (g b) a) l a =
    fold_left f (concat (map g l)) a.
Proof.
  induction l as [|b l IH]; intros a; [reflexivity|].
  cbn [fold_left map concat]. rewrite fold_left_app. apply IH.
Qed.

Lemma toEdgeID_sym a b : toEdgeID a b = toEdgeID b a.
Proof.
  destruct a as [ax ay], b as [bx by_]. unfold toEdgeID. cbn [image.X image.Y].
  destruct (Z.ltb_spec bx ax), (Z.ltb_spec ax bx),
    (Z.eqb_spec ax bx), (Z.eqb_spec bx ax),
    (Z.ltb_spec by_ ay), (Z.ltb_spec ay by_);
    cbn [andb]; try lia; try reflexivity.
  assert (ax = bx) as -> by lia. assert (ay = by_) as -> by lia. reflexivity.
Qed.

Lemma toEdgeID_cases a b : toEdgeID a b = (a, b) \/ toEdgeID a b = (b, a).
Proof.
  unfold toEdgeID. destruct (_ <? _); [right; reflexivity|].
  destruct (_ && _); [right | left]; reflexivity.
Qed.

(** Two pairs have the same key exactly when they are the same edge in
    one of its two directions. *)
Lemma toEdgeID_eq_iff a b v n :
  toEdgeID a b = toEdgeID v n <-> (a, b) = (v, n) \/ (a, b) = (n, v).
Proof.
  split.
  - intros H.
    destruct (toEdgeID_cases a b) as [Ha | Ha],
             (toEdgeID_cases v n) as [Hv | Hv];
      rewrite Ha, Hv in H; injection H as -> ->; auto.
  - intros [H | H]; injection H as -> ->; [reflexivity | apply toEdgeID_sym].
Qed.

(** *** The two lookup sets *)

Lemma getb_insert_true `{Countable K} (m : gmap K bool) (k k' : K) :
  getb (<[k := true]> m) k' = bool_decide (k = k') || getb m k'.
Proof.
  unfold getb. destruct (decide (k = k')) as [->|Hne].
  - rewrite lookup_insert_eq, bool_decide_eq_true_2 by reflexivity. reflexivity.
  - rewrite lookup_insert_ne, bool_decide_eq_false_2 by exact Hne. reflexivity.
Qed.

Lemma ownedOutside_flat outside :
  ownedOutside outside = fold_left ownStep (edgesOf outside) (∅, ∅).
Proof. unfold ownedOutside, edgesOf. apply fold_left_concat. Qed.

Lemma own_vertices l : forall acc p,
  getb (fold_left ownStep l acc).2 p = true <->
  getb acc.2 p = true \/ exists e, e ∈ l /\ (p = e.1 \/ p = e.2).
Proof.
  induction l as [|e l IH]; intros [eo vo] p; cbn [fold_left].
  - split; [auto|]. intros [H | (e & He & _)]; [exact H|].
    apply elem_of_nil in He. destruct He.
  - rewrite IH. cbn [ownStep snd]. rewrite !getb_insert_true.
    rewrite !orb_true_iff, !bool_decide_eq_true. split.
    + intros [[H | [H | H]] | (e' & He' & Hp)].
      * right. exists e. split; [left | auto].
      * right. exists e. split; [left | auto].
      * left; exact H.
      * right. exists e'. split; [right; exact He' | exact Hp].
    + intros [H | (e' & He' & Hp)]; [auto|].
      apply elem_of_cons in He' as [-> | He'].
      * left. destruct Hp as [-> | ->]; auto.
      * right. exists e'. auto.
Qed.

Lemma own_edges l : forall acc k,
  getb (fold_left ownStep l acc).1 k = true <->
  getb acc.1 k = true \/ exists e, e ∈ l /\ toEdgeID e.1 e.2 = k.
Proof.
  induction l as [|e l IH]; intros [eo vo] k; cbn [fold_left].
  - split; [auto|]. intros [H | (e & He & _)]; [exact H|].
    apply elem_of_nil in He. destruct He.
  - rewrite IH. cbn [ownStep fst]. rewrite getb_insert_true.
    rewrite orb_true_iff, bool_decide_eq_true. split.
    + intros [[H | H] | (e' & He' & Hp)].
      * right. exists e. split; [left | exact H].
      * left; exact H.
      * right. exists e'. split; [right; exact He' | exact Hp].
    + intros [H | (e' & He' & Hp)]; [auto|].
      apply elem_of_cons in He' as [-> | He'].
      * left; left; exact Hp.
      * right. exists e'. auto.
Qed.

Lemma elem_of_edgesOf ss e :
  e ∈ edgesOf ss <-> exists s, s ∈ ss /\ e ∈ voronoi.Edges s.
Proof.
  unfold edgesOf. induction ss as [|s0 ss IH]; cbn [map concat].
  - split.
    + intros H. apply elem_of_nil in H. destruct H.
    + intros (s & Hs & _). apply elem_of_nil in Hs. destruct Hs.
  - rewrite elem_of_app, IH. split.
    + intros [H | (s & Hs & He)].
      * exists s0. split; [left | exact H].
      * exists s. split; [right; exact Hs | exact He].
    + intros (s & Hs & He). apply elem_of_cons in Hs as [-> | Hs].
      * left; exact He.
      * right. exists s. auto.
Qed.

Lemma vertOwnedOutside_spec outside p :
  getb (ownedOutside outside).2 p = true <-> vertexOutside outside p.
Proof.
  rewrite ownedOutside_flat, own_vertices. cbn [snd]. unfold vertexOutside. split.
  - intros [H | (e & He & Hp)]; [discriminate H|].
    apply elem_of_edgesOf in He as (s & Hs & He). exists s, e. auto.
  - intros (s & e & Hs & He & Hp). right. exists e. split; [|exact Hp].
    apply elem_of_edgesOf. exists s. auto.
Qed.

Lemma edgeOwnedOutside_spec outside v n :
  getb (ownedOutside outside).1 (toEdgeID v n) = true <->
  edgeOutside outside v n.
Proof.
  rewrite ownedOutside_flat, own_edges. cbn [fst]. unfold edgeOutside. split.
  - intros [H | (e & He & Hk)]; [discriminate H|].
    apply elem_of_edgesOf in He as (s & Hs & He). exists s. split; [exact Hs|].
    destruct e as [a b]. cbn [fst snd] in Hk.
    apply toEdgeID_eq_iff in Hk as [Hk | Hk]; injection Hk as -> ->; auto.
  - intros (s & Hs & [He | He]); right.
    + exists (v, n). split; [apply elem_of_edgesOf; exists s; auto | reflexivity].
    + exists (n, v). split; [apply elem_of_edgesOf; exists s; auto|].
      apply toEdgeID_sym.
Qed.

(** *** The adjacency structure *)

Lemma linkAt_setLink a b val nb v n :
  linkAt (setLink a b val nb) v n =
  if decide ((a, b) = (v, n)) then Some val else linkAt nb v n.
Proof.
  unfold linkAt, setLink.
  destruct (decide (a = v)) as [->|Hav].
  - rewrite lookup_insert_eq. cbn [mbind option_bind].
    destruct (decide (b = n)) as [->|Hbn].
    + rewrite lookup_insert_eq, decide_True by reflexivity. reflexivity.
    + rewrite lookup_insert_ne by exact Hbn.
      rewrite decide_False by congruence.
      destruct (nb !! v); [reflexivity | apply lookup_empty].
  - rewrite lookup_insert_ne by exact Hav.
    rewrite decide_False by congruence. reflexivity.
Qed.

Lemma neighboursOf_flat inside :
  neighboursOf inside = fold_left linkStep (edgesOf inside) ∅.
Proof. unfold neighboursOf, edgesOf. apply fold_left_concat. Qed.

Lemma touches_cons p l a b :
  touches (p :: l) a b =
  bool_decide (p = (a, b) \/ p = (b, a)) || touches l a b.
Proof. reflexivity. Qed.

Lemma touches_true l a b :
  touches l a b = true <-> (a, b) ∈ l \/ (b, a) ∈ l.
Proof.
  unfold touches. rewrite existsb_exists. split.
  - intros (p & Hp & Hd). apply bool_decide_eq_true in Hd.
    apply list_elem_of_In in Hp. destruct Hd as [-> | ->]; auto.
  - intros [H | H]; apply list_elem_of_In in H;
      eexists; (split; [exact H|]); apply bool_decide_eq_true; auto.
Qed.

Lemma touches_sym l a b : touches l a b = touches l b a.
Proof.
  unfold touches. apply classifier_facts.existsb_agree. intros p _.
  apply bool_decide_ext. tauto.
Qed.

(** After the building loop a link is present, and valid, exactly when
    one of the edges gave it. *)
Lemma linkAt_links l : forall nb v n,
  linkAt (fold_left linkStep l nb) v n =
  if touches l v n then Some true else linkAt nb v n.
Proof.
  induction l as [|e l IH]; intros nb v n; [reflexivity|].
  cbn [fold_left]. rewrite IH, touches_cons.
  destruct (touches l v n); [rewrite orb_true_r; reflexivity|].
  rewrite orb_false_r. unfold linkStep. rewrite !linkAt_setLink.
  destruct e as [a b]. cbn [fst snd].
  destruct (decide ((b, a) = (v, n))) as [H1 | H1].
  - rewrite bool_decide_eq_true_2; [reflexivity|].
    right. injection H1 as -> ->. reflexivity.
  - destruct (decide ((a, b) = (v, n))) as [H2 | H2].
    + rewrite bool_decide_eq_true_2; [reflexivity | left; exact H2].
    + rewrite bool_decide_eq_false_2; [reflexivity|].
      intros [H | H]; [exact (H2 H)|]. apply H1. injection H as -> ->.
      reflexivity.
Qed.

Lemma validAt_neighboursOf inside v n :
  validAt (neighboursOf inside) v n = touches (edgesOf inside) v n.
Proof.
  unfold validAt. rewrite neighboursOf_flat, linkAt_links.
  destruct (touches _ v n); [reflexivity|].
  unfold linkAt. rewrite lookup_empty. reflexivity.
Qed.

Lemma isLink_touches inside v n :
  touches (edgesOf inside) v n = true <-> isLink inside v n.
Proof.
  rewrite touches_true. unfold isLink. rewrite !elem_of_edgesOf. split.
  - intros [(s & Hs & He) | (s & Hs & He)]; exists s; auto.
  - intros (s & Hs & [He | He]); [left | right]; exists s; auto.
Qed.

(** *** The deleting loop *)

Lemma keepb_sym bnds eo vo v n : keepb bnds eo vo v n = keepb bnds eo vo n v.
Proof.
  unfold keepb. rewrite (toEdgeID_sym v n).
  rewrite (andb_comm (getb vo v)), (andb_comm (onBorder bnds n)). reflexivity.
Qed.

Lemma validAt_visit bnds eo vo nb v n a b :
  validAt (visit bnds eo vo nb (v, n)) a b =
  validAt nb a b &&
  negb (validAt nb v n && negb (keepb bnds eo vo v n) &&
        bool_decide ((v, n) = (a, b) \/ (v, n) = (b, a))).
Proof.
  unfold visit. fold (validAt nb v n).
  destruct (validAt nb v n) eqn:Hv; cbn [negb andb];
    [|rewrite andb_true_r; reflexivity].
  assert (Hk : getb vo v && getb vo n && getb eo (toEdgeID v n) ||
               onBorder bnds n && onBorder bnds v = keepb bnds eo vo v n)
    by reflexivity.
  destruct (getb vo v && getb vo n && getb eo (toEdgeID v n)) eqn:H1.
  - rewrite <- Hk. cbn [orb negb andb]. rewrite andb_true_r. reflexivity.
  - destruct (onBorder bnds n && onBorder bnds v) eqn:H2.
    + rewrite <- Hk. cbn [orb negb andb]. rewrite andb_true_r. reflexivity.
    + rewrite <- Hk. cbn [orb negb andb].
      unfold validAt. rewrite !linkAt_setLink.
      destruct (decide ((v, n) = (a, b))) as [E1 | E1].
      * rewrite bool_decide_eq_true_2 by (left; exact E1).
        cbn. rewrite andb_false_r. reflexivity.
      * destruct (decide ((n, v) = (a, b))) as [E2 | E2].
        -- rewrite bool_decide_eq_true_2
             by (right; injection E2 as -> ->; reflexivity).
           cbn. rewrite andb_false_r. reflexivity.
        -- rewrite bool_decide_eq_false_2.
           ++ cbn. rewrite andb_true_r. reflexivity.
           ++ intros [E | E]; [exact (E1 E)|]. apply E2.
              injection E as -> ->. reflexivity.
Qed.

Lemma visit_symmetric bnds eo vo nb p :
  symmetric nb -> symmetric (visit bnds eo vo nb p).
Proof.
  intros Hs a b. destruct p as [v n]. rewrite !validAt_visit, (Hs a b).
  f_equal. f_equal. f_equal. apply bool_decide_ext. tauto.
Qed.

(** What the deleting loop leaves valid, whatever the order of the
    visits. *)
Lemma validAt_sweep bnds eo vo order : forall nb a b,
  symmetric nb ->
  validAt (sweep bnds eo vo order nb) a b =
  validAt nb a b && (keepb bnds eo vo a b || negb (touches order a b)).
Proof.
  unfold sweep. induction order as [|[v n] order IH]; intros nb a b Hs.
  - cbn. rewrite orb_true_r, andb_true_r. reflexivity.
  - cbn [fold_left]. rewrite IH by (apply visit_symmetric; exact Hs).
    rewrite validAt_visit, touches_cons.
    destruct (bool_decide ((v, n) = (a, b) \/ (v, n) = (b, a))) eqn:Hd.
    + apply bool_decide_eq_true in Hd.
      assert (validAt nb v n = validAt nb a b /\
              keepb bnds eo vo v n = keepb bnds eo vo a b) as [-> ->].
      { destruct Hd as [E | E]; injection E as -> ->;
          [split; reflexivity | split; [apply Hs | apply keepb_sym]]. }
      cbn [orb negb]. rewrite andb_true_r, orb_false_r.
      destruct (validAt nb a b), (keepb bnds eo vo a b); reflexivity.
    + cbn [orb]. rewrite andb_false_r. cbn [negb]. rewrite andb_true_r.
      reflexivity.
Qed.

Lemma neighboursOf_symmetric inside : symmetric (neighboursOf inside).
Proof.
  intros a b. rewrite !validAt_neighboursOf. apply touches_sym.
Qed.

(** *** The visiting orders and the result *)

Lemma elem_of_linksOf nb v n :
  (v, n) ∈ linksOf nb <-> is_Some (linkAt nb v n).
Proof.
  unfold linksOf, linkAt. rewrite list_elem_of_bind. split.
  - intros ([v' partners] & Hin & Hvp). cbn [fst snd] in Hin.
    apply list_elem_of_fmap in Hin as ([n' val] & Heq & Hn).
    cbn [fst] in Heq. injection Heq as -> ->.
    apply elem_of_map_to_list in Hvp, Hn. rewrite Hvp. cbn. rewrite Hn. eauto.
  - intros [val H]. destruct (nb !! v) as [partners|] eqn:Hv; [|discriminate H].
    cbn in H. exists (v, partners). split.
    + cbn [fst snd]. apply list_elem_of_fmap. exists (n, val).
      split; [reflexivity | apply elem_of_map_to_list; exact H].
    + apply elem_of_map_to_list. exact Hv.
Qed.

Lemma elem_of_collect order nb v n :
  (v, n) ∈ collect order nb <-> (v, n) ∈ order /\ validAt nb v n = true.
Proof.
  unfold collect. rewrite list_elem_of_filter. cbn [fst snd]. tauto.
Qed.

Lemma keepb_kept bnds outside v n :
  keepb bnds (ownedOutside outside).1 (ownedOutside outside).2 v n = true <->
  kept bnds outside v n.
Proof.
  unfold keepb, kept.
  rewrite orb_true_iff, !andb_true_iff.
  rewrite !vertOwnedOutside_spec, edgeOwnedOutside_spec. tauto.
Qed.

(** The result of the extractor for any two visiting orders: the first
    has to reach every link, the second lists what is returned. *)
Lemma deletionMethodIn_spec bnds inside outside order1 order2 v n :
  (forall a b, isLink inside a b -> (a, b) ∈ order1 \/ (b, a) ∈ order1) ->
  (v, n) ∈ deletionMethodIn bnds inside outside order1 order2 <->
  (v, n) ∈ order2 /\ isLink inside v n /\ kept bnds outside v n.
Proof.
  intros Hcover. unfold deletionMethodIn.
  destruct (ownedOutside outside) as [eo vo] eqn:Hown.
  rewrite elem_of_collect, validAt_sweep by apply neighboursOf_symmetric.
  rewrite validAt_neighboursOf, andb_true_iff, isLink_touches.
  pose proof (keepb_kept bnds outside v n) as Hk. rewrite Hown in Hk.
  cbn [fst snd] in Hk. rewrite <- Hk. split.
  - intros (H2 & Hl & Hor). repeat split; auto.
    apply orb_true_iff in Hor as [Hor | Hor]; [exact Hor|].
    apply negb_true_iff in Hor.
    pose proof (proj2 (touches_true order1 v n) (Hcover v n Hl)). congruence.
  - intros (H2 & Hl & Hkeep). rewrite Hkeep. auto.
Qed.

Lemma validAt_is_Some nb v n : validAt nb v n = true -> is_Some (linkAt nb v n).
Proof.
  unfold validAt. destruct (linkAt nb v n); [eauto | discriminate].
Qed.

Lemma isLink_sym inside v n : isLink inside v n <-> isLink inside n v.
Proof. unfold isLink. split; intros (s & Hs & H); exists s; tauto. Qed.

Lemma kept_sym bnds outside v n :
  kept bnds outside v n <-> kept bnds outside n v.
Proof.
  unfold kept, edgeOutside. split; intros [(Hv & Hn & s & Hs & He) | [H1 H2]];
    try (right; auto; fail); left; (repeat split; auto); exists s; tauto.
Qed.

(** C4. For every bounds rectangle and all lists of inside and outside
    sites, [Circut] returns exactly the links (v, n) of the inside sites
    for which either both v and n are vertices of some outside site and
    the edge between them is an edge of some outside site, or both v and
    n lie on the frame or one unit from it.  Every other link is gone in
    both directions; a surviving link is returned once in each
    direction. *)
Theorem Circut_keeps_the_perimeter (bnds : Rectangle)
    (inside outside : list voronoi.Site) (v n : Point) :
  ((v, n) ∈ Circut bnds inside outside <->
   isLink inside v n /\ kept bnds outside v n) /\
  ((v, n) ∈ Circut bnds inside outside <->
   (n, v) ∈ Circut bnds inside outside) /\
  NoDup (Circut bnds inside outside).
Proof.
  assert (Hmain : forall a b,
             (a, b) ∈ Circut bnds inside outside <->
             isLink inside a b /\ kept bnds outside a b).
  { intros a b. unfold Circut, deletionMethod.
    destruct (ownedOutside outside) as [eo vo] eqn:Hown.
    rewrite elem_of_collect, elem_of_linksOf.
    fold (sweep bnds eo vo (linksOf (neighboursOf inside)) (neighboursOf inside)).
    rewrite validAt_sweep by apply neighboursOf_symmetric.
    rewrite validAt_neighboursOf, andb_true_iff, isLink_touches.
    pose proof (keepb_kept bnds outside a b) as Hk. rewrite Hown in Hk.
    cbn [fst snd] in Hk. rewrite <- Hk. split.
    - intros (_ & Hl & Hor). split; [exact Hl|].
      apply orb_true_iff in Hor as [Hor | Hor]; [exact Hor|].
      apply negb_true_iff in Hor.
      assert (touches (linksOf (neighboursOf inside)) a b = true); [|congruence].
      apply touches_true. left. apply elem_of_linksOf, validAt_is_Some.
      rewrite validAt_neighboursOf. apply isLink_touches. exact Hl.
    - intros (Hl & Hkeep).
      assert (Hv : validAt
                     (sweep bnds eo vo (linksOf (neighboursOf inside))
                        (neighboursOf inside)) a b = true).
      { rewrite validAt_sweep by apply neighboursOf_symmetric.
        rewrite validAt_neighboursOf, Hkeep.
        apply isLink_touches in Hl. rewrite Hl. reflexivity. }
      split; [apply validAt_is_Some; exact Hv|].
      split; [exact Hl | rewrite Hkeep; reflexivity]. }
  split; [apply Hmain|]. split.
  - rewrite !Hmain, (isLink_sym inside v n), (kept_sym bnds outside v n).
    reflexivity.
  - unfold Circut, deletionMethod.
    destruct (ownedOutside outside) as [eo vo].
    unfold collect. apply NoDup_filter. unfold linksOf.
    apply NoDup_bind.
    + intros [v1 p1] [v2 p2] [a b] Hin1 Hin2 H1 H2. cbn [fst snd] in H1, H2.
      apply list_elem_of_fmap in H1 as (x1 & Hx1 & _).
      apply list_elem_of_fmap in H2 as (x2 & Hx2 & _).
      injection Hx1 as -> _. injection Hx2 as E _. subst v2.
      apply elem_of_map_to_list in Hin1, Hin2. congruence.
    + intros [v1 p1] _. cbn [fst snd].
      apply NoDup_fmap_2_strong; [|apply NoDup_map_to_list].
      intros [n1 b1] [n2 b2] H1 H2 E. cbn [fst] in E. injection E as ->.
      apply elem_of_map_to_list in H1, H2. congruence.
    + apply NoDup_map_to_list.
Qed.

(** A site with the four edges of the square 0..10, for the examples. *)
Example Circut_single_square :
  let sq := voronoi.mkSite 0 5 5
              [(Pt 0 0, Pt 10 0); (Pt 10 0, Pt 10 10);
               (Pt 10 10, Pt 0 10); (Pt 0 10, Pt 0 0)]
              (fun _ _ => true) in
  length (Circut (image.Rect 0 0 10 10) [sq] []) = 8%nat.
Proof. vm_compute. reflexivity. Qed.

End cell_facts.

(** ** Distances *)
Module distance_facts.

Lemma calculateDistSq_nonneg ax ay bx by_ : 0 <= calculateDistSq ax ay bx by_.
Proof.
  unfold calculateDistSq. apply Z.add_nonneg_nonneg; apply Z.square_nonneg.
Qed.

End distance_facts.

(** ** The nearest-site query *)
Module voronoi_facts.
Import voronoi distance_facts.

(** The squared distance of the site [s] to the point. *)
Local Abbreviation dsq x y s := (calculateDistSq (X s) (Y s) x y).

(** With a site to look at the loop returns one. *)
Lemma SiteFor_loop_is_Some x y ss : forall dist pick,
  (dist < 0 /\ ss <> []) \/ is_Some pick ->
  is_Some (SiteFor_loop ss x y dist pick).
Proof.
  induction ss as [|site rest IH]; intros dist pick H; cbn [SiteFor_loop].
  - destruct H as [[_ H] | H]; [congruence | exact H].
  - destruct (dist =? 0); [eauto|].
    destruct (Z.ltb_spec dist 0) as [Hneg | Hpos]; cbn [orb].
    + apply IH. right. eauto.
    + destruct (_ <? dist); apply IH; right; [eauto|].
      destruct H as [[H _] | H]; [lia | exact H].
Qed.

(** The loop between two sites: as long as no site but the last lies on
    the point, the site returned is as near as every site seen. *)
Lemma SiteFor_loop_nearest x y ss : forall dist pick r,
  (dist = 0 -> ss = []) ->
  List.Forall (fun s => dsq x y s <> 0) (removelast ss) ->
  dist < 0 \/ (exists p, pick = Some p /\ dsq x y p = dist) ->
  SiteFor_loop ss x y dist pick = Some r ->
  List.Forall (fun s => dsq x y r <= dsq x y s) ss /\
  (0 <= dist -> dsq x y r <= dist) /\
  (r ∈ ss \/ pick = Some r).
Proof.
  induction ss as [|site rest IH]; intros dist pick r H0 Hnz Hinv;
    cbn [SiteFor_loop].
  - intros ->. split; [constructor|]. split; [|right; reflexivity].
    intros Hd. destruct Hinv as [Hneg | (p & [= <-] & <-)]; lia.
  - destruct (Z.eqb_spec dist 0) as [Hz | Hz];
      [specialize (H0 Hz); discriminate|].
    assert (Hrest : (dsq x y site = 0 -> rest = []) /\
                    List.Forall (fun s => dsq x y s <> 0) (removelast rest)).
    { destruct rest as [|s2 rest]; [split; [auto | constructor]|].
      change (removelast (site :: s2 :: rest))
        with (site :: removelast (s2 :: rest)) in Hnz.
      inversion Hnz; subst. split; [intros; contradiction | assumption]. }
    destruct Hrest as [Hlast Hnz'].
    pose proof (calculateDistSq_nonneg (X site) (Y site) x y) as Hs.
    destruct ((dist <? 0) || (dsq x y site <? dist)) eqn:Hb; intros Hr.
    + apply IH in Hr as (Hall & Hle & Hin);
        [| exact Hlast | exact Hnz' | right; eauto].
      specialize (Hle Hs).
      split; [constructor; assumption|]. split.
      * intros Hd. apply orb_true_iff in Hb as [Hb | Hb];
          [apply Z.ltb_lt in Hb | apply Z.ltb_lt in Hb]; lia.
      * left. destruct Hin as [Hin | [= <-]];
          [right; exact Hin | left].
    + apply orb_false_iff in Hb as [Hb1 Hb2].
      apply Z.ltb_ge in Hb1, Hb2.
      apply IH in Hr as (Hall & Hle & Hin);
        [| intros; contradiction | exact Hnz' |].
      2:{ destruct Hinv as [Hneg | Hp]; [lia | right; exact Hp]. }
      specialize (Hle Hb1).
      split; [constructor; [lia | assumption]|]. split; [auto|].
      destruct Hin as [Hin | Hin]; [left; right; exact Hin | right; exact Hin].
Qed.

(** What [SiteFor] does keep of its contract: it returns a site of the
    diagram when there is one, and a nearest one as long as no site
    other than the last lies on the query point. *)
Lemma SiteFor_nearest_without_coincident (v : Voronoi) (x y : Z) :
  sites v <> [] ->
  List.Forall (fun s => dsq x y s <> 0) (removelast (sites v)) ->
  exists r, SiteFor v x y = Some r /\ r ∈ sites v /\
    List.Forall (fun s => dsq x y r <= dsq x y s) (sites v).
Proof.
  intros Hne Hnz. unfold SiteFor.
  destruct (SiteFor_loop_is_Some x y (sites v) (-1) None) as [r Hr];
    [left; split; [lia | exact Hne]|].
  exists r. split; [exact Hr|].
  apply SiteFor_loop_nearest in Hr as (Hall & _ & Hin);
    [| intros; lia | exact Hnz | left; lia].
  split; [|exact Hall]. destruct Hin as [Hin | Hin]; [exact Hin | discriminate].
Qed.

(** C5 at the failing input: the query point is the first of two sites,
    and [SiteFor] returns the second, which lies at squared distance
    200. *)
Theorem SiteFor_returns_site_after_coincident :
  ID <$> SiteFor samples.twoSites 0 0 = Some 1 /\
  (calculateDistSq 0 0 0 0 = 0 /\ calculateDistSq 10 10 0 0 = 200) /\
  ID <$> SiteFor samples.twoSites 1 1 = Some 0.
Proof. vm_compute. auto. Qed.

End voronoi_facts.

(** ** Towers along a wall *)
Module towers_facts.
Import towers distance_facts.

Lemma towerCentre_Rect px py hw hh :
  towerCentre (image.Rect (px - hw) (py - hh) (px + hw) (py + hh)) = Pt px py.
Proof.
  unfold towerCentre, image.Rect.
  destruct (px + hw <? px - hw), (py + hh <? py - hh);
    cbn [image.Min image.Max image.X image.Y]; f_equal;
    match goal with |- ?a ÷ 2 = ?p =>
      replace a with (p * 2); [apply Z.quot_mul; lia | lia] end.
Qed.

(** A truncated distance of at least [m] is a distance of at least [m]. *)
Lemma sqrt_ge_square m s : 0 <= m -> 0 <= s -> m <= Z.sqrt s -> m * m <= s.
Proof.
  intros H0 Hs Hm. pose proof (Z.sqrt_spec s Hs) as [H1 _].
  cbn zeta in H1. nia.
Qed.

Section Closures.

Variable cmap : citymap.imageMap.
Variable outline : Outline.
Variable TowerArea : Rectangle.
Variable MinDistBetweenTowers : Z.
Variable allTowers : list Rectangle.

Abbreviation tryPlace :=
  (tryPlaceTower cmap outline TowerArea allTowers).

(** [tryPlaceTower] adds nothing, or one tower centred on [p] that keeps
    the distance [m] from every tower placed so far. *)
Lemma tryPlaceTower_cases p m towers :
  0 <= m ->
  tryPlace p m towers = towers \/
  exists t, tryPlace p m towers = towers ++ [t] /\
            towerCentre t = p /\ spaced m t (allTowers ++ towers).
Proof.
  intros Hm. unfold tryPlaceTower, towerFits.
  set (tw := image.X (image.Max TowerArea) - image.X (image.Min TowerArea)).
  set (th := image.Y (image.Max TowerArea) - image.Y (image.Min TowerArea)).
  set (area := image.Rect _ _ _ _).
  destruct (forallb _ _); cbn [negb]; [|left; reflexivity].
  destruct ((0 <? m) && existsb (tooClose m p) (allTowers ++ towers)) eqn:Hc;
    [left; reflexivity|].
  right. exists area.
  assert (Hcentre : towerCentre area = p).
  { subst area. rewrite towerCentre_Rect. destruct p; reflexivity. }
  split; [reflexivity|]. split; [exact Hcentre|].
  unfold spaced. rewrite Hcentre. apply List.Forall_forall. intros t0 Ht0.
  apply andb_false_iff in Hc as [Hc | Hc].
  - apply Z.ltb_ge in Hc. assert (m = 0) as -> by lia.
    apply calculateDistSq_nonneg.
  - assert (tooClose m p t0 = false) as Hfar.
    { destruct (tooClose m p t0) eqn:E; [|reflexivity].
      assert (existsb (tooClose m p) (allTowers ++ towers) = true)
        by (apply existsb_exists; eauto).
      congruence. }
    unfold tooClose, calculateDistInt in Hfar. apply Z.ltb_ge in Hfar.
    apply sqrt_ge_square; [exact Hm | apply calculateDistSq_nonneg | exact Hfar].
Qed.

Lemma wellSpaced_nil mdbt a b old : wellSpaced mdbt a b old [].
Proof. intros k t H. rewrite lookup_nil in H. discriminate. Qed.

Lemma wellSpaced_snoc mdbt a b old new t :
  wellSpaced mdbt a b old new ->
  (spaced mdbt t (old ++ new) \/
   ((towerCentre t = a \/ towerCentre t = b) /\
    spaced (mdbt ÷ 2) t (old ++ new))) ->
  wellSpaced mdbt a b old (new ++ [t]).
Proof.
  intros Hw Ht k t' Hk.
  destruct (Nat.lt_ge_cases k (length new)) as [Hlt | Hge].
  - rewrite lookup_app_l in Hk by exact Hlt.
    rewrite take_app_le by lia. apply Hw. exact Hk.
  - rewrite lookup_app_r in Hk by exact Hge.
    destruct (k - length new)%nat as [|j] eqn:Hj; [|destruct j; discriminate Hk].
    injection Hk as <-. assert (k = length new) as -> by lia.
    rewrite take_app_length. exact Ht.
Qed.

(** One attempt keeps the towers well spaced: at full spacing anywhere,
    at half spacing on an end point. *)
Lemma tryPlaceTower_wellSpaced a b old new p m :
  0 <= m ->
  (m = MinDistBetweenTowers \/
   (m = MinDistBetweenTowers ÷ 2 /\ (p = a \/ p = b))) ->
  wellSpaced MinDistBetweenTowers a b (allTowers ++ old) new ->
  exists new',
    tryPlace p m (old ++ new) = old ++ new' /\
    wellSpaced MinDistBetweenTowers a b (allTowers ++ old) new'.
Proof.
  intros Hm Hkind Hw.
  destruct (tryPlaceTower_cases p m (old ++ new) Hm)
    as [-> | (t & -> & Hc & Hsp)].
  - exists new. auto.
  - exists (new ++ [t]). rewrite app_assoc. split; [reflexivity|].
    apply wellSpaced_snoc; [exact Hw|].
    rewrite <- app_assoc.
    destruct Hkind as [-> | [-> Hp]]; [left; exact Hsp|].
    right. split; [rewrite Hc; exact Hp | exact Hsp].
Qed.

Lemma fillLoop_wellSpaced a b old pnts fuel : forall i new,
  0 < MinDistBetweenTowers ->
  0 <= i ->
  Z.max 0 (Z.of_nat (length pnts) - i) < Z.of_nat fuel ->
  wellSpaced MinDistBetweenTowers a b (allTowers ++ old) new ->
  exists new',
    fillLoop cmap outline TowerArea allTowers fuel pnts
      MinDistBetweenTowers i (old ++ new) = Some (old ++ new') /\
    wellSpaced MinDistBetweenTowers a b (allTowers ++ old) new'.
Proof.
  induction fuel as [|fuel IH]; intros i new Hpos Hi Hfuel Hw.
  - exfalso. lia.
  - cbn [fillLoop].
    destruct (Z.ltb_spec i (Z.of_nat (length pnts))) as [Hlt | Hge].
    + replace (i <? 0) with false by (symmetry; apply Z.ltb_ge; lia).
      destruct (tryPlaceTower_wellSpaced a b old new
                  (nth (Z.to_nat i) pnts image.ZP) MinDistBetweenTowers)
        as (new1 & -> & Hw1); [lia | left; reflexivity | exact Hw |].
      apply IH; [exact Hpos | lia | lia | exact Hw1].
    + exists new. auto.
Qed.

(** C6. With a positive [MinDistBetweenTowers], [fillWithTowers] comes
    back, only adds towers, and every tower it adds keeps the configured
    distance, centre to centre, from every tower placed before it (those
    of earlier walls, the gate towers and its own earlier ones), unless
    it stands on one of the two end points of the path, where it keeps
    half of that distance ([mdbt/2] in integer arithmetic). *)
Theorem fillWithTowers_spacing (a b : Point) (towers : list Rectangle) :
  0 < MinDistBetweenTowers ->
  exists new,
    fillWithTowers cmap outline TowerArea MinDistBetweenTowers allTowers
      (S (length (line.PointsBetween a b))) a b towers
    = Some (towers ++ new) /\
    wellSpaced MinDistBetweenTowers a b (allTowers ++ towers) new.
Proof.
  intros Hpos. unfold fillWithTowers.
  assert (Hhalf : 0 <= MinDistBetweenTowers ÷ 2)
    by (apply Z.quot_pos; lia).
  destruct (tryPlaceTower_wellSpaced a b towers [] a
              (MinDistBetweenTowers ÷ 2) Hhalf)
    as (new1 & E1 & Hw1); [right; auto | apply wellSpaced_nil |].
  rewrite app_nil_r in E1. rewrite E1.
  destruct (tryPlaceTower_wellSpaced a b towers new1 b
              (MinDistBetweenTowers ÷ 2) Hhalf)
    as (new2 & E2 & Hw2); [right; auto | exact Hw1 |].
  rewrite E2.
  apply fillLoop_wellSpaced; [exact Hpos | lia | lia | exact Hw2].
Qed.

(** Without a positive spacing the loop does not come back: its index
    stays at zero or leaves the slice below. *)
Lemma fillLoop_stays (pnts : list Point) (fuel : nat) :
  MinDistBetweenTowers <= 0 -> pnts <> [] ->
  forall i towers, i <= 0 ->
    fillLoop cmap outline TowerArea allTowers fuel pnts
      MinDistBetweenTowers i towers = None.
Proof.
  intros Hm Hp. induction fuel as [|fuel IH]; intros i towers Hi;
    [reflexivity|].
  cbn [fillLoop].
  assert (Hlen : 0 < Z.of_nat (length pnts))
    by (destruct pnts; [congruence | cbn [length]; lia]).
  replace (i <? Z.of_nat (length pnts)) with true
    by (symmetry; apply Z.ltb_lt; lia).
  destruct (i <? 0); [reflexivity|]. apply IH. lia.
Qed.

Lemma fillWithTowers_needs_spacing (fuel : nat) (a b : Point)
    (towers : list Rectangle) :
  MinDistBetweenTowers <= 0 ->
  fillWithTowers cmap outline TowerArea MinDistBetweenTowers allTowers
    fuel a b towers = None.
Proof.
  intros Hm. unfold fillWithTowers.
  apply fillLoop_stays;
    [exact Hm | apply line_facts.PointsBetween_nonempty | exact Hm].
Qed.

End Closures.

(** An instance of C6: a wall from (5,5) to (25,5) with spacing 8 and
    towers of size 2 on open land.  It gets a tower on each end and one
    at point 8 of the path; point 16 is too close to the far end. *)
Lemma fillWithTowers_spacing_witness :
  exists new,
    fillWithTowers samples.map40 samples.plain (image.Rect 0 0 2 2) 8 []
      (S (length (line.PointsBetween (Pt 5 5) (Pt 25 5)))) (Pt 5 5) (Pt 25 5) []
    = Some ([] ++ new) /\
    wellSpaced 8 (Pt 5 5) (Pt 25 5) ([] ++ []) new.
Proof.
  apply (fillWithTowers_spacing samples.map40 samples.plain
           (image.Rect 0 0 2 2) 8 [] (Pt 5 5) (Pt 25 5) []).
  reflexivity.
Defined.

Example fillWithTowers_run :
  fillWithTowers samples.map40 samples.plain (image.Rect 0 0 2 2) 8 []
    22 (Pt 5 5) (Pt 25 5) []
  = Some [image.Rect 4 4 6 6; image.Rect 24 4 26 6; image.Rect 12 4 14 6].
Proof. vm_compute. reflexivity. Qed.

End towers_facts.

(** ** Who is inside the city wall *)
Module walls_facts.
Import walls.

Lemma insertBy_perm {A} (less : A -> A -> bool) x l :
  Permutation (x :: l) (samples.insertBy less x l).
Proof.
  induction l as [|y l IH]; cbn [samples.insertBy]; [reflexivity|].
  destruct (less y x); [|reflexivity].
  rewrite perm_swap. apply perm_skip, IH.
Qed.

Lemma sortBy_perm {A} (less : A -> A -> bool) l :
  Permutation l (samples.sortBy less l).
Proof.
  induction l as [|x l IH]; cbn; [reflexivity|].
  rewrite <- insertBy_perm. apply perm_skip, IH.
Qed.

Lemma insertBy_sorted {A} (key : A -> Z) x l :
  StronglySorted (fun a b => key a <= key b) l ->
  StronglySorted (fun a b => key a <= key b)
    (samples.insertBy (fun a b => key a <? key b) x l).
Proof.
  induction 1 as [|y l HS IH HF]; cbn [samples.insertBy].
  - repeat constructor.
  - destruct (Z.ltb_spec (key y) (key x)) as [Hlt | Hge].
    + constructor; [exact IH|].
      rewrite List.Forall_forall in *. intros z Hz.
      apply (Permutation_in _ (Permutation_sym (insertBy_perm _ x l))) in Hz.
      destruct Hz as [<- | Hz]; [lia | apply HF, Hz].
    + constructor; [constructor; assumption|].
      constructor; [exact Hge|].
      rewrite List.Forall_forall in *. intros z Hz. specialize (HF z Hz). lia.
Qed.

Lemma sortBy_sorted {A} (key : A -> Z) l :
  StronglySorted (fun a b => key a <= key b)
    (samples.sortBy (fun a b => key a <? key b) l).
Proof.
  induction l as [|x l IH]; cbn; [constructor | apply insertBy_sorted, IH].
Qed.

(** *** Reading and writing through district pointers *)

Lemma deref_update_same ds d f :
  (d < length ds)%nat -> deref (update d f ds) d = f (deref ds d).
Proof.
  intros H. unfold deref at 1, update.
  rewrite nth_lookup, list_lookup_insert_eq by exact H. reflexivity.
Qed.

Lemma deref_update_other ds d f i :
  d <> i -> deref (update d f ds) i = deref ds i.
Proof.
  intros H. unfold deref, update.
  rewrite !nth_lookup, list_lookup_insert_ne by exact H. reflexivity.
Qed.

Lemma length_update ds d f : length (update d f ds) = length ds.
Proof. apply length_insert. Qed.

(** Marking the chosen districts touches no other district and sets
    nothing but the one flag. *)
Lemma mark_chosen chosen : forall ds i,
  Forall (fun d => (d < length ds)%nat) chosen ->
  deref (fold_left (fun ds d => update d (setHasFortifications true) ds)
           chosen ds) i =
  if bool_decide (i ∈ chosen)
  then setHasFortifications true (deref ds i) else deref ds i.
Proof.
  induction chosen as [|d chosen IH]; intros ds i Hlen; [reflexivity|].
  apply Forall_cons in Hlen as [Hd Hrest]. cbn [fold_left].
  rewrite IH.
  2:{ eapply List.Forall_impl; [|exact Hrest]. cbn beta. intros a Ha.
      rewrite length_update. exact Ha. }
  destruct (decide (d = i)) as [-> | Hne].
  - rewrite deref_update_same by exact Hd.
    rewrite (bool_decide_eq_true_2 (i ∈ i :: chosen)) by left.
    destruct (bool_decide (i ∈ chosen)); reflexivity.
  - rewrite deref_update_other by exact Hne.
    destruct (bool_decide (i ∈ chosen)) eqn:Hin.
    + apply bool_decide_eq_true in Hin.
      rewrite bool_decide_eq_true_2 by (right; exact Hin). reflexivity.
    + apply bool_decide_eq_false in Hin.
      rewrite bool_decide_eq_false_2; [reflexivity|].
      intros H. apply elem_of_cons in H as [H | H]; congruence.
Qed.

Lemma length_mark chosen : forall ds,
  length (fold_left (fun ds d => update d (setHasFortifications true) ds)
            chosen ds) = length ds.
Proof.
  induction chosen as [|d chosen IH]; intros ds; [reflexivity|].
  cbn [fold_left]. rewrite IH. apply length_update.
Qed.

(** The second loop sorts the districts into the three groups, in the
    order of [c.Districts]. *)
Lemma sortOut_spec ds :
  sortOut ds =
  (List.filter (isCurtain ds) (seq 0 (length ds)),
   List.filter (isInside ds) (seq 0 (length ds)),
   List.filter (isOutside ds) (seq 0 (length ds))).
Proof.
  unfold sortOut.
  assert (H : forall l cw ins outs,
             fold_left
               (fun acc i =>
                  let '(curtainWall, insideDists, outsideDists) := acc in
                  if HasCurtainFortifications (deref ds i)
                  then (curtainWall ++ [i], insideDists, outsideDists)
                  else if HasFortifications (deref ds i)
                       then (curtainWall, insideDists ++ [i], outsideDists)
                       else (curtainWall, insideDists, outsideDists ++ [i]))
               l (cw, ins, outs) =
             (cw ++ List.filter (isCurtain ds) l,
              ins ++ List.filter (isInside ds) l,
              outs ++ List.filter (isOutside ds) l)).
  { induction l as [|i l IH]; intros cw ins outs.
    - cbn. rewrite !app_nil_r. reflexivity.
    - cbn [fold_left List.filter]. unfold isCurtain, isInside, isOutside.
      destruct (HasCurtainFortifications (deref ds i)),
               (HasFortifications (deref ds i));
        cbn [negb andb]; rewrite IH; unfold isCurtain, isInside, isOutside;
        rewrite <- ?app_assoc; reflexivity. }
  apply (H _ [] [] []).
Qed.

Section Sorting.

Variable sortSlice : (nat -> nat -> bool) -> list nat -> list nat.

(** What [sort.Slice] promises for a comparison by a key: the slice is
    rearranged, and afterwards no element has a smaller key than one
    before it. *)
Hypothesis sortSlice_perm :
  forall less l, Permutation l (sortSlice less l).
Hypothesis sortSlice_sorted :
  forall (key : nat -> Z) l,
    StronglySorted (fun a b => key a <= key b)
      (sortSlice (fun a b => key a <? key b) l).

(** C7. When only f districts are fortified without a curtain wall,
    f < MinFortifiedSites = m, and more than m - f districts are
    outside, [addWalls] promotes exactly m - f of the outside districts:
    they are appended to the inside districts that the city wall goes
    around, their [HasFortifications] is set and nothing else changes in
    any district, the other outside districts stay outside, and no
    promoted district lies farther from the centre than a district that
    stays outside. *)
Theorem addWalls_promotes_nearest
    (bcfg : gmap DistrictType DistrictConfig) (m : Z) (centre : Point)
    (added : list nat) (ds ds1 : list District) :
  flagsFromConfig bcfg added ds = Some ds1 ->
  let cw := List.filter (isCurtain ds1) (seq 0 (length ds1)) in
  let ins := List.filter (isInside ds1) (seq 0 (length ds1)) in
  let outs := List.filter (isOutside ds1) (seq 0 (length ds1)) in
  let f := Z.of_nat (length ins) in
  f < m ->
  m - f < Z.of_nat (length outs) ->
  exists promoted rest ds2,
    settleGroups sortSlice bcfg m centre added ds
    = Some (ds2, cw, ins ++ promoted, rest) /\
    Z.of_nat (length promoted) = m - f /\
    Permutation outs (promoted ++ rest) /\
    (forall p r, p ∈ promoted -> r ∈ rest ->
       distanceTo ds1 centre p <= distanceTo ds1 centre r) /\
    length ds2 = length ds1 /\
    (forall i, i ∈ promoted ->
       deref ds2 i = setHasFortifications true (deref ds1 i)) /\
    (forall i, i ∉ promoted -> deref ds2 i = deref ds1 i).
Proof using sortSlice_perm sortSlice_sorted.
  intros Hflags cw ins outs f Hf Hmore.
  unfold settleGroups. rewrite Hflags, sortOut_spec. fold cw ins outs.
  unfold chooseMore. fold f.
  replace (0 <? m - f) with true by (symmetry; apply Z.ltb_lt; lia).
  replace (Z.of_nat (length outs) <=? m - f) with false
    by (symmetry; apply Z.leb_gt; lia).
  set (sorted := sortDistrictsByDistance sortSlice ds1 centre outs).
  set (k := Z.to_nat (m - f)).
  assert (Hperm : Permutation outs sorted) by apply sortSlice_perm.
  assert (Hsorted : StronglySorted
                      (fun a b => distanceTo ds1 centre a <=
                                  distanceTo ds1 centre b) sorted)
    by apply (sortSlice_sorted (distanceTo ds1 centre)).
  assert (Hk : (k < length sorted)%nat).
  { rewrite <- (Permutation_length Hperm). lia. }
  assert (Hvalid : Forall (fun d => (d < length ds1)%nat) (firstn k sorted)).
  { apply List.Forall_forall. intros d Hd.
    assert (Hd' : In d sorted).
    { rewrite <- (firstn_skipn k sorted). apply in_or_app. left; exact Hd. }
    apply (Permutation_in _ (Permutation_sym Hperm)) in Hd'.
    rename Hd' into Hd0. clear Hd. rename Hd0 into Hd.
    apply filter_In in Hd as [Hd _]. apply in_seq in Hd. lia. }
  exists (firstn k sorted), (skipn k sorted). eexists. split; [reflexivity|].
  repeat split.
  - rewrite length_firstn. lia.
  - rewrite firstn_skipn. exact Hperm.
  - intros p r Hp Hr.
    rewrite <- (firstn_skipn k sorted) in Hsorted.
    apply StronglySorted_app in Hsorted as (H12 & _ & _). apply H12; assumption.
  - apply length_mark.
  - intros i Hi. rewrite mark_chosen by exact Hvalid.
    rewrite bool_decide_eq_true_2 by exact Hi. reflexivity.
  - intros i Hi. rewrite mark_chosen by exact Hvalid.
    rewrite bool_decide_eq_false_2 by exact Hi. reflexivity.
Qed.

End Sorting.

(** An instance of C7, the scenario of the specification: six fortified
    sites are asked for, four fortresses are there, and of the three
    fields the two nearest the centre are promoted. *)
Lemma addWalls_promotes_nearest_witness :
  exists promoted rest ds2,
    settleGroups samples.sortBy samples.wallConfig 6 (Pt 0 0)
      [0; 1; 2; 3; 4; 5; 6]%nat samples.sevenDistricts
    = Some (ds2, [], [0; 2; 4; 6]%nat ++ promoted, rest) /\
    Z.of_nat (length promoted) = 6 - 4 /\
    Permutation [1; 3; 5]%nat (promoted ++ rest) /\
    (forall p r, p ∈ promoted -> r ∈ rest ->
       distanceTo
         (default [] (flagsFromConfig samples.wallConfig
                        [0; 1; 2; 3; 4; 5; 6]%nat samples.sevenDistricts))
         (Pt 0 0) p <=
       distanceTo
         (default [] (flagsFromConfig samples.wallConfig
                        [0; 1; 2; 3; 4; 5; 6]%nat samples.sevenDistricts))
         (Pt 0 0) r) /\
    length ds2 = 7%nat /\
    (forall i, i ∈ promoted ->
       deref ds2 i =
       setHasFortifications true
         (deref
            (default [] (flagsFromConfig samples.wallConfig
                           [0; 1; 2; 3; 4; 5; 6]%nat samples.sevenDistricts))
            i)) /\
    (forall i, i ∉ promoted ->
       deref ds2 i =
       deref
         (default [] (flagsFromConfig samples.wallConfig
                        [0; 1; 2; 3; 4; 5; 6]%nat samples.sevenDistricts))
         i).
Proof.
  apply (addWalls_promotes_nearest samples.sortBy
           (fun less l => sortBy_perm less l)
           (fun key l => sortBy_sorted key l)
           samples.wallConfig 6 (Pt 0 0) [0; 1; 2; 3; 4; 5; 6]%nat
           samples.sevenDistricts
           (default [] (flagsFromConfig samples.wallConfig
                          [0; 1; 2; 3; 4; 5; 6]%nat samples.sevenDistricts))).
  - vm_compute. reflexivity.
  - vm_compute. reflexivity.
  - vm_compute. reflexivity.
Defined.

Example addWalls_scenario :
  (fun r => (r.1.2, r.2)) <$>
    settleGroups samples.sortBy samples.wallConfig 6 (Pt 0 0)
      [0; 1; 2; 3; 4; 5; 6]%nat samples.sevenDistricts
  = Some ([0; 2; 4; 6; 3; 5]%nat, [1]%nat).
Proof. vm_compute. reflexivity. Qed.

End walls_facts.

(** ** Assigning district types *)
Module districts_facts.
Import districts walls_facts.

(** *** Counting *)

Lemma occurrences_app t l1 l2 :
  occurrences t (l1 ++ l2) = occurrences t l1 + occurrences t l2.
Proof. unfold occurrences. rewrite filter_app, length_app. lia. Qed.

Lemma occurrences_one t u :
  occurrences t [u] = if bool_decide (u = t) then 1 else 0.
Proof.
  unfold occurrences. rewrite filter_cons, filter_nil.
  destruct (decide (u = t)) as [H|H].
  - rewrite bool_decide_eq_true_2 by exact H. reflexivity.
  - rewrite bool_decide_eq_false_2 by exact H. reflexivity.
Qed.

Lemma occurrences_nonneg t l : 0 <= occurrences t l.
Proof. unfold occurrences. lia. Qed.

Lemma occurrences_perm t l1 l2 :
  Permutation l1 l2 -> occurrences t l1 = occurrences t l2.
Proof.
  intros H. unfold occurrences. f_equal.
  apply Permutation_length. apply filter_Permutation. exact H.
Qed.

Lemma countType_fmap t ds : countType t ds = occurrences t (dType <$> ds).
Proof.
  unfold countType, occurrences. f_equal.
  induction ds as [|d ds IH]; [reflexivity|].
  cbn [fmap list_fmap]. rewrite !filter_cons.
  destruct (decide (dType d = t)); cbn [length]; rewrite IH; reflexivity.
Qed.

Lemma count_insert stats t v u :
  count (<[t := v]> stats) u = if bool_decide (t = u) then v else count stats u.
Proof.
  unfold count. destruct (decide (t = u)) as [->|H].
  - rewrite lookup_insert_eq, bool_decide_eq_true_2 by reflexivity. reflexivity.
  - rewrite lookup_insert_ne, bool_decide_eq_false_2 by exact H. reflexivity.
Qed.

Lemma count_empty t : count ∅ t = 0.
Proof. unfold count. rewrite lookup_empty. reflexivity. Qed.

(** Writing a type through a valid pointer moves one district from its
    old type to the new one. *)
Lemma countType_update ds i u t :
  (i < length ds)%nat ->
  countType t (update i (setType u) ds) =
  countType t ds
  - (if bool_decide (dType (deref ds i) = t) then 1 else 0)
  + (if bool_decide (u = t) then 1 else 0).
Proof.
  intros Hi. unfold update.
  destruct (lookup_lt_is_Some_2 ds i Hi) as [x Hx].
  assert (Hd : deref ds i = x) by (unfold deref; apply nth_lookup_Some, Hx).
  rewrite Hd, insert_take_drop by exact Hi.
  rewrite <- (take_drop_middle ds i x Hx) at 3.
  rewrite !countType_fmap, !fmap_app, !fmap_cons, !occurrences_app.
  change (dType (setType u x) :: (dType <$> drop (S i) ds))
    with ([u] ++ (dType <$> drop (S i) ds)).
  change (dType x :: (dType <$> drop (S i) ds))
    with ([dType x] ++ (dType <$> drop (S i) ds)).
  rewrite !occurrences_app, !occurrences_one. lia.
Qed.

Lemma dType_update_same ds i u :
  (i < length ds)%nat -> dType (deref (update i (setType u) ds) i) = u.
Proof. intros H. rewrite deref_update_same by exact H. reflexivity. Qed.

(** *** The minimum of every type *)

Lemma addMinimums_fold bcfg stats :
  addMinimums bcfg stats = fold_left (addMinimum bcfg stats) allDistricts ([], ∅).
Proof. reflexivity. Qed.

Lemma iter_minimum typ k : forall dt ts t,
  let r := Nat.iter k
             (fun acc : list DistrictType * gmap DistrictType Z =>
                let '(dtypes, tempStats) := acc in
                (dtypes ++ [typ], <[typ := count tempStats typ + 1]> tempStats))
             (dt, ts) in
  occurrences t r.1 =
    occurrences t dt + (if bool_decide (typ = t) then Z.of_nat k else 0) /\
  count r.2 t = count ts t + (if bool_decide (typ = t) then Z.of_nat k else 0).
Proof.
  induction k as [|k IH]; intros dt ts t; cbn zeta.
  - cbn [Nat.iter nat_rect fst snd]. destruct (bool_decide _); lia.
  - rewrite Nat.iter_succ. specialize (IH dt ts t). cbn zeta in IH.
    destruct (Nat.iter k _ (dt, ts)) as [dt1 ts1]. cbn [fst snd] in *.
    destruct IH as [IH1 IH2].
    rewrite occurrences_app, occurrences_one, count_insert, IH1.
    destruct (decide (typ = t)) as [->|Hne].
    + rewrite !bool_decide_eq_true_2 in * by reflexivity. lia.
    + rewrite !bool_decide_eq_false_2 in * by exact Hne. lia.
Qed.

Lemma addMinimum_spec bcfg stats acc typ t :
  let r := addMinimum bcfg stats acc typ in
  occurrences t r.1 =
    occurrences t acc.1 + (if bool_decide (typ = t) then needOf bcfg stats t else 0) /\
  count r.2 t =
    count acc.2 t + (if bool_decide (typ = t) then needOf bcfg stats t else 0).
Proof.
  cbn zeta. unfold addMinimum, needOf.
  destruct (decide (typ = t)) as [->|Hne].
  - rewrite !bool_decide_eq_true_2 by reflexivity.
    destruct (bcfg !! t) as [dc|]; [|lia].
    destruct acc as [dt ts].
    destruct (iter_minimum t (Z.to_nat (MinInCity dc - count stats t)) dt ts t)
      as [H1 H2].
    rewrite bool_decide_eq_true_2 in H1, H2 by reflexivity.
    cbn [fst snd] in *. rewrite H1, H2. lia.
  - rewrite !bool_decide_eq_false_2 by exact Hne.
    destruct (bcfg !! typ) as [dc|]; [|lia].
    destruct acc as [dt ts].
    destruct (iter_minimum typ (Z.to_nat (MinInCity dc - count stats typ))
                dt ts t) as [H1 H2].
    rewrite bool_decide_eq_false_2 in H1, H2 by exact Hne.
    cbn [fst snd] in *. lia.
Qed.

Lemma addMinimum_fold bcfg stats l : forall acc t,
  NoDup l ->
  let r := fold_left (addMinimum bcfg stats) l acc in
  occurrences t r.1 =
    occurrences t acc.1 + (if bool_decide (t ∈ l) then needOf bcfg stats t else 0) /\
  count r.2 t =
    count acc.2 t + (if bool_decide (t ∈ l) then needOf bcfg stats t else 0).
Proof.
  induction l as [|typ l IH]; intros acc t Hnd; cbn zeta.
  - cbn [fold_left]. rewrite bool_decide_eq_false_2 by apply not_elem_of_nil.
    lia.
  - apply NoDup_cons in Hnd as [Hnotin Hnd]. cbn [fold_left].
    destruct (IH (addMinimum bcfg stats acc typ) t Hnd) as [H1 H2].
    destruct (addMinimum_spec bcfg stats acc typ t) as [K1 K2].
    cbn zeta in *. rewrite H1, H2, K1, K2.
    destruct (decide (typ = t)) as [->|Hne].
    + rewrite bool_decide_eq_true_2 by reflexivity.
      rewrite (bool_decide_eq_false_2 (t ∈ l)) by exact Hnotin.
      rewrite (bool_decide_eq_true_2 (t ∈ t :: l)) by left. lia.
    + rewrite (bool_decide_eq_false_2 (typ = t)) by exact Hne.
      destruct (decide (t ∈ l)) as [Hin | Hin].
      * rewrite (bool_decide_eq_true_2 (t ∈ l)) by exact Hin.
        rewrite (bool_decide_eq_true_2 (t ∈ typ :: l)) by (right; exact Hin).
        lia.
      * rewrite (bool_decide_eq_false_2 (t ∈ l)) by exact Hin.
        rewrite (bool_decide_eq_false_2 (t ∈ typ :: l)); [lia|].
        intros H. apply elem_of_cons in H as [H | H]; congruence.
Qed.

Lemma allDistricts_NoDup : NoDup allDistricts.
Proof. refine (bool_decide_unpack _ _). vm_compute. exact I. Qed.

Lemma allDistricts_all t : t ∈ allDistricts.
Proof. refine (bool_decide_unpack _ _). destruct t; vm_compute; exact I. Qed.

(** After the first loop every configured type is there exactly as
    often as its minimum asks for, and the temporary counts say so. *)
Lemma addMinimums_spec bcfg stats t :
  occurrences t (addMinimums bcfg stats).1 = needOf bcfg stats t /\
  count (addMinimums bcfg stats).2 t = needOf bcfg stats t.
Proof.
  rewrite addMinimums_fold.
  destruct (addMinimum_fold bcfg stats allDistricts ([], ∅) t allDistricts_NoDup)
    as [H1 H2].
  cbn zeta in *. rewrite H1, H2.
  rewrite bool_decide_eq_true_2 by apply allDistricts_all.
  cbn [fst snd]. rewrite count_empty. unfold occurrences. cbn. lia.
Qed.

(** *** The random fill *)

Lemma drawUntil_ok ok ds t rest :
  drawUntil ok ds = Some (t, rest) -> ok t = true.
Proof.
  induction ds as [|u ds IH]; cbn [drawUntil]; [discriminate|].
  destruct (ok u) eqn:Hu; [|exact IH].
  intros H. injection H as <- _. exact Hu.
Qed.

Lemma fillRandom_spec bcfg stats k : forall dt temp rnd dt' rest,
  (forall t, count temp t = occurrences t dt) ->
  respects bcfg (fun t => count stats t + occurrences t dt) ->
  fillRandom k bcfg stats dt temp rnd = Some (dt', rest) ->
  respects bcfg (fun t => count stats t + occurrences t dt') /\
  length dt' = (length dt + k)%nat.
Proof.
  induction k as [|k IH]; intros dt temp rnd dt' rest Htemp Hres Hrun;
    cbn [fillRandom] in Hrun.
  - injection Hrun as <- _. split; [exact Hres | lia].
  - destruct (drawUntil (acceptable bcfg stats temp) rnd) as [[t rnd1]|] eqn:Hd;
      [|discriminate].
    apply drawUntil_ok in Hd. unfold acceptable in Hd.
    destruct (bcfg !! t) as [dc|] eqn:Hcfg; [|discriminate].
    apply negb_true_iff, andb_false_iff in Hd.
    apply IH in Hrun as [H1 H2].
    + split; [exact H1|]. rewrite H2, length_app. cbn [length]. lia.
    + intros u. rewrite count_insert, occurrences_app, occurrences_one.
      destruct (decide (t = u)) as [->|Hne];
        [rewrite !bool_decide_eq_true_2 by reflexivity
        |rewrite !bool_decide_eq_false_2 by exact Hne];
        rewrite Htemp; lia.
    + intros u dcu Hu. destruct (Hres u dcu Hu) as [Hlo Hhi].
      rewrite occurrences_app, occurrences_one.
      destruct (decide (t = u)) as [->|Hne].
      * rewrite bool_decide_eq_true_2 by reflexivity.
        assert (dcu = dc) as -> by congruence.
        split; [lia|]. intros Hmax. rewrite Htemp in Hd.
        destruct Hd as [Hd | Hd]; [apply Z.ltb_ge in Hd; lia|].
        apply Z.leb_gt in Hd. lia.
      * rewrite bool_decide_eq_false_2 by exact Hne.
        split; [lia|]. intros Hmax. specialize (Hhi Hmax). lia.
Qed.

(** *** Placing the sites and zipping the types onto them *)

Lemma placeSites_spec n : forall attempts desired ds toSet,
  exists new,
    placeSites n attempts desired ds toSet =
    (ds ++ new, toSet ++ seq (length ds) (length new)).
Proof.
  induction n as [|n IH]; intros attempts desired ds toSet; cbn [placeSites].
  - exists []. cbn. rewrite !app_nil_r. reflexivity.
  - destruct (_ <=? _).
    { exists []. cbn. rewrite !app_nil_r. reflexivity. }
    destruct attempts as [|[site|] attempts].
    + exists []. cbn. rewrite !app_nil_r. reflexivity.
    + destruct (IH attempts desired
                  (ds ++ [newDistrict (Z.of_nat (length ds)) site Empty])
                  (toSet ++ [length ds])) as (new & ->).
      exists (newDistrict (Z.of_nat (length ds)) site Empty :: new).
      rewrite <- !app_assoc, length_app. cbn [app length seq].
      replace (length ds + 1)%nat with (S (length ds)) by lia. reflexivity.
    + apply IH.
Qed.

Lemma zipTypes_spec toSet : forall dtypes ds stats,
  NoDup toSet ->
  length toSet = length dtypes ->
  Forall (fun i => (i < length ds)%nat) toSet ->
  let r := zipTypes toSet dtypes ds stats in
  length r.1 = length ds /\
  (fun i => dType (deref r.1 i)) <$> toSet = dtypes /\
  (forall i, i ∉ toSet -> deref r.1 i = deref ds i) /\
  (forall t, count r.2 t = count stats t + occurrences t dtypes).
Proof.
  induction toSet as [|d toSet IH]; intros dtypes ds stats Hnd Hlen Hval;
    destruct dtypes as [|t dtypes]; try discriminate Hlen; cbn zeta.
  - cbn. repeat split; auto. intros t. unfold occurrences. cbn. lia.
  - cbn [zipTypes]. apply NoDup_cons in Hnd as [Hd Hnd].
    apply Forall_cons in Hval as [Hdv Hval].
    destruct (IH dtypes (update d (setType t) ds) (increment stats t) Hnd)
      as (H1 & H2 & H3 & H4).
    + cbn [length] in Hlen. lia.
    + eapply List.Forall_impl; [|exact Hval]. cbn beta. intros a Ha.
      rewrite length_update. exact Ha.
    + cbn zeta in *. rewrite length_update in H1. repeat split.
      * exact H1.
      * cbn [fmap list_fmap]. f_equal; [|exact H2].
        rewrite (H3 d Hd). apply dType_update_same. exact Hdv.
      * intros i Hi. rewrite H3.
        -- apply deref_update_other. intros ->. apply Hi. left.
        -- intros Hin. apply Hi. right. exact Hin.
      * intros u. rewrite H4. unfold increment. rewrite count_insert.
        change (t :: dtypes) with ([t] ++ dtypes).
        rewrite occurrences_app, occurrences_one.
        destruct (decide (t = u)) as [->|Hne];
          [rewrite !bool_decide_eq_true_2 by reflexivity
          |rewrite !bool_decide_eq_false_2 by exact Hne]; lia.
Qed.

Lemma dType_by_index (ds : list District) :
  dType <$> ds = (fun i => dType (deref ds i)) <$> seq 0 (length ds).
Proof.
  apply list_eq. intros i. rewrite !list_lookup_fmap.
  destruct (decide (i < length ds)%nat) as [Hlt | Hge].
  - rewrite lookup_seq_lt by exact Hlt.
    destruct (lookup_lt_is_Some_2 ds i Hlt) as [x Hx]. rewrite Hx. cbn.
    unfold deref. rewrite (nth_lookup_Some _ _ _ _ Hx). reflexivity.
  - rewrite lookup_seq_ge, lookup_ge_None_2 by lia. reflexivity.
Qed.

(** When the pointers are all the districts, the districts carry
    exactly the zipped types. *)
Lemma zipTypes_counts toSet dtypes ds stats t :
  Permutation (seq 0 (length ds)) toSet ->
  length toSet = length dtypes ->
  let r := zipTypes toSet dtypes ds stats in
  countType t r.1 = occurrences t dtypes /\
  count r.2 t = count stats t + occurrences t dtypes /\
  length r.1 = length ds.
Proof.
  intros Hperm Hlen.
  assert (Hnd : NoDup toSet).
  { rewrite <- Hperm. apply NoDup_seq. }
  assert (Hval : Forall (fun i => (i < length ds)%nat) toSet).
  { apply List.Forall_forall. intros i Hi.
    apply (Permutation_in _ (Permutation_sym Hperm)), in_seq in Hi. lia. }
  destruct (zipTypes_spec toSet dtypes ds stats Hnd Hlen Hval)
    as (H1 & H2 & _ & H4).
  cbn zeta in *. repeat split; [|apply H4 | exact H1].
  rewrite countType_fmap, dType_by_index, H1.
  rewrite (occurrences_perm t _ _ (fmap_Permutation _ _ _ Hperm)).
  rewrite H2. reflexivity.
Qed.

(** *** The repair of the docks *)

Lemma dType_update_stat ds d k :
  dType <$> update d (addDockSuitable k) ds = dType <$> ds.
Proof.
  unfold update. rewrite list_fmap_insert. apply list_insert_id'.
  rewrite length_fmap. intros Hlt. rewrite list_lookup_fmap.
  destruct (lookup_lt_is_Some_2 ds d Hlt) as [x Hx]. rewrite Hx. cbn.
  unfold deref. rewrite (nth_lookup_Some _ _ _ _ Hx). reflexivity.
Qed.

Lemma dType_deref ds ds' d :
  dType <$> ds = dType <$> ds' -> dType (deref ds d) = dType (deref ds' d).
Proof.
  intros H.
  assert (Hl : forall l : list District,
             dType (deref l d) = default Empty ((dType <$> l) !! d)).
  { intros l. unfold deref. rewrite nth_lookup, list_lookup_fmap.
    destruct (l !! d); reflexivity. }
  rewrite !Hl, H. reflexivity.
Qed.

Lemma countType_same_types t ds ds' :
  dType <$> ds = dType <$> ds' -> countType t ds = countType t ds'.
Proof. intros H. rewrite !countType_fmap, H. reflexivity. Qed.

Lemma collectStep_cases M dockCells ds0 docks0 pot0 d :
  let ds1 := update d (addDockSuitable (dockCells (dID (deref ds0 d)))) ds0 in
  (collectStep M dockCells (ds0, docks0, pot0) d = (ds1, docks0 ++ [d], pot0) /\
   dType (deref ds0 d) = Docks) \/
  collectStep M dockCells (ds0, docks0, pot0) d = (ds1, docks0, pot0 ++ [d]) \/
  collectStep M dockCells (ds0, docks0, pot0) d = (ds1, docks0, pot0).
Proof.
  cbn zeta. unfold collectStep.
  set (ds1 := update d (addDockSuitable (dockCells (dID (deref ds0 d)))) ds0).
  assert (Hd : dType (deref ds1 d) = dType (deref ds0 d))
    by (apply dType_deref, dType_update_stat).
  destruct (bool_decide (dType (deref ds1 d) = Docks) &&
            (dDockSuitable (deref ds1 d) <? M)) eqn:Hdock.
  - left. split; [reflexivity|].
    apply andb_true_iff in Hdock as [Hdock _].
    apply bool_decide_eq_true in Hdock. congruence.
  - destruct (negb (bool_decide (dType (deref ds1 d) = Docks)) &&
              (M <=? dDockSuitable (deref ds1 d))); auto.
Qed.

(** Step 0 changes no type; the docks it collects are districts of type
    Docks among the added ones, each once. *)
Lemma collectDocks_fold M dockCells l : forall ds0 docks0 pot0,
  let r := fold_left (collectStep M dockCells) l (ds0, docks0, pot0) in
  dType <$> r.1.1 = dType <$> ds0 /\
  exists dk pk,
    r.1.2 = docks0 ++ dk /\ r.2 = pot0 ++ pk /\
    dk `sublist_of` l /\ pk `sublist_of` l /\
    Forall (fun d => dType (deref ds0 d) = Docks) dk.
Proof.
  induction l as [|d l IH]; intros ds0 docks0 pot0; cbn zeta.
  - cbn [fold_left fst snd]. split; [reflexivity|].
    exists [], []. rewrite !app_nil_r. repeat split; constructor.
  - cbn [fold_left].
    pose proof (dType_update_stat ds0 d (dockCells (dID (deref ds0 d)))) as Hty.
    assert (Hkeep : forall dk,
               Forall (fun a => dType (deref
                 (update d (addDockSuitable (dockCells (dID (deref ds0 d)))) ds0)
                 a) = Docks) dk ->
               Forall (fun a => dType (deref ds0 a) = Docks) dk).
    { intros dk H. eapply List.Forall_impl; [|exact H]. cbn beta. intros a Ha.
      rewrite <- Ha. symmetry. apply dType_deref. exact Hty. }
    destruct (collectStep_cases M dockCells ds0 docks0 pot0 d)
      as [[-> HD] | [-> | ->]];
      match goal with |- context [fold_left _ l (?a, ?b, ?c)] =>
        destruct (IH a b c) as (H1 & dk & pk & H2 & H3 & H4 & H5 & H6) end;
      cbn zeta in *; (split; [rewrite H1; exact Hty|]).
    + exists (d :: dk), pk. rewrite H2, H3, <- app_assoc.
      repeat split; [constructor; exact H4 | constructor; exact H5 |].
      constructor; [exact HD | apply Hkeep, H6].
    + exists dk, (d :: pk). rewrite H2, H3, <- app_assoc.
      repeat split; [constructor; exact H4 | constructor; exact H5 |].
      apply Hkeep, H6.
    + exists dk, pk. rewrite H2, H3.
      repeat split; [constructor; exact H4 | constructor; exact H5 |].
      apply Hkeep, H6.
Qed.

(** Swapping the type of a dock with another district changes no
    count. *)
Lemma swap_counts ds d last t :
  (d < length ds)%nat -> (last < length ds)%nat ->
  dType (deref ds d) = Docks ->
  countType t
    (update d (setType (dType (deref ds last)))
       (update last (setType Docks) ds)) = countType t ds.
Proof.
  intros Hd Hl HD.
  rewrite countType_update by (rewrite length_update; exact Hd).
  rewrite countType_update by exact Hl.
  assert (dType (deref (update last (setType Docks) ds) d) = Docks) as ->.
  { destruct (decide (last = d)) as [->|Hne].
    - apply dType_update_same. exact Hl.
    - rewrite deref_update_other by exact Hne. exact HD. }
  lia.
Qed.

Lemma fixDocks_spec bcfg docks : forall potentialdock b b',
  repairable bcfg docks potentialdock b ->
  fixDocks bcfg docks potentialdock b = Done b' ->
  consistent b' /\ respects bcfg (fun t => countType t (Districts b')).
Proof.
  induction docks as [|d docks IH];
    intros pot b b' (Hnd & Hdocks & Hpot & Hcons & Hres) Hrun;
    cbn [fixDocks] in Hrun.
  - injection Hrun as <-. auto.
  - apply NoDup_cons in Hnd as [Hd Hnd].
    apply Forall_cons in Hdocks as [[Hdv HdD] Hdocks].
    rewrite List.Forall_forall in Hdocks.
    destruct pot as [|last pot].
    + (* no swap is left: give the district another type *)
      destruct (_ <? count (Stats b) Docks) eqn:Hmin; [|discriminate].
      apply Z.ltb_lt in Hmin.
      destruct (drawUntil (replacement bcfg (Stats b)) (draws b))
        as [[t rest]|] eqn:Hdraw; [|discriminate].
      apply drawUntil_ok in Hdraw. unfold replacement in Hdraw.
      destruct (decide (t = Docks)) as [HtD | HtD];
        [rewrite bool_decide_eq_true_2 in Hdraw by exact HtD; discriminate|].
      rewrite bool_decide_eq_false_2 in Hdraw by exact HtD.
      destruct (bcfg !! t) as [dc|] eqn:Hcfg; [|discriminate].
      apply negb_true_iff, andb_false_iff in Hdraw.
      apply IH in Hrun; [exact Hrun|]. unfold repairable. cbn [Districts Stats].
      assert (Hcount : forall u,
                 countType u (update d (setType t) (Districts b)) =
                 countType u (Districts b)
                 - (if bool_decide (Docks = u) then 1 else 0)
                 + (if bool_decide (t = u) then 1 else 0)).
      { intros u. rewrite countType_update by exact Hdv. rewrite HdD.
        reflexivity. }
      split; [exact Hnd|]. split; [|split; [constructor|split]].
      * apply List.Forall_forall. intros d' Hd'.
        destruct (Hdocks d' Hd') as [Hv HD']. rewrite length_update.
        split; [exact Hv|]. rewrite deref_update_other; [exact HD'|].
        intros ->. apply Hd. apply list_elem_of_In. exact Hd'.
      * intros u. unfold consistent in Hcons. cbn [Districts Stats].
        rewrite Hcount. unfold decrement, increment.
        rewrite !count_insert.
        rewrite (bool_decide_eq_false_2 (t = Docks)) by exact HtD.
        rewrite <- !Hcons.
        destruct (decide (Docks = u)) as [<-|HDu].
        -- rewrite (bool_decide_eq_true_2 (Docks = Docks)) by reflexivity.
           rewrite (bool_decide_eq_false_2 (t = Docks)) by exact HtD. lia.
        -- rewrite (bool_decide_eq_false_2 (Docks = u)) by exact HDu.
           destruct (decide (t = u)) as [<-|Htu];
             [rewrite !bool_decide_eq_true_2 by reflexivity
             |rewrite !bool_decide_eq_false_2 by exact Htu]; lia.
      * intros u dcu Hu. rewrite Hcount.
        destruct (Hres u dcu Hu) as [Hlo Hhi].
        destruct (decide (Docks = u)) as [<-|HDu].
        -- rewrite (bool_decide_eq_true_2 (Docks = Docks)) by reflexivity.
           rewrite (bool_decide_eq_false_2 (t = Docks)) by exact HtD.
           rewrite Hu in Hmin. rewrite Hcons in Hmin.
           split; [lia|]. intros Hmax. specialize (Hhi Hmax). lia.
        -- rewrite (bool_decide_eq_false_2 (Docks = u)) by exact HDu.
           destruct (decide (t = u)) as [<-|Htu].
           ++ rewrite (bool_decide_eq_true_2 (t = t)) by reflexivity.
              assert (dcu = dc) as -> by congruence.
              split; [lia|]. intros Hmax. rewrite Hcons in Hdraw.
              destruct Hdraw as [Hdraw | Hdraw];
                [apply Z.ltb_ge in Hdraw; lia|].
              apply Z.leb_gt in Hdraw. lia.
           ++ rewrite (bool_decide_eq_false_2 (t = u)) by exact Htu.
              split; [lia|]. intros Hmax. specialize (Hhi Hmax). lia.
    + (* swap with a district that could be a dock *)
      apply Forall_cons in Hpot as [Hlv Hpot].
      apply IH in Hrun; [exact Hrun|]. unfold repairable. cbn [Districts Stats].
      assert (Hcount : forall u,
                 countType u
                   (update d (setType (dType (deref (Districts b) last)))
                      (update last (setType Docks) (Districts b))) =
                 countType u (Districts b))
        by (intros u; apply swap_counts; assumption).
      split; [exact Hnd|]. split; [|split; [|split]].
      * apply List.Forall_forall. intros d' Hd'.
        destruct (Hdocks d' Hd') as [Hv HD']. rewrite !length_update.
        split; [exact Hv|].
        rewrite deref_update_other
          by (intros ->; apply Hd; apply list_elem_of_In; exact Hd').
        destruct (decide (last = d')) as [->|Hne].
        -- apply dType_update_same. exact Hv.
        -- rewrite deref_update_other by exact Hne. exact HD'.
      * eapply List.Forall_impl; [|exact Hpot]. cbn beta. intros a Ha.
        rewrite !length_update. exact Ha.
      * intros u. unfold consistent in Hcons. cbn [Districts Stats].
        rewrite Hcount. apply Hcons.
      * intros u dcu Hu. rewrite Hcount. apply Hres. exact Hu.
Qed.

(** *** The whole assignment *)

Section Sorting.

Variable sortSlice : (nat -> nat -> bool) -> list nat -> list nat.
Variable sortTypes :
  (DistrictType -> DistrictType -> bool) -> list DistrictType ->
  list DistrictType.

(** [sort.Slice] rearranges the slice it is given. *)
Hypothesis sortSlice_perm :
  forall less l, Permutation l (sortSlice less l).
Hypothesis sortTypes_perm :
  forall less l, Permutation l (sortTypes less l).

Lemma randomDistricts_spec bcfg cfg attempts rnd b added :
  randomDistricts sortSlice sortTypes bcfg cfg attempts (mkBuild [] ∅ rnd)
  = Done (b, added) ->
  Districts b = [] \/
  (consistent b /\
   respects bcfg (fun t => countType t (Districts b)) /\
   Permutation (seq 0 (length (Districts b))) added).
Proof using sortSlice_perm sortTypes_perm.
  unfold randomDistricts. cbn [Districts Stats draws].
  destruct (_ <=? _); [intros H; injection H as <- _; left; reflexivity|].
  destruct (addMinimums bcfg ∅) as [dt0 temp0] eqn:Hmin.
  destruct (placeSites_spec (Z.to_nat (DesiredDistricts cfg * 5)) attempts
              (DesiredDistricts cfg) [] []) as (new & ->).
  cbn [app length].
  destruct (Nat.ltb_spec (length (seq 0 (length new))) (length dt0))
    as [Hlt | Hge]; [discriminate|].
  destruct (fillRandom _ bcfg ∅ dt0 temp0 rnd) as [[dt rest]|] eqn:Hfill;
    [|discriminate].
  set (toSet := walls.sortDistrictsByDistance sortSlice new (Centre cfg)
                  (seq 0 (length new))).
  set (dtypes := sortTypesByDesirability sortTypes dt).
  destruct (zipTypes toSet dtypes new ∅) as [ds stats] eqn:Hzip.
  intros H. injection H as <- <-. right. cbn [Districts Stats].
  assert (Hm : forall t, occurrences t dt0 = needOf bcfg ∅ t /\
                         count temp0 t = needOf bcfg ∅ t).
  { intros t. pose proof (addMinimums_spec bcfg ∅ t) as H.
    rewrite Hmin in H. exact H. }
  apply fillRandom_spec in Hfill as [Hres Hlen].
  2:{ intros t. destruct (Hm t) as [-> ->]. reflexivity. }
  2:{ intros t dc Hc. destruct (Hm t) as [-> _]. unfold needOf.
      rewrite Hc, count_empty. split; [lia|]. intros Hmax. lia. }
  assert (Hperm : Permutation (seq 0 (length new)) toSet)
    by apply sortSlice_perm.
  assert (Hpt : Permutation dt dtypes) by apply sortTypes_perm.
  assert (Hlen2 : length toSet = length dtypes).
  { rewrite <- (Permutation_length Hperm), <- (Permutation_length Hpt), Hlen.
    lia. }
  assert (Hz : forall t,
             countType t ds = occurrences t dt /\
             count stats t = occurrences t dt /\ length ds = length new).
  { intros t.
    destruct (zipTypes_counts toSet dtypes new ∅ t Hperm Hlen2)
      as (H1 & H2 & H3).
    cbn zeta in *. rewrite Hzip in H1, H2, H3. cbn [fst snd] in *.
    rewrite count_empty in H2.
    rewrite <- (occurrences_perm t dt dtypes Hpt) in H1, H2.
    repeat split; [exact H1 | lia | exact H3]. }
  split; [|split].
  - intros t. cbn [Districts Stats]. destruct (Hz t) as (-> & -> & _).
    reflexivity.
  - intros t dc Hc. destruct (Hz t) as (-> & _ & _).
    destruct (Hres t dc Hc) as [Hlo Hhi]. rewrite count_empty in Hlo, Hhi.
    split; [lia|]. intros Hmax. specialize (Hhi Hmax). lia.
  - destruct (Hz Empty) as (_ & _ & ->). exact Hperm.
Qed.

Lemma verifyDistrictLocations_spec bcfg cfg dockCells added b b' :
  Permutation (seq 0 (length (Districts b))) added ->
  consistent b ->
  respects bcfg (fun t => countType t (Districts b)) ->
  verifyDistrictLocations bcfg cfg dockCells added b = Done b' ->
  consistent b' /\ respects bcfg (fun t => countType t (Districts b')).
Proof.
  intros Hperm Hcons Hres. unfold verifyDistrictLocations, collectDocks.
  destruct (collectDocks_fold (MinDockSize cfg) dockCells added (Districts b)
              [] []) as (Hty & dk & pk & H2 & H3 & H4 & H5 & H6).
  cbn zeta in *.
  destruct (fold_left _ added (Districts b, [], [])) as [[ds docks] pot].
  cbn [fst snd app] in *. subst docks pot.
  assert (Hc : forall t, countType t ds = countType t (Districts b))
    by (intros t; apply countType_same_types; exact Hty).
  assert (Hlen : length ds = length (Districts b)).
  { rewrite <- (length_fmap dType ds), Hty. apply length_fmap. }
  assert (Hcons1 : consistent (mkBuild ds (Stats b) (draws b))).
  { intros t. cbn [Districts Stats]. rewrite Hc. apply Hcons. }
  assert (Hres1 : respects bcfg (fun t => countType t ds)).
  { intros t dc Hcfg. rewrite Hc. apply Hres. exact Hcfg. }
  destruct (length dk =? 0)%nat.
  - intros H. injection H as <-. cbn [Districts]. auto.
  - apply fixDocks_spec. unfold repairable. cbn [Districts Stats].
    assert (Hadded : NoDup added) by (rewrite <- Hperm; apply NoDup_seq).
    assert (Hvalid : forall l, l `sublist_of` added ->
                               Forall (fun d => (d < length ds)%nat) l).
    { intros l Hl. apply List.Forall_forall. intros d Hd.
      apply list_elem_of_In in Hd.
      apply (elem_of_sublist _ _ _ Hd) in Hl.
      rewrite <- Hperm in Hl. apply elem_of_seq in Hl. lia. }
    rewrite <- !Permutation_rev.
    split; [eapply sublist_NoDup; eassumption|].
    split; [|split; [|split; assumption]].
    + apply List.Forall_forall. intros d Hd.
      pose proof (Hvalid dk H4) as Hv. rewrite List.Forall_forall in Hv, H6.
      split; [apply Hv, Hd|].
      rewrite (dType_deref ds (Districts b) d Hty). apply H6, Hd.
    + apply Hvalid. exact H5.
Qed.

(** C9 (as amended). For a build without caller-supplied district sites
    that gets through the type assignment and the dock repair without
    error, every configured district type ends with at least its
    [MinInCity] districts, and every configured type whose [MaxInCity]
    is positive and not below its [MinInCity] ends with at most
    [MaxInCity]; the statistics count the same. *)
Theorem buildTypes_within_bounds (bcfg : gmap DistrictType DistrictConfig)
    (cfg : CityConfig) (attempts : list (option Point)) (dockCells : Z -> Z)
    (rnd : list DistrictType) (b : Build) :
  buildTypes sortSlice sortTypes bcfg cfg attempts dockCells rnd = Done b ->
  forall t dc, bcfg !! t = Some dc ->
    MinInCity dc <= countType t (Districts b) /\
    (0 < MaxInCity dc -> MinInCity dc <= MaxInCity dc ->
     countType t (Districts b) <= MaxInCity dc) /\
    count (Stats b) t = countType t (Districts b).
Proof using sortSlice_perm sortTypes_perm.
  unfold buildTypes.
  destruct (randomDistricts _ _ bcfg cfg attempts (mkBuild [] ∅ rnd))
    as [[b0 added]| |] eqn:Hrand; try discriminate.
  destruct (length (Districts b0) =? 0)%nat eqn:Hn; [discriminate|].
  apply Nat.eqb_neq in Hn.
  apply randomDistricts_spec in Hrand as [Hnil | (Hcons & Hres & Hperm)].
  { rewrite Hnil in Hn. cbn in Hn. congruence. }
  intros Hrun t dc Hcfg.
  destruct (verifyDistrictLocations_spec bcfg cfg dockCells added b0 b
              Hperm Hcons Hres Hrun) as [Hcons' Hres'].
  destruct (Hres' t dc Hcfg) as [Hlo Hhi].
  repeat split; [exact Hlo | | apply Hcons'].
  intros Hmax Hle. specialize (Hhi Hmax). lia.
Qed.

End Sorting.

(** An instance of C9: the build of parks and docks ends with two parks,
    after the one district drawn as docks was given another type. *)
Lemma buildTypes_within_bounds_witness :
  1 <= countType Park (Districts (samples.builtOf samples.smallBuild)) /\
  (0 < 2 -> 1 <= 2 ->
   countType Park (Districts (samples.builtOf samples.smallBuild)) <= 2) /\
  count (Stats (samples.builtOf samples.smallBuild)) Park
  = countType Park (Districts (samples.builtOf samples.smallBuild)).
Proof.
  apply (buildTypes_within_bounds samples.sortBy samples.sortBy
           (fun less l => sortBy_perm less l)
           (fun less l => sortBy_perm less l)
           samples.parksAndDocks samples.fourDistricts
           [Some (Pt 3 3); None; Some (Pt 8 8)] (fun _ => 0)
           [Docks; Park; Park] (samples.builtOf samples.smallBuild)
           ltac:(vm_compute; reflexivity)
           Park (mkDistrictConfig 2 1 false false)
           ltac:(vm_compute; reflexivity)).
Defined.

Example smallBuild_run :
  dType <$> Districts (samples.builtOf samples.smallBuild) = [Park; Park].
Proof. vm_compute. reflexivity. Qed.

(** C9, the claim as stated, fails: with a minimum of two parks and a
    maximum of one the build goes through and ends with two parks. *)
Lemma buildTypes_exceeds_maximum :
  samples.overfullBuild = Done (samples.builtOf samples.overfullBuild) /\
  ~ withinBounds samples.twoParksAtMostOne
      (Districts (samples.builtOf samples.overfullBuild)).
Proof.
  split.
  - vm_compute. reflexivity.
  - intros H.
    destruct (H Park (mkDistrictConfig 1 2 false false)) as [_ Hmax].
    + vm_compute. reflexivity.
    + assert (Hc := Hmax ltac:(cbn; lia)). vm_compute in Hc.
      apply Hc. reflexivity.
Qed.

End districts_facts.

Module raster_facts.
Import line raster.

Lemma stepLoop_shape n : forall x y sx sy,
  length (stepLoop n x y sx sy) = S n /\
  hd image.ZP (stepLoop n x y sx sy) = Pt x y /\
  List.last (stepLoop n x y sx sy) image.ZP =
    Pt (x + Z.of_nat n * sx) (y + Z.of_nat n * sy).
Proof.
  induction n as [|n IH]; intros x y sx sy.
  - cbn. repeat split. f_equal; lia.
  - destruct (IH (x + sx) (y + sy) sx sy) as (Hl & Hh & Hla).
    cbn [stepLoop length hd]. rewrite Hl. repeat split.
    change (List.last (Pt x y :: stepLoop n (x + sx) (y + sy) sx sy) image.ZP)
      with (match stepLoop n (x + sx) (y + sy) sx sy with
            | [] => Pt x y
            | _ :: _ => List.last (stepLoop n (x + sx) (y + sy) sx sy) image.ZP
            end).
    destruct (stepLoop n (x + sx) (y + sy) sx sy) eqn:E; [discriminate|].
    rewrite Hla. f_equal; lia.
Qed.

Lemma wideLoop_shape n : forall x1 y1 e dy slope sy x2 y2,
  length (wideLoop n x1 y1 e dy slope sy x2 y2) = S n /\
  hd image.ZP (wideLoop n x1 y1 e dy slope sy x2 y2) =
    (if (n =? 0)%nat then Pt x2 y2 else Pt x1 y1) /\
  List.last (wideLoop n x1 y1 e dy slope sy x2 y2) image.ZP = Pt x2 y2.
Proof.
  induction n as [|n IH]; intros x1 y1 e dy slope sy x2 y2.
  - cbn. auto.
  - cbn [wideLoop]. cbn zeta.
    destruct (e - dy <? 0);
      match goal with |- context [wideLoop n ?a ?b ?c ?d ?f ?g ?h ?i] =>
        destruct (IH a b c d f g h i) as (Hl & _ & Hla);
        destruct (wideLoop n a b c d f g h i) eqn:E; [discriminate|] end;
      cbn [length hd Nat.eqb] in *; rewrite Hl; repeat split;
      cbn [List.last] in *; exact Hla.
Qed.

Lemma highLoop_shape n : forall x1 y1 e dx slope sy x2 y2,
  length (highLoop n x1 y1 e dx slope sy x2 y2) = S n /\
  hd image.ZP (highLoop n x1 y1 e dx slope sy x2 y2) =
    (if (n =? 0)%nat then Pt x2 y2 else Pt x1 y1) /\
  List.last (highLoop n x1 y1 e dx slope sy x2 y2) image.ZP = Pt x2 y2.
Proof.
  induction n as [|n IH]; intros x1 y1 e dx slope sy x2 y2.
  - cbn. auto.
  - cbn [highLoop]. cbn zeta.
    destruct (e - dx <? 0);
      match goal with |- context [highLoop n ?a ?b ?c ?d ?f ?g ?h ?i] =>
        destruct (IH a b c d f g h i) as (Hl & _ & Hla);
        destruct (highLoop n a b c d f g h i) eqn:E; [discriminate|] end;
      cbn [length hd Nat.eqb] in *; rewrite Hl; repeat split;
      cbn [List.last] in *; exact Hla.
Qed.


(** X1. [PointsBetween] does not keep the direction: the path from
    [a] to [b] is the path from [b] to [a], point for point.
    [bresenham] orders the two ends by x, and a vertical line by y,
    before it plots. *)
Theorem PointsBetween_sym (a b : Point) :
  PointsBetween a b = PointsBetween b a.
Proof.
  destruct a as [ax ay], b as [bx by_]. unfold PointsBetween, bresenham.
  cbn [image.X image.Y].
  destruct (Z.ltb_spec bx ax) as [H1 | H1], (Z.ltb_spec ax bx) as [H2 | H2];
    try lia; try reflexivity.
  assert (ax = bx) by lia. subst bx. cbn zeta.
  rewrite !Z.eqb_refl, !Z.sub_diag. cbn [andb].
  destruct (Z.eqb_spec ay by_) as [-> | Hne].
  - rewrite Z.eqb_refl. reflexivity.
  - replace (by_ =? ay) with false by (symmetry; apply Z.eqb_neq; lia).
    destruct (Z.ltb_spec (by_ - ay) 0), (Z.ltb_spec (ay - by_) 0),
      (Z.ltb_spec by_ ay), (Z.ltb_spec ay by_); try lia;
      f_equal; lia.
Qed.


(** X2. When [a] is the left one of the two ends (or the upper one
    of a vertical line), the path starts at [a], ends at [b] and has
    one point more than the larger of the two coordinate
    differences. *)
Theorem PointsBetween_ends (a b : Point) :
  leftmost a b ->
  length (PointsBetween a b) =
    S (Z.to_nat (Z.max (image.X b - image.X a)
                       (Z.abs (image.Y b - image.Y a)))) /\
  hd image.ZP (PointsBetween a b) = a /\
  List.last (PointsBetween a b) image.ZP = b.
Proof.
  destruct a as [ax ay], b as [bx by_]. unfold leftmost, PointsBetween, bresenham.
  cbn [image.X image.Y]. intros Hl.
  replace (bx <? ax) with false by (symmetry; apply Z.ltb_ge; lia).
  cbn zeta.
  destruct (Z.eqb_spec ay by_) as [-> | Hy].
  { destruct (Z.eqb_spec ax bx) as [-> | Hx]; cbn [andb].
    { rewrite !Z.sub_diag. cbn. auto. }
    pose proof (stepLoop_shape (Z.to_nat (bx - ax)) ax by_ 1 0)
      as (-> & -> & ->).
    rewrite Z.sub_diag. cbn [Z.abs].
    repeat split; [f_equal; lia | f_equal; lia]. }
  rewrite andb_false_r.
  destruct (Z.eqb_spec ax bx) as [-> | Hx].
  { replace (by_ <? ay) with false by (symmetry; apply Z.ltb_ge; lia).
    replace (by_ - ay <? 0) with false by (symmetry; apply Z.ltb_ge; lia).
    pose proof (stepLoop_shape (Z.to_nat (by_ - ay)) bx ay 0 1)
      as (-> & -> & ->).
    repeat split; [f_equal; lia | f_equal; lia]. }
  assert (Hlt : ax < bx) by lia.
  set (dy := if by_ - ay <? 0 then - (by_ - ay) else by_ - ay).
  assert (Hdy : dy = Z.abs (by_ - ay)) by (subst dy; destruct (Z.ltb_spec (by_ - ay) 0); lia).
  destruct (Z.eqb_spec (bx - ax) dy) as [Hd | Hd].
  { destruct (Z.ltb_spec ay by_) as [Hup | Hdown].
    - pose proof (stepLoop_shape (Z.to_nat (bx - ax)) ax ay 1 1)
        as (-> & -> & ->).
      repeat split; [f_equal; lia | f_equal; lia].
    - pose proof (stepLoop_shape (Z.to_nat (bx - ax)) ax ay 1 (-1))
        as (-> & -> & ->).
      repeat split; [f_equal; lia | f_equal; lia]. }
  destruct (Z.ltb_spec dy (bx - ax)) as [Hw | Hh].
  - destruct (ay <? by_);
      match goal with |- context [wideLoop ?n ?a ?b ?c ?d ?f ?g ?h ?i] =>
        pose proof (wideLoop_shape n a b c d f g h i) as (-> & -> & ->) end;
      (replace (Z.to_nat (bx - ax) =? 0)%nat with false
         by (symmetry; apply Nat.eqb_neq; lia));
      repeat split; f_equal; lia.
  - destruct (ay <? by_);
      match goal with |- context [highLoop ?n ?a ?b ?c ?d ?f ?g ?h ?i] =>
        pose proof (highLoop_shape n a b c d f g h i) as (-> & -> & ->) end;
      (replace (Z.to_nat dy =? 0)%nat with false
         by (symmetry; apply Nat.eqb_neq; lia));
      repeat split; f_equal; lia.
Qed.

Lemma PointsBetween_ends_witness :
  length (PointsBetween (Pt 0 0) (Pt 5 2)) =
    S (Z.to_nat (Z.max (5 - 0) (Z.abs (2 - 0)))) /\
  hd image.ZP (PointsBetween (Pt 0 0) (Pt 5 2)) = Pt 0 0 /\
  List.last (PointsBetween (Pt 0 0) (Pt 5 2)) image.ZP = Pt 5 2.
Proof.
  apply (PointsBetween_ends (Pt 0 0) (Pt 5 2)). left. cbn. lia.
Defined.


Lemma connected_cons p l :
  (l <> [] -> adjacent p (hd image.ZP l)) -> connected l -> connected (p :: l).
Proof.
  destruct l as [|q l]; [intros; exact I|].
  intros H1 H2. cbn [connected hd] in *. split; [apply H1; discriminate | exact H2].
Qed.

Lemma adjacent_step x y sx sy :
  Z.abs sx <= 1 -> Z.abs sy <= 1 -> (sx <> 0 \/ sy <> 0) ->
  adjacent (Pt x y) (Pt (x + sx) (y + sy)).
Proof.
  intros Hx Hy Hne. unfold adjacent. cbn [image.X image.Y].
  repeat split; [lia | lia |]. intros [= H1 H2]. lia.
Qed.

Lemma stepLoop_connected n : forall x y sx sy,
  Z.abs sx <= 1 -> Z.abs sy <= 1 -> (sx <> 0 \/ sy <> 0) ->
  connected (stepLoop n x y sx sy).
Proof.
  induction n as [|n IH]; intros x y sx sy Hx Hy Hne; [exact I|].
  cbn [stepLoop]. apply connected_cons; [|apply IH; assumption].
  intros _. destruct (stepLoop_shape n (x + sx) (y + sy) sx sy) as (_ & -> & _).
  apply adjacent_step; assumption.
Qed.

(** The error term of the "wider than high" loop: with [n] turns to go
    it says how far [y1] still is from [y2]. *)
Lemma wideLoop_connected D dyy sy x2 y2 n : forall x1 y1 e,
  sy = 1 \/ sy = -1 -> 0 < D -> 0 <= dyy < 2 * D -> 0 <= e < 2 * D ->
  x2 = x1 + Z.of_nat n ->
  e = D + Z.of_nat n * dyy - 2 * D * (sy * (y2 - y1)) ->
  connected (wideLoop n x1 y1 e dyy (2 * D) sy x2 y2).
Proof.
  induction n as [|n IH]; intros x1 y1 e Hsy HD Hdy He Hx Heq; [exact I|].
  cbn [wideLoop]. cbn zeta. apply connected_cons.
  - intros _. destruct n as [|n].
    + assert (Hr : 0 <= sy * (y2 - y1) <= 1) by (destruct Hsy; subst sy; nia).
      destruct (e - dyy <? 0); cbn [wideLoop hd];
        (unfold adjacent; cbn [image.X image.Y]; repeat split;
         [lia | destruct Hsy; subst sy; lia
         | intros Hpq; apply (f_equal image.X) in Hpq; cbn in Hpq; lia]).
    + destruct (e - dyy <? 0); cbn [wideLoop hd]; cbn zeta;
        (unfold adjacent; cbn [image.X image.Y]; repeat split;
         [lia | destruct Hsy; subst sy; lia
         | intros Hpq; apply (f_equal image.X) in Hpq; cbn in Hpq; lia]).
  - destruct (Z.ltb_spec (e - dyy) 0) as [Hneg | Hpos]; apply IH;
      try assumption; try lia; destruct Hsy; subst sy; lia.
Qed.

Lemma highLoop_connected D dxx sy x2 y2 n : forall x1 y1 e,
  sy = 1 \/ sy = -1 -> 0 < D -> 0 <= dxx < 2 * D -> 0 <= e < 2 * D ->
  y2 = y1 + sy * Z.of_nat n ->
  e = D + Z.of_nat n * dxx - 2 * D * (x2 - x1) ->
  connected (highLoop n x1 y1 e dxx (2 * D) sy x2 y2).
Proof.
  induction n as [|n IH]; intros x1 y1 e Hsy HD Hdx He Hy Heq; [exact I|].
  cbn [highLoop]. cbn zeta. apply connected_cons.
  - intros _. destruct n as [|n].
    + assert (Hr : 0 <= x2 - x1 <= 1) by nia.
      destruct (e - dxx <? 0); cbn [highLoop hd];
        (unfold adjacent; cbn [image.X image.Y]; repeat split;
         [lia | destruct Hsy; subst sy; lia
         | intros Hpq; apply (f_equal image.Y) in Hpq; cbn in Hpq;
           destruct Hsy; subst sy; lia]).
    + destruct (e - dxx <? 0); cbn [highLoop hd]; cbn zeta;
        (unfold adjacent; cbn [image.X image.Y]; repeat split;
         [lia | destruct Hsy; subst sy; lia
         | intros Hpq; apply (f_equal image.Y) in Hpq; cbn in Hpq;
           destruct Hsy; subst sy; lia]).
  - destruct (Z.ltb_spec (e - dxx) 0) as [Hneg | Hpos]; apply IH;
      try assumption; try lia; destruct Hsy; subst sy; lia.
Qed.

(** X3. The rasterized path is connected and has no repeats: each
    point touches the next one, side by side or corner to corner,
    and no point comes twice. *)
Theorem PointsBetween_connected (a b : Point) :
  connected (PointsBetween a b) /\ List.NoDup (PointsBetween a b).
Proof.
  split; [|apply line_facts.PointsBetween_NoDup].
  unfold PointsBetween, bresenham.
  generalize (image.X a) (image.Y a) (image.X b) (image.Y b).
  intros ax ay bx by_.
  assert (Hgen : forall x1 y1 x2 y2, x1 <= x2 ->
    let dx := x2 - x1 in
    let dy := y2 - y1 in
    let dy := if dy <? 0 then - dy else dy in
    connected
      (if (x1 =? x2) && (y1 =? y2) then [Pt x1 y1]
       else if y1 =? y2 then stepLoop (Z.to_nat dx) x1 y1 1 0
       else if x1 =? x2 then
         let y1 := if y2 <? y1 then y2 else y1 in
         stepLoop (Z.to_nat dy) x1 y1 0 1
       else if dx =? dy then
         if y1 <? y2 then stepLoop (Z.to_nat dx) x1 y1 1 1
         else stepLoop (Z.to_nat dx) x1 y1 1 (-1)
       else if dy <? dx then
         if y1 <? y2
         then wideLoop (Z.to_nat dx) x1 y1 dx (2 * dy) (2 * dx) 1 x2 y2
         else wideLoop (Z.to_nat dx) x1 y1 dx (2 * dy) (2 * dx) (-1) x2 y2
       else
         if y1 <? y2
         then highLoop (Z.to_nat dy) x1 y1 dy (2 * dx) (2 * dy) 1 x2 y2
         else highLoop (Z.to_nat dy) x1 y1 dy (2 * dx) (2 * dy) (-1) x2 y2)).
  { intros x1 y1 x2 y2 Hle. cbn zeta.
    set (dy := if y2 - y1 <? 0 then - (y2 - y1) else y2 - y1).
    assert (Hdy : dy = Z.abs (y2 - y1))
      by (subst dy; destruct (Z.ltb_spec (y2 - y1) 0); lia).
    clearbody dy.
    destruct (Z.eqb_spec x1 x2) as [Hx | Hx], (Z.eqb_spec y1 y2) as [Hy | Hy];
      cbn [andb]; try exact I;
      try (apply stepLoop_connected; lia).
    destruct (Z.eqb_spec (x2 - x1) dy) as [Hd | Hd].
    { destruct (y1 <? y2); apply stepLoop_connected; lia. }
    destruct (Z.ltb_spec dy (x2 - x1)) as [Hw | Hh].
    - destruct (Z.ltb_spec y1 y2) as [Hup | Hdown];
        apply wideLoop_connected; try lia.
    - destruct (Z.ltb_spec y1 y2) as [Hup | Hdown];
        apply highLoop_connected; try lia. }
  destruct (Z.ltb_spec bx ax) as [Hsw | Hsw]; apply Hgen; lia.
Qed.

End raster_facts.

Module encoding_facts.
Import encoding.

Lemma Merge16_Split32 i :
  Merge16 (Split32 i).1 (Split32 i).2 = i mod 4294967296.
Proof.
  unfold Merge16, Split32. cbn [fst snd].
  rewrite Z.shiftl_mul_pow2, Z.shiftr_div_pow2 by lia.
  change (2 ^ 16) with 65536. change 4294967296 with (65536 * 65536).
  rewrite (Z.rem_mul_r i 65536 65536) by lia.
  pose proof (Z.mod_pos_bound i 65536 eq_refl).
  pose proof (Z.mod_pos_bound (i / 65536) 65536 eq_refl).
  rewrite Z.mod_small; lia.
Qed.

Lemma Split32_Merge16 a b :
  0 <= a < 65536 -> 0 <= b < 65536 -> Split32 (Merge16 a b) = (a, b).
Proof.
  intros Ha Hb. unfold Merge16, Split32.
  rewrite Z.shiftl_mul_pow2, Z.shiftr_div_pow2 by lia.
  change (2 ^ 16) with 65536.
  rewrite (Z.mod_small (_ + _) 4294967296) by lia.
  f_equal.
  - rewrite Z.div_add_l by lia. rewrite (Z.div_small b) by lia.
    rewrite Z.add_0_r. apply Z.mod_small; lia.
  - rewrite Z.add_comm, Z.mod_add by lia. apply Z.mod_small; lia.
Qed.

Lemma Merge8_Split16 i :
  Merge8 (Split16 i).1 (Split16 i).2 = i mod 65536.
Proof.
  unfold Merge8, Split16. cbn [fst snd].
  rewrite Z.shiftl_mul_pow2, Z.shiftr_div_pow2 by lia.
  change (2 ^ 8) with 256. change 65536 with (256 * 256).
  rewrite (Z.rem_mul_r i 256 256) by lia.
  pose proof (Z.mod_pos_bound i 256 eq_refl).
  pose proof (Z.mod_pos_bound (i / 256) 256 eq_refl).
  rewrite Z.mod_small; lia.
Qed.

Lemma Split16_Merge8 a b :
  0 <= a < 256 -> 0 <= b < 256 -> Split16 (Merge8 a b) = (a, b).
Proof.
  intros Ha Hb. unfold Merge8, Split16.
  rewrite Z.shiftl_mul_pow2, Z.shiftr_div_pow2 by lia.
  change (2 ^ 8) with 256.
  rewrite (Z.mod_small (_ + _) 65536) by lia.
  f_equal.
  - rewrite Z.div_add_l by lia. rewrite (Z.div_small b) by lia.
    rewrite Z.add_0_r. apply Z.mod_small; lia.
  - rewrite Z.add_comm, Z.mod_add by lia. apply Z.mod_small; lia.
Qed.

(** X4. [Merge16] undoes [Split32] on every uint32 and [Split32]
    undoes [Merge16] on every pair of uint16; the same holds for
    [Merge8] and [Split16]. *)
Theorem split_merge_inverse (i a b : Z) :
  (Merge16 (Split32 i).1 (Split32 i).2 = i mod 4294967296 /\
   Split32 (Merge16 (a mod 65536) (b mod 65536)) = (a mod 65536, b mod 65536)) /\
  (Merge8 (Split16 i).1 (Split16 i).2 = i mod 65536 /\
   Split16 (Merge8 (a mod 256) (b mod 256)) = (a mod 256, b mod 256)).
Proof.
  repeat split.
  - apply Merge16_Split32.
  - apply Split32_Merge16; apply Z.mod_pos_bound; lia.
  - apply Merge8_Split16.
  - apply Split16_Merge8; apply Z.mod_pos_bound; lia.
Qed.

End encoding_facts.

Module slices_facts.
Import binary slices.

Lemma byteZ_range b : 0 <= byteZ b < 256.
Proof.
  unfold byteZ. pose proof (Byte.to_N_bounded b). lia.
Qed.

Lemma byteZ_toByte v : byteZ (toByte v) = v mod 256.
Proof.
  unfold byteZ, toByte.
  pose proof (Z.mod_pos_bound v 256 eq_refl) as Hv.
  destruct (Byte.of_N (Z.to_N (v mod 256))) as [b|] eqn:E.
  - apply Byte.to_of_N in E. cbn [from_option id]. rewrite E. lia.
  - apply Byte.of_N_None_iff in E. lia.
Qed.

Lemma toByte_byteZ b : toByte (byteZ b) = b.
Proof.
  unfold toByte, byteZ. pose proof (Byte.to_N_bounded b).
  rewrite Z.mod_small by lia. rewrite N2Z.id, Byte.of_to_N. reflexivity.
Qed.

Lemma lor_shift (lo hi : Z) :
  0 <= lo < 256 -> Z.lor lo (Z.shiftl hi 8) = hi * 256 + lo.
Proof.
  intros Hlo. rewrite <- Z.add_nocarry_lor.
  - rewrite Z.shiftl_mul_pow2 by lia. change (2 ^ 8) with 256. lia.
  - apply Z.bits_inj'. intros n Hn. rewrite Z.land_spec, Z.bits_0.
    destruct (Z.ltb_spec n 8).
    + rewrite Z.shiftl_spec_low by lia. apply andb_false_r.
    + replace lo with (lo mod 2 ^ 8)
        by (apply Z.mod_small; change (2 ^ 8) with 256; lia).
      rewrite Z.mod_pow2_bits_high by lia. reflexivity.
Qed.

(** X5. [FromBytes16] reads back what [ToBytes16] wrote and
    [FromBytes8] what [ToBytes8] wrote.  [FromBytes8] panics on an
    empty slice, as [FromBytes16] does on fewer than two bytes, and
    of a slice of two or more bytes it returns the second byte. *)
Theorem byte_slices_round_trip (i : Z) (b0 b1 : Byte.byte)
    (rest : list Byte.byte) :
  FromBytes16 (ToBytes16 i) = Some (i mod 65536) /\
  FromBytes8 (ToBytes8 i) = Some (i mod 256) /\
  ToBytes8 (byteZ b0) = [b0] /\
  FromBytes8 [] = None /\ FromBytes16 [] = None /\ FromBytes16 [b0] = None /\
  FromBytes8 (b0 :: b1 :: rest) = Some (byteZ b1).
Proof.
  pose proof (byteZ_range b0) as H0. pose proof (byteZ_range b1) as H1.
  pose proof (Z.mod_pos_bound i 256 eq_refl) as Hi.
  pose proof (Z.mod_pos_bound (i / 256) 256 eq_refl) as Hi'.
  repeat split.
  - unfold FromBytes16, ToBytes16, PutUint16, Uint16. f_equal.
    rewrite !byteZ_toByte, lor_shift by lia.
    rewrite Z.shiftr_div_pow2 by lia. change (2 ^ 8) with 256.
    change 65536 with (256 * 256).
    rewrite (Z.rem_mul_r i 256 256) by lia. lia.
  - unfold FromBytes8, ToBytes8, Uint16. cbn [fmap option_fmap option_map].
    f_equal. rewrite byteZ_toByte, lor_shift by lia.
    change (byteZ Byte.x00) with 0. rewrite Z.mul_0_l, Z.add_0_l.
    apply Z.mod_mod. lia.
  - unfold ToBytes8. rewrite toByte_byteZ. reflexivity.
  - unfold FromBytes8, Uint16. cbn [fmap option_fmap option_map]. f_equal.
    rewrite lor_shift by lia.
    rewrite Z.add_comm, Z.mod_add by lia. apply Z.mod_small. lia.
Qed.

End slices_facts.

Module district_type_facts.

Lemma districtForID_ID d : districtForID (DistrictType_ID d) = d.
Proof. destruct d; reflexivity. Qed.

Lemma DistrictType_ID_range d : 0 <= DistrictType_ID d <= 20.
Proof. destruct d; cbn; lia. Qed.

(** X6. [districtForID] inverts [DistrictType.ID]: the ID of every
    type lies between 0 and 20 and leads back to the type, every
    number from 0 to 20 is the ID of the type it names, and every
    other number names [Empty]. *)
Theorem districtForID_inverts_ID (d : DistrictType) (i : Z) :
  districtForID (DistrictType_ID d) = d /\
  0 <= DistrictType_ID d <= 20 /\
  (0 <= i <= 20 -> DistrictType_ID (districtForID i) = i) /\
  (~ 0 <= i <= 20 -> districtForID i = Empty).
Proof.
  split; [apply districtForID_ID|].
  split; [apply DistrictType_ID_range|].
  split.
  - intros Hi.
    assert (Hc : In i (map Z.of_nat (seq 0 21))).
    { apply in_map_iff. exists (Z.to_nat i). split; [lia|].
      apply in_seq. lia. }
    cbn in Hc.
    repeat (destruct Hc as [<- | Hc]; [reflexivity|]). destruct Hc.
  - intros Hi. unfold districtForID, allDistricts. cbn [find DistrictType_ID].
    repeat (match goal with |- context [?a =? i] =>
              destruct (Z.eqb_spec a i); [lia|] end).
    reflexivity.
Qed.

End district_type_facts.

Module layers_facts.
Import citymap citymap_facts.

Lemma In_not_out c x y :
  image.In_ (Pt x y) (Rect64 (im c)) = true -> isOutOfBounds c x y = false.
Proof.
  unfold image.In_, isOutOfBounds. cbn [image.X image.Y].
  rewrite !andb_true_iff, !Z.leb_le, !Z.ltb_lt. intros [[[H1 H2] H3] H4].
  rewrite !orb_false_iff, !Z.ltb_ge. lia.
Qed.

Lemma Split16_Merge8_fst a b :
  0 <= a < 256 -> 0 <= b < 256 ->
  fst (encoding.Split16 (encoding.Merge8 a b)) = a.
Proof.
  intros Ha Hb. rewrite encoding_facts.Split16_Merge8 by lia. reflexivity.
Qed.

Lemma Split16_range i :
  0 <= fst (encoding.Split16 i) < 256 /\ 0 <= snd (encoding.Split16 i) < 256.
Proof.
  unfold encoding.Split16. cbn [fst snd].
  split; apply Z.mod_pos_bound; lia.
Qed.

Lemma isOutOfBounds_Rect c c' x y :
  Rect64 (im c') = Rect64 (im c) -> isOutOfBounds c' x y = isOutOfBounds c x y.
Proof. unfold isOutOfBounds. intros ->. reflexivity. Qed.

Lemma Rect64_setDistrict c x y t id :
  Rect64 (im (setDistrict c x y t id)) = Rect64 (im c).
Proof. unfold setDistrict. cbn [im]. apply Rect64_Set. Qed.

Lemma Rect64_setBuildingID c x y id :
  Rect64 (im (setBuildingID c x y id)) = Rect64 (im c).
Proof.
  unfold setBuildingID. destruct (encoding.Split32 _). cbn [im].
  apply Rect64_Set.
Qed.

(** X7. Inside the image [District] returns the type that
    [setDistrict] stored, without an error; the district id comes
    back reduced to 16 bits. *)
Theorem setDistrict_District (c : imageMap) (x y : Z) (typ : DistrictType)
    (id : Z) :
  image.In_ (Pt x y) (Rect64 (im c)) = true ->
  District (setDistrict c x y typ id) x y = (typ, id mod 65536, None).
Proof.
  intros Hin. unfold District.
  rewrite (isOutOfBounds_Rect c _ x y (Rect64_setDistrict c x y typ id)).
  rewrite (In_not_out c x y Hin).
  unfold setDistrict. cbn [im]. rewrite RGBA64At_Set_same by exact Hin.
  cbn [A R].
  pose proof (district_type_facts.DistrictType_ID_range typ) as Hr.
  rewrite Z.mod_small by lia.
  rewrite Split16_Merge8_fst by (try lia; apply Split16_range).
  rewrite district_type_facts.districtForID_ID. reflexivity.
Qed.

Lemma setDistrict_District_witness :
  District (setDistrict samples.map10 3 4 Market 7) 3 4
  = (Market, 7 mod 65536, None).
Proof.
  apply (setDistrict_District samples.map10 3 4 Market 7). reflexivity.
Defined.

Lemma setBuildingID_BuildingID_at (c : imageMap) (x y id : Z) :
  image.In_ (Pt x y) (Rect64 (im c)) = true ->
  BuildingID (setBuildingID c x y id) x y = (id mod 4294967296, None).
Proof.
  intros Hin. unfold BuildingID.
  rewrite (isOutOfBounds_Rect c _ x y (Rect64_setBuildingID c x y id)).
  rewrite (In_not_out c x y Hin).
  unfold setBuildingID.
  pose proof (encoding_facts.Merge16_Split32 (id mod 4294967296)) as H.
  destruct (encoding.Split32 (id mod 4294967296)) as [g b] eqn:E.
  cbn [im]. rewrite RGBA64At_Set_same by exact Hin. cbn [G B fst snd] in *.
  rewrite H. rewrite Z.mod_mod by lia. reflexivity.
Qed.

(** X8. Inside the image [BuildingID] returns the id that
    [setBuildingID] stored, reduced to 32 bits: an id from 0 to
    4294967295 comes back unchanged. *)
Theorem setBuildingID_BuildingID (c : imageMap) (x y id : Z) :
  image.In_ (Pt x y) (Rect64 (im c)) = true ->
  BuildingID (setBuildingID c x y id) x y = (id mod 4294967296, None) /\
  (0 <= id < 4294967296 ->
   BuildingID (setBuildingID c x y id) x y = (id, None)).
Proof.
  intros Hin. rewrite setBuildingID_BuildingID_at by exact Hin.
  split; [reflexivity|]. intros Hid. rewrite Z.mod_small by lia. reflexivity.
Qed.

Lemma setBuildingID_BuildingID_witness :
  BuildingID (setBuildingID samples.map10 3 4 7) 3 4
  = (7 mod 4294967296, None) /\
  (0 <= 7 < 4294967296 ->
   BuildingID (setBuildingID samples.map10 3 4 7) 3 4 = (7, None)).
Proof.
  apply (setBuildingID_BuildingID samples.map10 3 4 7). reflexivity.
Defined.

Lemma District_setBuildingID c dx dy id x y :
  District (setBuildingID c dx dy id) x y = District c x y.
Proof.
  unfold District.
  rewrite (isOutOfBounds_Rect c _ x y (Rect64_setBuildingID c dx dy id)).
  destruct (isOutOfBounds c x y); [reflexivity|].
  unfold setBuildingID. destruct (encoding.Split32 _) as [g b]. cbn [im].
  destruct (decide (Pt dx dy = Pt x y)) as [Heq | Hne].
  - injection Heq as -> ->.
    destruct (image.In_ (Pt x y) (Rect64 (im c))) eqn:Hin.
    + rewrite RGBA64At_Set_same by exact Hin. reflexivity.
    + unfold SetRGBA64. rewrite Hin. reflexivity.
  - rewrite RGBA64At_Set_other by exact Hne. reflexivity.
Qed.

Lemma District_setBM c dx dy bm x y :
  District (setBM c dx dy bm) x y = District c x y.
Proof.
  unfold District.
  rewrite (isOutOfBounds_Rect c _ x y (Rect64_setBM c dx dy bm)).
  destruct (isOutOfBounds c x y); [reflexivity|].
  unfold setBM. cbn [im].
  destruct (decide (Pt dx dy = Pt x y)) as [Heq | Hne].
  - injection Heq as -> ->.
    destruct (image.In_ (Pt x y) (Rect64 (im c))) eqn:Hin.
    + rewrite RGBA64At_Set_same by exact Hin. cbn [A R].
      rewrite Split16_Merge8_fst; [reflexivity | apply Split16_range |].
      unfold encoding.FromBytes8. apply Z.mod_pos_bound. lia.
    + unfold SetRGBA64. rewrite Hin. reflexivity.
  - rewrite RGBA64At_Set_other by exact Hne. reflexivity.
Qed.

Lemma BuildingID_setDistrict c dx dy t id x y :
  BuildingID (setDistrict c dx dy t id) x y = BuildingID c x y.
Proof.
  unfold BuildingID.
  rewrite (isOutOfBounds_Rect c _ x y (Rect64_setDistrict c dx dy t id)).
  destruct (isOutOfBounds c x y); [reflexivity|].
  unfold setDistrict. cbn [im].
  destruct (decide (Pt dx dy = Pt x y)) as [Heq | Hne].
  - injection Heq as -> ->.
    destruct (image.In_ (Pt x y) (Rect64 (im c))) eqn:Hin.
    + rewrite RGBA64At_Set_same by exact Hin. reflexivity.
    + unfold SetRGBA64. rewrite Hin. reflexivity.
  - rewrite RGBA64At_Set_other by exact Hne. reflexivity.
Qed.

Lemma BuildingID_setBM c dx dy bm x y :
  BuildingID (setBM c dx dy bm) x y = BuildingID c x y.
Proof.
  unfold BuildingID.
  rewrite (isOutOfBounds_Rect c _ x y (Rect64_setBM c dx dy bm)).
  destruct (isOutOfBounds c x y); [reflexivity|].
  unfold setBM. cbn [im].
  destruct (decide (Pt dx dy = Pt x y)) as [Heq | Hne].
  - injection Heq as -> ->.
    destruct (image.In_ (Pt x y) (Rect64 (im c))) eqn:Hin.
    + rewrite RGBA64At_Set_same by exact Hin. reflexivity.
    + unfold SetRGBA64. rewrite Hin. reflexivity.
  - rewrite RGBA64At_Set_other by exact Hne. reflexivity.
Qed.

Lemma District_setDistrict_other c dx dy t id x y :
  Pt dx dy <> Pt x y ->
  District (setDistrict c dx dy t id) x y = District c x y.
Proof.
  intros Hne. unfold District.
  rewrite (isOutOfBounds_Rect c _ x y (Rect64_setDistrict c dx dy t id)).
  unfold setDistrict. cbn [im].
  rewrite RGBA64At_Set_other by exact Hne. reflexivity.
Qed.

Lemma BuildingID_setBuildingID_other c dx dy id x y :
  Pt dx dy <> Pt x y ->
  BuildingID (setBuildingID c dx dy id) x y = BuildingID c x y.
Proof.
  intros Hne. unfold BuildingID.
  rewrite (isOutOfBounds_Rect c _ x y (Rect64_setBuildingID c dx dy id)).
  unfold setBuildingID. destruct (encoding.Split32 _) as [g b]. cbn [im].
  rewrite RGBA64At_Set_other by exact Hne. reflexivity.
Qed.

(** The five flag queries read nothing but the flag byte and the
    rectangle. *)
Lemma flags_by_byte c c' x y :
  Rect64 (im c') = Rect64 (im c) -> getBM c' x y = getBM c x y ->
  IsRoad c' x y = IsRoad c x y /\ IsBridge c' x y = IsBridge c x y /\
  IsWall c' x y = IsWall c x y /\ IsTower c' x y = IsTower c x y /\
  IsGatehouse c' x y = IsGatehouse c x y.
Proof.
  intros HR HB. unfold IsRoad, IsBridge, IsWall, IsTower, IsGatehouse.
  rewrite (isOutOfBounds_Rect c c' x y HR), HB. auto.
Qed.

(** X9. The three layers of a pixel are independent: [setDistrict]
    changes neither the building id nor the flag byte,
    [setBuildingID] neither the district nor the flags, [setBM]
    neither the district nor the building id, at any coordinate; and
    a write at one coordinate changes nothing of its own layer at
    another. *)
Theorem writes_stay_in_their_layer (c : imageMap) (dx dy x y : Z)
    (t : DistrictType) (id bm : Z) :
  (BuildingID (setDistrict c dx dy t id) x y = BuildingID c x y /\
   getBM (setDistrict c dx dy t id) x y = getBM c x y /\
   (Pt dx dy <> Pt x y ->
    District (setDistrict c dx dy t id) x y = District c x y)) /\
  (District (setBuildingID c dx dy id) x y = District c x y /\
   getBM (setBuildingID c dx dy id) x y = getBM c x y /\
   (Pt dx dy <> Pt x y ->
    BuildingID (setBuildingID c dx dy id) x y = BuildingID c x y)) /\
  (District (setBM c dx dy bm) x y = District c x y /\
   BuildingID (setBM c dx dy bm) x y = BuildingID c x y /\
   (Pt dx dy <> Pt x y -> getBM (setBM c dx dy bm) x y = getBM c x y)).
Proof.
  repeat split.
  - apply BuildingID_setDistrict.
  - apply getBM_setDistrict.
  - apply District_setDistrict_other.
  - apply District_setBuildingID.
  - apply getBM_setBuildingID.
  - apply BuildingID_setBuildingID_other.
  - apply District_setBM.
  - apply BuildingID_setBM.
  - apply getBM_setBM_other.
Qed.


Lemma Get_Set_mod bm i k :
  0 <= k < 8 -> 0 <= i ->
  bitmap.Get (bitmap.Set_ bm i mod 256) k = bitmap.Get bm k || (i =? k).
Proof.
  intros Hk Hi. unfold bitmap.Get, bitmap.Set_.
  change 256 with (2 ^ 8). rewrite Z.mod_pow2_bits_low by lia.
  rewrite Z.lor_spec, Z.shiftl_1_l, Z.pow2_bits_eqb by lia. reflexivity.
Qed.

Lemma getBM_range c x y : 0 <= getBM c x y < 256.
Proof. unfold getBM, encoding.ToBytes8. apply Split16_range. Qed.

(** X10. Inside the image [setRoad] switches the road flag on and
    [setBridge] the bridge flag, and each leaves the other four
    flags, the district and the building id of the pixel as they
    were. *)
Theorem setRoad_setBridge_add_one_flag (c : imageMap) (x y : Z) :
  image.In_ (Pt x y) (Rect64 (im c)) = true ->
  (IsRoad (setRoad c x y) x y = true /\
   IsBridge (setRoad c x y) x y = IsBridge c x y /\
   IsWall (setRoad c x y) x y = IsWall c x y /\
   IsTower (setRoad c x y) x y = IsTower c x y /\
   IsGatehouse (setRoad c x y) x y = IsGatehouse c x y /\
   District (setRoad c x y) x y = District c x y /\
   BuildingID (setRoad c x y) x y = BuildingID c x y) /\
  (IsBridge (setBridge c x y) x y = true /\
   IsRoad (setBridge c x y) x y = IsRoad c x y /\
   IsWall (setBridge c x y) x y = IsWall c x y /\
   IsTower (setBridge c x y) x y = IsTower c x y /\
   IsGatehouse (setBridge c x y) x y = IsGatehouse c x y /\
   District (setBridge c x y) x y = District c x y /\
   BuildingID (setBridge c x y) x y = BuildingID c x y).
Proof.
  intros Hin. pose proof (In_not_out c x y Hin) as Hout.
  unfold setRoad, setBridge, IsRoad, IsBridge, IsWall, IsTower, IsGatehouse.
  rewrite !(isOutOfBounds_Rect c _ x y (Rect64_setBM c x y _)), Hout.
  rewrite !getBM_setBM_same by exact Hin.
  rewrite !Get_Set_mod by (unfold bitRoad, bitBridge, bitWall, bitTower, bitGate; lia).
  rewrite !District_setBM, !BuildingID_setBM.
  unfold bitRoad, bitBridge, bitWall, bitTower, bitGate. cbn [Z.eqb].
  rewrite !orb_false_r, !orb_true_r. repeat split; reflexivity.
Qed.

Lemma setRoad_setBridge_add_one_flag_witness :
  IsRoad (setRoad samples.map10 3 4) 3 4 = true /\
  IsBridge (setBridge samples.map10 3 4) 3 4 = true.
Proof.
  destruct (setRoad_setBridge_add_one_flag samples.map10 3 4 eq_refl)
    as [[H1 _] [H2 _]].
  split; [exact H1 | exact H2].
Defined.

(** X11. A coordinate that [isOutOfBounds] lets through but that
    lies outside the image rectangle (x = Max.X or y = Max.Y) cannot
    be written: [setDistrict], [setBuildingID] and [setBM] leave the
    map as it is, and it reads as an empty district with id 0, no
    building and no flag, without an error. *)
Theorem max_edge_is_blind (c : imageMap) (x y : Z) (t : DistrictType)
    (id bm : Z) :
  isOutOfBounds c x y = false ->
  image.In_ (Pt x y) (Rect64 (im c)) = false ->
  (setDistrict c x y t id = c /\ setBuildingID c x y id = c /\
   setBM c x y bm = c) /\
  District c x y = (Empty, 0, None) /\ BuildingID c x y = (0, None) /\
  IsRoad c x y = false /\ IsBridge c x y = false /\ IsWall c x y = false /\
  IsTower c x y = false /\ IsGatehouse c x y = false.
Proof.
  intros Hout Hin. split; [|split; [|split]].
  - unfold setDistrict, setBuildingID, setBM, SetRGBA64.
    destruct (encoding.Split32 _). rewrite Hin. destruct c; auto.
  - unfold District. rewrite Hout, RGBA64At_outside by exact Hin. reflexivity.
  - unfold BuildingID. rewrite Hout, RGBA64At_outside by exact Hin.
    reflexivity.
  - apply flags_outside_rectangle. exact Hin.
Qed.

Lemma max_edge_is_blind_witness :
  (setDistrict samples.map10 10 3 Market 7 = samples.map10 /\
   setBuildingID samples.map10 10 3 7 = samples.map10 /\
   setBM samples.map10 10 3 1 = samples.map10) /\
  District samples.map10 10 3 = (Empty, 0, None) /\
  BuildingID samples.map10 10 3 = (0, None) /\
  IsRoad samples.map10 10 3 = false /\ IsBridge samples.map10 10 3 = false /\
  IsWall samples.map10 10 3 = false /\ IsTower samples.map10 10 3 = false /\
  IsGatehouse samples.map10 10 3 = false.
Proof.
  apply (max_edge_is_blind samples.map10 10 3 Market 7 1); reflexivity.
Defined.

End layers_facts.

Module buildings_facts.
Import citymap citymap_facts layers_facts buildings.

Lemma In_zrange lo hi x : In x (zrange lo hi) <-> lo <= x < hi.
Proof.
  unfold zrange. rewrite in_map_iff. split.
  - intros (k & <- & Hk). apply in_seq in Hk. lia.
  - intros H. exists (Z.to_nat (x - lo)). split; [lia|]. apply in_seq. lia.
Qed.

Lemma fold_left_inv {A B} (Q : A -> Prop) (f : A -> B -> A) l :
  (forall a b, Q a -> Q (f a b)) -> forall a, Q a -> Q (fold_left f l a).
Proof.
  intros Hf. induction l as [|b l IH]; intros a Ha; [exact Ha|].
  cbn [fold_left]. apply IH, Hf, Ha.
Qed.

(** A column of the footprint. *)
Lemma BuildingID_column id X y px py dys : forall c,
  BuildingID
    (fold_left (fun c dy => setBuildingID c X (y + dy) id) dys c) px py =
  if (X =? px) && existsb (Z.eqb (py - y)) dys
     && image.In_ (Pt px py) (Rect64 (im c))
  then (id mod 4294967296, None) else BuildingID c px py.
Proof.
  induction dys as [|dy dys IH]; intros c; cbn [fold_left existsb].
  - rewrite andb_false_r. reflexivity.
  - rewrite IH, Rect64_setBuildingID.
    destruct (Z.eqb_spec X px) as [-> | HX]; cbn [andb]; [|
      rewrite BuildingID_setBuildingID_other by (intros [= ? ?]; lia);
      reflexivity].
    destruct (Z.eqb_spec (py - y) dy) as [<- | Hd]; cbn [orb].
    + replace (y + (py - y)) with py by lia.
      destruct (image.In_ (Pt px py) (Rect64 (im c))) eqn:Hin.
      * rewrite andb_true_r.
        destruct (existsb _ dys); [reflexivity|].
        apply setBuildingID_BuildingID_at. exact Hin.
      * rewrite !andb_false_r.
        unfold setBuildingID, SetRGBA64. destruct (encoding.Split32 _).
        rewrite Hin. destruct c; reflexivity.
    + rewrite BuildingID_setBuildingID_other by (intros [= ?]; lia).
      reflexivity.
Qed.

Lemma Rect64_column id X y dys : forall c,
  Rect64 (im (fold_left (fun c dy => setBuildingID c X (y + dy) id) dys c))
  = Rect64 (im c).
Proof.
  induction dys as [|dy dys IH]; intros c; [reflexivity|].
  cbn [fold_left]. rewrite IH. apply Rect64_setBuildingID.
Qed.

Lemma BuildingID_setBuilding c x y b px py :
  BuildingID (setBuilding c x y (Some b)) px py =
  if image.In_ (Pt (px - x) (py - y)) (bArea b)
     && image.In_ (Pt px py) (Rect64 (im c))
  then (bID b mod 4294967296, None) else BuildingID c px py.
Proof.
  unfold setBuilding.
  set (ys := zrange (image.Y (image.Min (bArea b)))
               (image.Y (image.Max (bArea b)))).
  set (xs := zrange (image.X (image.Min (bArea b)))
               (image.X (image.Max (bArea b)))).
  assert (Hgen : forall dxs c0,
    BuildingID
      (fold_left
         (fun c dx =>
            fold_left (fun c dy => setBuildingID c (x + dx) (y + dy) (bID b))
              ys c) dxs c0) px py =
    if existsb (Z.eqb (px - x)) dxs && existsb (Z.eqb (py - y)) ys
       && image.In_ (Pt px py) (Rect64 (im c0))
    then (bID b mod 4294967296, None) else BuildingID c0 px py).
  { induction dxs as [|dx dxs IH]; intros c0; cbn [fold_left existsb];
      [reflexivity|].
    rewrite IH, Rect64_column, BuildingID_column.
    replace (x + dx =? px) with (px - x =? dx)
      by (destruct (Z.eqb_spec (px - x) dx), (Z.eqb_spec (x + dx) px);
          try reflexivity; lia).
    destruct (px - x =? dx), (existsb (Z.eqb (px - x)) dxs),
      (existsb (Z.eqb (py - y)) ys), (image.In_ (Pt px py) (Rect64 (im c0)));
      reflexivity. }
  assert (Hb : existsb (Z.eqb (px - x)) xs && existsb (Z.eqb (py - y)) ys
               = image.In_ (Pt (px - x) (py - y)) (bArea b)).
  { unfold image.In_. cbn [image.X image.Y].
    apply eq_true_iff_eq.
    rewrite !andb_true_iff, !existsb_exists, !Z.leb_le, !Z.ltb_lt.
    split.
    - intros [(dx & Hdx & ->%Z.eqb_eq) (dy & Hdy & ->%Z.eqb_eq)].
      apply In_zrange in Hdx, Hdy. lia.
    - intros Hr. split; [exists (px - x) | exists (py - y)];
        (split; [apply In_zrange; lia | apply Z.eqb_refl]). }
  rewrite Hgen, Hb. reflexivity.
Qed.


Lemma setBuilding_other_layers c x y b px py :
  District (setBuilding c x y b) px py = District c px py /\
  getBM (setBuilding c x y b) px py = getBM c px py /\
  Rect64 (im (setBuilding c x y b)) = Rect64 (im c).
Proof.
  destruct b as [b|]; [|auto]. unfold setBuilding.
  apply (fold_left_inv
           (fun c' => District c' px py = District c px py /\
                      getBM c' px py = getBM c px py /\
                      Rect64 (im c') = Rect64 (im c))); [|auto].
  intros c1 dx H1.
  apply (fold_left_inv
           (fun c' => District c' px py = District c px py /\
                      getBM c' px py = getBM c px py /\
                      Rect64 (im c') = Rect64 (im c))); [|exact H1].
  intros c2 dy (H2 & H3 & H4).
  rewrite District_setBuildingID, getBM_setBuildingID, Rect64_setBuildingID.
  auto.
Qed.

(** X12. [setBuilding] writes the id of the building, reduced to 32
    bits, at exactly the cells of the image that lie in the
    footprint moved to (x, y); every other building id, every
    district and every flag byte stay as they were, and a nil
    building changes nothing. *)
Theorem setBuilding_footprint (c : imageMap) (x y : Z) (b : BuildingConfig)
    (px py : Z) :
  BuildingID (setBuilding c x y (Some b)) px py =
    (if image.In_ (Pt (px - x) (py - y)) (bArea b)
        && image.In_ (Pt px py) (Rect64 (im c))
     then (bID b mod 4294967296, None) else BuildingID c px py) /\
  District (setBuilding c x y (Some b)) px py = District c px py /\
  getBM (setBuilding c x y (Some b)) px py = getBM c px py /\
  setBuilding c x y None = c.
Proof.
  split; [apply BuildingID_setBuilding|].
  destruct (setBuilding_other_layers c x y (Some b) px py) as (H1 & H2 & _).
  auto.
Qed.

(** What [buildingFits] has looked at when it says yes. *)
Lemma buildingFits_cell cm outline site ox oy b px py :
  buildingFits cm outline site ox oy b = true ->
  inPadded b ox oy px py ->
  isOutOfBounds cm px py = false /\ BuildingID cm px py = (0, None) /\
  (IsRoad cm px py = false /\ IsBridge cm px py = false /\
   IsWall cm px py = false /\ IsTower cm px py = false /\
   IsGatehouse cm px py = false) /\
  CanBuildOn outline px py = true /\ voronoi.Contains site px py = true.
Proof.
  unfold buildingFits, inPadded. intros Hfit [Hx Hy].
  rewrite forallb_forall in Hfit.
  specialize (Hfit (px - ox) ltac:(apply In_zrange; lia)).
  rewrite forallb_forall in Hfit.
  specialize (Hfit (py - oy) ltac:(apply In_zrange; lia)).
  replace (px - ox + ox) with px in Hfit by lia.
  replace (py - oy + oy) with py in Hfit by lia.
  destruct (IsRoad cm px py) eqn:E1; [discriminate|].
  destruct (IsBridge cm px py) eqn:E2; [discriminate|].
  destruct (IsWall cm px py) eqn:E3; [discriminate|].
  destruct (IsTower cm px py) eqn:E4; [discriminate|].
  destruct (IsGatehouse cm px py) eqn:E5; [discriminate|].
  cbn [orb] in Hfit.
  destruct (Z.eqb_spec (BuildingID cm px py).1 0) as [Hid | Hid];
    [|discriminate].
  cbn [negb] in Hfit.
  destruct (CanBuildOn outline px py); [|discriminate].
  destruct (voronoi.Contains site px py); [|discriminate].
  unfold BuildingID in *.
  destruct (isOutOfBounds cm px py); [cbn in Hid; lia|].
  cbn [fst] in Hid. rewrite Hid. auto 10.
Qed.

(** X13. When [buildingFits] says yes, every cell of the footprint
    and of the row above and the row below it is within the bounds
    of the map, carries no road, bridge, wall, tower or gatehouse
    and no building, can be built on and belongs to the site. *)
Theorem buildingFits_stays_on_the_map (cm : imageMap) (outline : Outline)
    (site : voronoi.Site) (ox oy : Z) (b : BuildingConfig) (px py : Z) :
  buildingFits cm outline site ox oy b = true ->
  inPadded b ox oy px py ->
  isOutOfBounds cm px py = false /\ BuildingID cm px py = (0, None) /\
  (IsRoad cm px py = false /\ IsBridge cm px py = false /\
   IsWall cm px py = false /\ IsTower cm px py = false /\
   IsGatehouse cm px py = false) /\
  CanBuildOn outline px py = true /\ voronoi.Contains site px py = true.
Proof. apply buildingFits_cell. Qed.

(** X14. Once a building with an id that is not zero has been
    written by [setBuilding], no building fits whose footprint, or
    the row above or below it, covers one of its cells inside the
    image. *)
Theorem no_building_on_a_building (cm : imageMap) (outline : Outline)
    (site : voronoi.Site) (ox oy ox' oy' : Z) (b b' : BuildingConfig)
    (px py : Z) :
  bID b mod 4294967296 <> 0 ->
  image.In_ (Pt (px - ox) (py - oy)) (bArea b) = true ->
  image.In_ (Pt px py) (Rect64 (im cm)) = true ->
  inPadded b' ox' oy' px py ->
  buildingFits (setBuilding cm ox oy (Some b)) outline site ox' oy' b' = false.
Proof.
  intros Hid Hfoot Hin Hpad.
  destruct (buildingFits _ outline site ox' oy' b') eqn:Hfit; [|reflexivity].
  destruct (buildingFits_cell _ _ _ _ _ _ px py Hfit Hpad) as (_ & Hb & _).
  rewrite BuildingID_setBuilding, Hfoot, Hin in Hb. cbn [andb] in Hb.
  injection Hb as Hb. contradiction.
Qed.

Lemma no_building_on_a_building_witness :
  buildingFits (setBuilding samples.map10 3 3 (Some cases.hut))
    samples.plain cases.everywhere 4 5 cases.hut = false.
Proof.
  apply (no_building_on_a_building samples.map10 samples.plain
           cases.everywhere 3 3 4 5 cases.hut cases.hut 4 4).
  - vm_compute. discriminate.
  - reflexivity.
  - reflexivity.
  - unfold inPadded. cbn. lia.
Defined.

Lemma buildingFits_stays_on_the_map_witness :
  isOutOfBounds samples.map10 4 5 = false /\
  BuildingID samples.map10 4 5 = (0, None) /\
  (IsRoad samples.map10 4 5 = false /\ IsBridge samples.map10 4 5 = false /\
   IsWall samples.map10 4 5 = false /\ IsTower samples.map10 4 5 = false /\
   IsGatehouse samples.map10 4 5 = false) /\
  CanBuildOn samples.plain 4 5 = true /\
  voronoi.Contains cases.everywhere 4 5 = true.
Proof.
  apply (buildingFits_stays_on_the_map samples.map10 samples.plain
           cases.everywhere 3 3 cases.hut 4 5).
  - vm_compute. reflexivity.
  - unfold inPadded. cbn. lia.
Defined.

End buildings_facts.

Module endDraw_facts.
Import citymap citymap_facts layers_facts buildings_facts.

Lemma fold_left_reaches {A B} (R Q : A -> Prop) (f : A -> B -> A) l hit :
  In hit l ->
  (forall a b, R a -> R (f a b)) ->
  (forall a, R a -> Q (f a hit)) ->
  (forall a b, Q a -> Q (f a b)) ->
  forall a, R a -> Q (fold_left f l a).
Proof.
  intros Hin HR Hhit HQ. induction l as [|b l IH]; intros a Ha; [destruct Hin|].
  cbn [fold_left]. destruct Hin as [-> | Hin].
  - apply fold_left_inv; [exact HQ | apply Hhit, Ha].
  - apply IH; [exact Hin | apply HR, Ha].
Qed.

Lemma fold_left_inv_In {A B} (Q : A -> Prop) (f : A -> B -> A) l :
  (forall a b, In b l -> Q a -> Q (f a b)) ->
  forall a, Q a -> Q (fold_left f l a).
Proof.
  induction l as [|b l IH]; intros Hf a Ha; [exact Ha|].
  cbn [fold_left]. apply IH.
  - intros a' b' Hb'. apply Hf. right. exact Hb'.
  - apply Hf; [left; reflexivity | exact Ha].
Qed.

Lemma widen_narrow v :
  0 <= v < 256 -> Z.shiftr (Z.lor v (Z.shiftl v 8)) 8 = v.
Proof.
  intros Hv. rewrite Z.shiftr_lor, Z.shiftr_shiftl_l by lia.
  rewrite Z.shiftr_div_pow2 by lia. change (2 ^ 8) with 256.
  rewrite Z.div_small by lia. cbn. rewrite Z.shiftl_0_r. reflexivity.
Qed.

(** What one turn of the loop does to the map does not depend on the
    map. *)
Lemma endDrawPixel_uniform w outline temp dx dy :
  (forall c, endDrawPixel w outline temp dx dy c = c) \/
  (exists bm, forall c, endDrawPixel w outline temp dx dy c = setBM c dx dy bm).
Proof.
  unfold endDrawPixel.
  destruct (RGBA_ (At temp dx dy)) as [[[r g] b] a].
  destruct ((Z.shiftr r 8 =? 0) && (Z.shiftr g 8 =? 0) && (Z.shiftr b 8 =? 0)).
  - destruct ((CanBuildOn outline dx dy || CanBridgeOver outline dx dy) &&
              nearbyFortifications dx dy w temp); [|left; reflexivity].
    right. eexists. intros c. reflexivity.
  - right. eexists. intros c. reflexivity.
Qed.

Lemma Rect64_endDrawPixel w outline temp dx dy c :
  Rect64 (im (endDrawPixel w outline temp dx dy c)) = Rect64 (im c).
Proof.
  destruct (endDrawPixel_uniform w outline temp dx dy) as [H | [bm H]];
    rewrite H; [reflexivity | apply Rect64_setBM].
Qed.

Lemma getBM_endDrawPixel_other w outline temp dx dy c x y :
  Pt dx dy <> Pt x y ->
  getBM (endDrawPixel w outline temp dx dy c) x y = getBM c x y.
Proof.
  intros Hne.
  destruct (endDrawPixel_uniform w outline temp dx dy) as [H | [bm H]];
    rewrite H; [reflexivity | apply getBM_setBM_other, Hne].
Qed.

Lemma layers_endDrawPixel w outline temp dx dy c x y :
  District (endDrawPixel w outline temp dx dy c) x y = District c x y /\
  BuildingID (endDrawPixel w outline temp dx dy c) x y = BuildingID c x y.
Proof.
  destruct (endDrawPixel_uniform w outline temp dx dy) as [H | [bm H]];
    rewrite H; [auto|]. split; [apply District_setBM | apply BuildingID_setBM].
Qed.

(** The flag byte at x,y after [endDraw] is the one its own turn of the
    loop leaves there. *)
Lemma endDraw_at w outline c x y :
  Rect64 (im (endDraw w outline c)) = Rect64 (im c) /\
  District (endDraw w outline c) x y = District c x y /\
  BuildingID (endDraw w outline c) x y = BuildingID c x y /\
  getBM (endDraw w outline c) x y =
    if image.In_ (Pt x y) (SRect (ctx c))
    then getBM (endDrawPixel w outline (ctx c) x y c) x y
    else getBM c x y.
Proof.
  unfold endDraw. set (temp := ctx c).
  set (xs := zrange (image.X (image.Min (SRect temp)))
               (image.X (image.Max (SRect temp)))).
  set (ys := zrange (image.Y (image.Min (SRect temp)))
               (image.Y (image.Max (SRect temp)))).
  set (row := fun c dy =>
                fold_left (fun c dx => endDrawPixel w outline temp dx dy c)
                  xs c).
  set (R := fun c' : imageMap =>
              Rect64 (im c') = Rect64 (im c) /\
              District c' x y = District c x y /\
              BuildingID c' x y = BuildingID c x y).
  assert (HR : forall c' dx dy, R c' -> R (endDrawPixel w outline temp dx dy c')).
  { intros c' dx dy (H1 & H2 & H3). unfold R.
    rewrite Rect64_endDrawPixel.
    destruct (layers_endDrawPixel w outline temp dx dy c' x y) as [-> ->].
    auto. }
  assert (HRrow : forall c' dy, R c' -> R (row c' dy)).
  { intros c' dy Hc'. unfold row. apply fold_left_inv; [|exact Hc'].
    intros a b. apply HR. }
  assert (HR0 : R c) by (unfold R; auto).
  assert (HRall : R (fold_left row ys c))
    by (apply fold_left_inv; [exact HRrow | exact HR0]).
  destruct HRall as (H1 & H2 & H3).
  split; [exact H1|]. split; [exact H2|]. split; [exact H3|].
  destruct (image.In_ (Pt x y) (SRect temp)) eqn:Hin.
  - assert (Hx : In x xs /\ In y ys).
    { unfold image.In_ in Hin. cbn [image.X image.Y] in Hin.
      rewrite !andb_true_iff, !Z.leb_le, !Z.ltb_lt in Hin.
      split; apply In_zrange; lia. }
    destruct Hx as [Hx Hy].
    destruct (endDrawPixel_uniform w outline temp x y) as [Hid | [bm Hset]].
    + rewrite Hid.
      apply (fold_left_inv (fun c' => getBM c' x y = getBM c x y));
        [|reflexivity].
      intros c1 dy Hc1. unfold row.
      apply (fold_left_inv (fun c' => getBM c' x y = getBM c x y));
        [|exact Hc1].
      intros c2 dx Hc2.
      destruct (decide (Pt dx dy = Pt x y)) as [[= -> ->] | Hne].
      * rewrite Hid. exact Hc2.
      * rewrite getBM_endDrawPixel_other by exact Hne. exact Hc2.
    + rewrite Hset.
      set (V := getBM (setBM c x y bm) x y).
      set (Q := fun c' : imageMap =>
                  Rect64 (im c') = Rect64 (im c) /\ getBM c' x y = V).
      set (R1 := fun c' : imageMap => Rect64 (im c') = Rect64 (im c)).
      assert (Hhit : forall a, R1 a -> Q (endDrawPixel w outline temp x y a)).
      { intros a Ha. unfold Q, R1 in *. rewrite Hset, Rect64_setBM.
        split; [exact Ha|]. subst V.
        destruct (image.In_ (Pt x y) (Rect64 (im c))) eqn:Hi.
        - rewrite !getBM_setBM_same by (rewrite ?Ha; exact Hi). reflexivity.
        - rewrite !getBM_setBM_outside, !getBM_outside
            by (rewrite ?Ha; exact Hi). reflexivity. }
      assert (HQ : forall a dx dy, Q a -> Q (endDrawPixel w outline temp dx dy a)).
      { intros a dx dy [Ha1 Ha2].
        destruct (decide (Pt dx dy = Pt x y)) as [[= -> ->] | Hne].
        - apply Hhit. exact Ha1.
        - unfold Q. rewrite Rect64_endDrawPixel,
            getBM_endDrawPixel_other by exact Hne. auto. }
      assert (HR1 : forall a dx dy, R1 a -> R1 (endDrawPixel w outline temp dx dy a)).
      { intros a dx dy Ha. unfold R1. rewrite Rect64_endDrawPixel. exact Ha. }
      apply (fold_left_reaches R1 Q row ys y Hy); [| | |reflexivity].
      * intros a dy Ha. unfold row. apply fold_left_inv; [|exact Ha].
        intros a' dx. apply HR1.
      * intros a Ha. unfold row.
        apply (fold_left_reaches R1 Q _ xs x Hx); [| | |exact Ha].
        -- intros a' dx. apply HR1.
        -- exact Hhit.
        -- intros a' dx. apply HQ.
      * intros a dy Ha. unfold row. apply fold_left_inv; [|exact Ha].
        intros a' dx. apply HQ.
  - apply (fold_left_inv_In (fun c' => getBM c' x y = getBM c x y));
      [|reflexivity].
    intros c1 dy Hdy Hc1. unfold row.
    apply (fold_left_inv_In (fun c' => getBM c' x y = getBM c x y));
      [|exact Hc1].
    intros c2 dx Hdx Hc2.
    destruct (decide (Pt dx dy = Pt x y)) as [[= -> ->] | Hne].
    + apply In_zrange in Hdx, Hdy. unfold image.In_ in Hin.
      cbn [image.X image.Y] in Hin.
      rewrite !andb_false_iff, !Z.leb_gt, !Z.ltb_ge in Hin. lia.
    + rewrite getBM_endDrawPixel_other by exact Hne. exact Hc2.
Qed.


Lemma flagsAt_by_byte c c' x y :
  Rect64 (im c') = Rect64 (im c) -> getBM c' x y = getBM c x y ->
  flagsAt c' x y = flagsAt c x y.
Proof.
  intros HR HB. unfold flagsAt.
  destruct (flags_by_byte c c' x y HR HB) as (-> & -> & -> & -> & ->).
  reflexivity.
Qed.

Lemma nearbyFortifications_none x y radius s :
  radius <= 0 -> nearbyFortifications x y radius s = false.
Proof.
  intros Hr. unfold nearbyFortifications, zrange.
  replace (Z.to_nat (y + radius - (y - radius))) with 0%nat by lia.
  reflexivity.
Qed.

(** X15. [endDraw] turns a sketched pixel (one whose red, green and
    blue are not all zero) into flags by its colour alone: road for
    red above 0, bridge for green above 0, wall for blue from 50 to
    99, tower from 100 to 149, gatehouse from 150 on; district and
    building id stay. *)
Theorem endDraw_decodes_the_sketch (w : Z) (outline : Outline)
    (c : imageMap) (x y : Z) :
  image.In_ (Pt x y) (SRect (ctx c)) = true ->
  image.In_ (Pt x y) (Rect64 (im c)) = true ->
  0 <= R8 (At (ctx c) x y) < 256 ->
  0 <= G8 (At (ctx c) x y) < 256 ->
  0 <= B8 (At (ctx c) x y) < 256 ->
  0 < R8 (At (ctx c) x y) + G8 (At (ctx c) x y) + B8 (At (ctx c) x y) ->
  flagsAt (endDraw w outline c) x y =
    (0 <? R8 (At (ctx c) x y), 0 <? G8 (At (ctx c) x y),
     (50 <=? B8 (At (ctx c) x y)) && (B8 (At (ctx c) x y) <? 100),
     (100 <=? B8 (At (ctx c) x y)) && (B8 (At (ctx c) x y) <? 150),
     150 <=? B8 (At (ctx c) x y)) /\
  District (endDraw w outline c) x y = District c x y /\
  BuildingID (endDraw w outline c) x y = BuildingID c x y.
Proof.
  intros Hs Hi Hr Hg Hb Hsum.
  destruct (endDraw_at w outline c x y) as (HR & HD & HB & HBM).
  split; [|auto]. rewrite Hs in HBM.
  unfold flagsAt, IsRoad, IsBridge, IsWall, IsTower, IsGatehouse.
  rewrite (isOutOfBounds_Rect c _ x y HR), (In_not_out c x y Hi), HBM.
  unfold endDrawPixel, RGBA_.
  destruct (At (ctx c) x y) as [r g b a]. cbn [R8 G8 B8 A8] in *.
  rewrite !widen_narrow by lia.
  replace ((r =? 0) && (g =? 0) && (b =? 0)) with false
    by (symmetry; rewrite !andb_false_iff, !Z.eqb_neq; lia).
  rewrite getBM_setBM_same by exact Hi.
  destruct (Z.ltb_spec 0 g), (Z.leb_spec 150 b), (Z.leb_spec 100 b),
    (Z.leb_spec 50 b), (Z.ltb_spec 0 r), (Z.ltb_spec b 100),
    (Z.ltb_spec b 150); try lia; vm_compute; reflexivity.
Qed.

Lemma endDraw_decodes_the_sketch_witness :
  flagsAt (endDraw 2 samples.shore samples.towerSketch) 3 3
  = (false, false, false, true, false).
Proof.
  refine (proj1 (endDraw_decodes_the_sketch 2 samples.shore
                   samples.towerSketch 3 3 _ _ _ _ _ _));
    try reflexivity; vm_compute; split; try reflexivity;
    intro; discriminate.
Defined.

(** X16. At a pixel that was not sketched [endDraw] sets the bridge
    flag alone (on bridgeable terrain) or the road flag alone (on
    buildable terrain) when a fortification is sketched nearby, and
    otherwise leaves the flags as they were; with a border width of
    zero or less nothing is nearby. *)
Theorem endDraw_roads_along_walls (w : Z) (outline : Outline)
    (c : imageMap) (x y : Z) :
  image.In_ (Pt x y) (SRect (ctx c)) = true ->
  image.In_ (Pt x y) (Rect64 (im c)) = true ->
  R8 (At (ctx c) x y) = 0 -> G8 (At (ctx c) x y) = 0 ->
  B8 (At (ctx c) x y) = 0 ->
  flagsAt (endDraw w outline c) x y =
    (if (CanBuildOn outline x y || CanBridgeOver outline x y)
        && nearbyFortifications x y w (ctx c)
     then (negb (CanBridgeOver outline x y), CanBridgeOver outline x y,
           false, false, false)
     else flagsAt c x y) /\
  (w <= 0 -> flagsAt (endDraw w outline c) x y = flagsAt c x y).
Proof.
  intros Hs Hi Hr Hg Hb.
  destruct (endDraw_at w outline c x y) as (HR & HD & HB & HBM).
  rewrite Hs in HBM.
  assert (Hpix : endDrawPixel w outline (ctx c) x y c =
    if (CanBuildOn outline x y || CanBridgeOver outline x y)
       && nearbyFortifications x y w (ctx c)
    then setBM c x y
           (bitmap.Set_ bitmap.New8
              (if CanBridgeOver outline x y then bitBridge else bitRoad))
    else c).
  { unfold endDrawPixel, RGBA_.
    destruct (At (ctx c) x y) as [r g b a]. cbn [R8 G8 B8 A8] in *. subst.
    reflexivity. }
  rewrite Hpix in HBM.
  assert (Hmain : flagsAt (endDraw w outline c) x y =
    (if (CanBuildOn outline x y || CanBridgeOver outline x y)
        && nearbyFortifications x y w (ctx c)
     then (negb (CanBridgeOver outline x y), CanBridgeOver outline x y,
           false, false, false)
     else flagsAt c x y)).
  { destruct ((CanBuildOn outline x y || CanBridgeOver outline x y)
              && nearbyFortifications x y w (ctx c)).
    - unfold flagsAt, IsRoad, IsBridge, IsWall, IsTower, IsGatehouse.
      rewrite (isOutOfBounds_Rect c _ x y HR), (In_not_out c x y Hi), HBM.
      rewrite getBM_setBM_same by exact Hi.
      destruct (CanBridgeOver outline x y); vm_compute; reflexivity.
    - apply flagsAt_by_byte; assumption. }
  split; [exact Hmain|].
  intros Hw. rewrite Hmain, nearbyFortifications_none by exact Hw.
  rewrite andb_false_r. reflexivity.
Qed.

Lemma endDraw_roads_along_walls_witness :
  flagsAt (endDraw 2 samples.shore samples.towerSketch) 4 3
  = (true, false, false, false, false).
Proof.
  refine (proj1 (endDraw_roads_along_walls 2 samples.shore
                   samples.towerSketch 4 3 _ _ _ _ _));
    reflexivity.
Defined.

End endDraw_facts.

Module polygon_facts.
Import polygon.

Lemma Rect_ordered x0 y0 x1 y1 :
  x0 <= x1 -> y0 <= y1 ->
  image.Rect x0 y0 x1 y1 = image.Rectangle_ (Pt x0 y0) (Pt x1 y1).
Proof.
  intros Hx Hy. unfold image.Rect.
  replace (x1 <? x0) with false by (symmetry; apply Z.ltb_ge; lia).
  replace (y1 <? y0) with false by (symmetry; apply Z.ltb_ge; lia).
  reflexivity.
Qed.

Lemma boxOf_widen l acc p :
  boxOf l acc -> boxOf (l ++ [p]) (widen acc p).
Proof.
  destruct acc as [[[x0 y0] x1] y1]. unfold boxOf, widen.
  intros (HF & (a & Ha & Hax) & (b & Hb & Hby) & (c & Hc & Hcx) & (d & Hd & Hdy)).
  assert (Hle : x0 <= x1 /\ y0 <= y1).
  { rewrite List.Forall_forall in HF. destruct (HF a Ha). destruct (HF b Hb).
    lia. }
  assert (Hp : In p (l ++ [p])) by (apply in_or_app; right; left; reflexivity).
  assert (Hl : forall q, In q l -> In q (l ++ [p]))
    by (intros q Hq; apply in_or_app; left; exact Hq).
  destruct (Z.ltb_spec (image.X p) x0) as [Hx | Hx];
    [|destruct (Z.ltb_spec x1 (image.X p)) as [Hx' | Hx']];
    (destruct (Z.ltb_spec (image.Y p) y0) as [Hy | Hy];
      [|destruct (Z.ltb_spec y1 (image.Y p)) as [Hy' | Hy']]);
    (split; [apply Forall_app; split;
              [eapply List.Forall_impl; [|exact HF]; cbn; intros; lia
              | constructor; [lia | constructor]]|]);
    repeat split; eauto.
Qed.

Lemma boxOf_fold rest : forall pre acc,
  boxOf pre acc -> boxOf (pre ++ rest) (fold_left widen rest acc).
Proof.
  induction rest as [|p rest IH]; intros pre acc H; cbn [fold_left].
  - rewrite app_nil_r. exact H.
  - replace (pre ++ p :: rest) with ((pre ++ [p]) ++ rest)
      by (rewrite <- app_assoc; reflexivity).
    apply IH, boxOf_widen, H.
Qed.

(** X17. [Polygon.Bounds] of a polygon with at least one point is
    the tight box: every point lies between its corners and each of
    its four sides goes through a point.  Without points it is the
    zero rectangle. *)
Theorem Bounds_is_the_tight_box (p : Point) (l : list Point) :
  boxOf (p :: l) (corners (Bounds (p :: l))) /\
  Bounds [] = image.Rect 0 0 0 0.
Proof.
  split; [|reflexivity]. unfold Bounds.
  pose proof (boxOf_fold l [p] (image.X p, image.Y p, image.X p, image.Y p))
    as H.
  cbn [app] in H.
  destruct (fold_left widen l _) as [[[x0 y0] x1] y1].
  assert (H' : boxOf (p :: l) (x0, y0, x1, y1)).
  { apply H. unfold boxOf. repeat split;
      try (exists p; split; [left; reflexivity | reflexivity]).
    constructor; [lia | constructor]. }
  clear H.
  assert (Hle : x0 <= x1 /\ y0 <= y1).
  { destruct H' as (HF & _). inversion HF; subst. lia. }
  rewrite Rect_ordered by lia. exact H'.
Qed.


Lemma offRow_returns fuel y sy ey :
  (3 <= fuel)%nat -> sy <= ey ->
  exists y', offRow fuel y sy ey = Some y' /\ y' <> sy /\ y' <> ey /\
             (y <> sy -> y <> ey -> y' = y).
Proof.
  intros Hf Hle.
  destruct fuel as [|[|[|fuel]]]; try lia. cbn [offRow].
  destruct (Z.eqb_spec y sy), (Z.eqb_spec y ey), (Z.eqb_spec (y + 1) sy),
    (Z.eqb_spec (y + 1) ey), (Z.eqb_spec (y + 1 + 1) sy),
    (Z.eqb_spec (y + 1 + 1) ey); cbn [orb]; try lia;
    eexists; (split; [reflexivity|]); repeat split; lia.
Qed.

Section Raycast.

Variable slopeGe : Z -> Z -> Z -> Z -> bool.

Lemma intersects_is_Some fuel point s e :
  (3 <= fuel)%nat -> is_Some (intersectsWithRaycast slopeGe fuel point s e).
Proof.
  intros Hf. unfold intersectsWithRaycast.
  destruct (Z.ltb_spec (image.Y e) (image.Y s)) as [H | H];
    match goal with |- context [offRow fuel ?y ?a ?b] =>
      destruct (offRow_returns fuel y a b Hf ltac:(lia)) as (y' & -> & _) end;
    eauto.
Qed.

(** An edge is not crossed by the ray of a point above it, below it or
    to the right of it. *)
Lemma intersects_outside fuel point s e :
  (3 <= fuel)%nat ->
  (image.Y point < image.Y s /\ image.Y point < image.Y e) \/
  (image.Y s < image.Y point /\ image.Y e < image.Y point) \/
  (image.X s < image.X point /\ image.X e < image.X point) ->
  intersectsWithRaycast slopeGe fuel point s e = Some false.
Proof.
  intros Hf Hout. unfold intersectsWithRaycast.
  destruct (Z.ltb_spec (image.Y e) (image.Y s)) as [H | H];
    match goal with |- context [offRow fuel ?y ?a ?b] =>
      destruct (offRow_returns fuel y a b Hf ltac:(lia))
        as (y' & -> & Hs & He & Hsame) end;
    f_equal;
    match goal with |- context [(?p <? ?a) || (?b <? ?p)] =>
      destruct (Z.ltb_spec p a); [reflexivity|];
      destruct (Z.ltb_spec b p); [reflexivity|] end;
    cbn [orb];
    (destruct Hout as [Hout | [Hout | Hout]]; [lia | lia |]);
    repeat match goal with |- context [?a <? ?b] =>
      destruct (Z.ltb_spec a b); try reflexivity; try lia end.
Qed.

Lemma crossings_is_Some fuel point : forall rest prev contains,
  (3 <= fuel)%nat -> is_Some (crossings slopeGe fuel point prev rest contains).
Proof.
  induction rest as [|p rest IH]; intros prev contains Hf; cbn [crossings];
    [eauto|].
  destruct (intersects_is_Some fuel point prev p Hf) as [hit ->].
  apply IH, Hf.
Qed.

Lemma crossings_outside fuel point (out : Point -> Prop) :
  (3 <= fuel)%nat ->
  (forall s e, out s -> out e ->
     intersectsWithRaycast slopeGe fuel point s e = Some false) ->
  forall rest prev contains,
    out prev -> Forall out rest ->
    crossings slopeGe fuel point prev rest contains = Some contains.
Proof.
  intros Hf Hout. induction rest as [|p rest IH]; intros prev contains Hp HF;
    cbn [crossings]; [reflexivity|].
  inversion HF; subst. rewrite Hout by assumption. apply IH; assumption.
Qed.

Lemma Contains_by_side fuel points point (out : Point -> Prop) :
  (3 <= fuel)%nat ->
  (forall s e, out s -> out e ->
     intersectsWithRaycast slopeGe fuel point s e = Some false) ->
  Forall out points ->
  Contains slopeGe fuel points point = Some false.
Proof.
  intros Hf Hout HF. unfold Contains.
  destruct (IsClosed points); cbn [negb]; [|reflexivity].
  destruct points as [|first rest]; [reflexivity|].
  assert (Hlast : out (List.last (first :: rest) image.ZP)).
  { rewrite List.Forall_forall in HF. apply HF.
    destruct (exists_last (l := first :: rest) ltac:(discriminate))
      as (l' & a & E). rewrite E, last_last. apply in_or_app. right. left.
    reflexivity. }
  inversion HF; subst.
  rewrite Hout by assumption.
  apply crossings_outside with (out := out); assumption.
Qed.

(** X18. [Polygon.Contains] returns for every point, whatever the
    slope comparison says.  It returns false for a polygon of fewer
    than three points, and for every point above, below or to the
    right of the box of [Bounds]. *)
Theorem Contains_nothing_outside_the_box (fuel : nat) (points : list Point)
    (point : Point) :
  (3 <= fuel)%nat ->
  is_Some (Contains slopeGe fuel points point) /\
  ((length points < 3)%nat -> Contains slopeGe fuel points point = Some false) /\
  (image.Y point < image.Y (image.Min (Bounds points)) \/
   image.Y (image.Max (Bounds points)) < image.Y point \/
   image.X (image.Max (Bounds points)) < image.X point ->
   Contains slopeGe fuel points point = Some false).
Proof.
  intros Hf. split; [|split].
  - unfold Contains. destruct (negb (IsClosed points)); [eauto|].
    destruct points as [|first rest]; [eauto|].
    destruct (intersects_is_Some fuel point
                (List.last (first :: rest) image.ZP) first Hf) as [hit ->].
    apply crossings_is_Some, Hf.
  - intros Hlen. unfold Contains, IsClosed.
    replace (Z.of_nat (length points) <? 3) with true
      by (symmetry; apply Z.ltb_lt; lia).
    reflexivity.
  - intros Hside. destruct points as [|p l].
    { reflexivity. }
    pose proof (boxOf_fold l [p] (image.X p, image.Y p, image.X p, image.Y p))
      as Hbox.
    assert (H0 : boxOf [p] (image.X p, image.Y p, image.X p, image.Y p)).
    { unfold boxOf. repeat split;
        try (exists p; split; [left; reflexivity | reflexivity]).
      constructor; [lia | constructor]. }
    specialize (Hbox H0). cbn [app] in Hbox. unfold Bounds in Hside.
    destruct (fold_left widen l _) as [[[x0 y0] x1] y1].
    destruct Hbox as (HF & _).
    assert (Hle : x0 <= x1 /\ y0 <= y1) by (inversion HF; subst; lia).
    rewrite Rect_ordered in Hside by lia.
    cbn [image.Min image.Max image.X image.Y] in Hside.
    destruct Hside as [Hs | [Hs | Hs]].
    + apply Contains_by_side
        with (out := fun q => image.Y point < image.Y q); [exact Hf | |].
      * intros s e Hs1 He1. apply intersects_outside; [exact Hf | left; lia].
      * eapply List.Forall_impl; [|exact HF]. cbn. intros; lia.
    + apply Contains_by_side
        with (out := fun q => image.Y q < image.Y point); [exact Hf | |].
      * intros s e Hs1 He1.
        apply intersects_outside; [exact Hf | right; left; lia].
      * eapply List.Forall_impl; [|exact HF]. cbn. intros; lia.
    + apply Contains_by_side
        with (out := fun q => image.X q < image.X point); [exact Hf | |].
      * intros s e Hs1 He1.
        apply intersects_outside; [exact Hf | right; right; lia].
      * eapply List.Forall_impl; [|exact HF]. cbn. intros; lia.
Qed.

End Raycast.

Lemma Contains_nothing_outside_the_box_witness :
  Contains cases.anySlope 3 cases.triangle (Pt 5 1) = Some false.
Proof.
  destruct (Contains_nothing_outside_the_box cases.anySlope 3
              cases.triangle (Pt 5 1)) as (_ & _ & H); [lia|].
  apply H. right. right. cbn. lia.
Defined.

End polygon_facts.

Module pgen_facts.
Import pgen.

Lemma zrange_nil lo hi : hi <= lo -> zrange lo hi = [].
Proof.
  intros H. unfold zrange. replace (Z.to_nat (hi - lo)) with 0%nat by lia.
  reflexivity.
Qed.

Lemma zrange_cons lo hi : lo < hi -> zrange lo hi = lo :: zrange (lo + 1) hi.
Proof.
  intros H. unfold zrange.
  replace (Z.to_nat (hi - lo)) with (S (Z.to_nat (hi - (lo + 1)))) by lia.
  cbn [seq map]. f_equal; [lia|].
  rewrite <- seq_shift, map_map. apply map_ext. intros k. lia.
Qed.

Lemma find_zrange (f : Z -> bool) hi n : forall lo,
  Z.of_nat n = Z.max 0 (hi - lo) ->
  match find f (zrange lo hi) with
  | Some x =>
      exists a, zrange lo hi = a ++ x :: zrange (x + 1) hi /\
                Forall (fun z => f z = false) a /\ f x = true
  | None => Forall (fun z => f z = false) (zrange lo hi)
  end.
Proof.
  induction n as [|n IH]; intros lo Hn.
  - rewrite zrange_nil by lia. constructor.
  - rewrite zrange_cons by lia. cbn [find].
    destruct (f lo) eqn:E.
    + exists []. cbn [app]. auto.
    + specialize (IH (lo + 1) ltac:(lia)).
      destruct (find f (zrange (lo + 1) hi)) as [x|].
      * destruct IH as (a & Ha & HF & Hx). exists (lo :: a).
        cbn [app]. rewrite <- Ha. auto.
      * constructor; assumption.
Qed.

Lemma rowsFrom_remaining bnds y :
  rowsFrom bnds y = remaining bnds (image.X (image.Min bnds)) y.
Proof.
  unfold rowsFrom, remaining.
  destruct (Z.ltb_spec y (image.Y (image.Max bnds))) as [H | H].
  - rewrite zrange_cons by lia. reflexivity.
  - rewrite zrange_nil by lia. reflexivity.
Qed.

Lemma filter_none {A} (f : A -> bool) l :
  Forall (fun q => f q = false) l -> List.filter f l = [].
Proof.
  induction 1 as [|q l Hq _ IH]; [reflexivity|]. cbn [List.filter].
  rewrite Hq. exact IH.
Qed.

Section Generator.

Variable contains : Point -> bool.

Lemma scanRows_spec bnds n : forall x y,
  Z.of_nat n = Z.max 0 (image.Y (image.Max bnds) - y) ->
  match scanRows contains bnds (zrange y (image.Y (image.Max bnds))) x y with
  | (Some p, (x', y')) =>
      exists l1, remaining bnds x y = l1 ++ p :: remaining bnds x' y' /\
                 Forall (fun q => contains q = false) l1 /\
                 contains p = true /\ y <= y'
  | (None, (x', y')) =>
      Forall (fun q => contains q = false) (remaining bnds x y) /\
      remaining bnds x' y' = [] /\ y <= y'
  end.
Proof.
  induction n as [|n IH]; intros x y Hn.
  - rewrite zrange_nil by lia. cbn [scanRows]. unfold remaining.
    replace (y <? image.Y (image.Max bnds)) with false
      by (symmetry; apply Z.ltb_ge; lia).
    repeat split; [constructor | lia].
  - rewrite zrange_cons by lia. cbn [scanRows].
    assert (Hrem : remaining bnds x y =
                   rowFrom bnds x y ++ rowsFrom bnds (y + 1)).
    { unfold remaining.
      replace (y <? image.Y (image.Max bnds)) with true
        by (symmetry; apply Z.ltb_lt; lia). reflexivity. }
    pose proof (find_zrange (fun x' => contains (Pt x' y))
                  (image.X (image.Max bnds))
                  (Z.to_nat (Z.max 0 (image.X (image.Max bnds) - x))) x
                  ltac:(lia)) as Hfind.
    destruct (find _ (zrange x (image.X (image.Max bnds)))) as [x'|].
    + destruct Hfind as (a & Ha & HF & Hx').
      exists (map (fun x' => Pt x' y) a). split; [|split; [|split]].
      * rewrite Hrem. unfold rowFrom at 1. rewrite Ha, map_app.
        cbn [map]. rewrite <- app_assoc. cbn [app]. do 2 f_equal.
        unfold remaining.
        replace (y <? image.Y (image.Max bnds)) with true
          by (symmetry; apply Z.ltb_lt; lia). reflexivity.
      * apply Forall_map. exact HF.
      * exact Hx'.
      * lia.
    + specialize (IH (image.X (image.Min bnds)) (y + 1) ltac:(lia)).
      assert (Hrow : Forall (fun q => contains q = false) (rowFrom bnds x y))
        by (apply Forall_map; exact Hfind).
      destruct (scanRows contains bnds _ _ _) as [[p|] [x' y']].
      * destruct IH as (l1 & Hl1 & HF & Hp & Hy).
        exists (rowFrom bnds x y ++ l1). split; [|split; [|split]].
        -- rewrite Hrem, rowsFrom_remaining, Hl1, <- app_assoc. reflexivity.
        -- apply Forall_app. split; assumption.
        -- exact Hp.
        -- lia.
      * destruct IH as (HF & Hnil & Hy). split; [|split].
        -- rewrite Hrem, rowsFrom_remaining. apply Forall_app.
           split; assumption.
        -- exact Hnil.
        -- lia.
Qed.

(** A generator that is under way. *)
Lemma drain_spec fuel : forall bnds x y,
  0 <= y ->
  (length (List.filter contains (remaining bnds x y)) < fuel)%nat ->
  drain contains fuel (mkGen bnds x y) =
  List.filter contains (remaining bnds x y).
Proof.
  induction fuel as [|fuel IH]; intros bnds x y Hy Hlen; [lia|].
  cbn [drain]. unfold Next. cbn [gbounds gx gy].
  replace ((x =? -1) && (y =? -1)) with false
    by (symmetry; apply andb_false_iff; right; apply Z.eqb_neq; lia).
  pose proof (scanRows_spec bnds
                (Z.to_nat (Z.max 0 (image.Y (image.Max bnds) - y))) x y
                ltac:(lia)) as Hs.
  destruct (scanRows contains bnds _ x y) as [[p|] [x' y']].
  - destruct Hs as (l1 & Hl1 & HF & Hp & Hy').
    rewrite Hl1, List.filter_app in Hlen |- *.
    rewrite (filter_none contains l1 HF) in Hlen |- *.
    cbn [app List.filter length] in Hlen |- *. rewrite Hp in Hlen |- *.
    cbn [length] in Hlen. f_equal. apply IH; lia.
  - destruct Hs as (HF & _). rewrite (filter_none contains _ HF).
    reflexivity.
Qed.

Lemma Next_AllContains bnds :
  Next contains (AllContains bnds) =
  Next contains
    (mkGen bnds (image.X (image.Min bnds)) (image.Y (image.Min bnds))).
Proof.
  unfold Next, AllContains. cbn [gbounds gx gy]. cbn [Z.eqb andb].
  destruct (Z.eqb_spec (image.X (image.Min bnds)) (-1)) as [Hx | Hx];
    [|reflexivity].
  destruct (Z.eqb_spec (image.Y (image.Min bnds)) (-1)) as [Hy | Hy];
    reflexivity.
Qed.

(** X19. For bounds whose Min.Y is not negative, calling [Next] on
    the generator of [AllContains] until it returns nil yields
    exactly the points of the bounds that the polygon contains, row
    by row from the top and from left to right in a row, each once. *)
Theorem AllContains_enumerates (bnds : Rectangle) (fuel : nat) :
  0 <= image.Y (image.Min bnds) ->
  (length (List.filter contains (rowMajor bnds)) < fuel)%nat ->
  drain contains fuel (AllContains bnds) =
  List.filter contains (rowMajor bnds).
Proof.
  intros Hy Hlen. unfold rowMajor in *. rewrite rowsFrom_remaining in *.
  destruct fuel as [|fuel]; [lia|].
  pose proof (drain_spec (S fuel) bnds (image.X (image.Min bnds))
                (image.Y (image.Min bnds)) Hy Hlen) as H.
  cbn [drain] in H |- *. rewrite Next_AllContains. exact H.
Qed.

(** X20. When [Next] returns the point (-2, -1) it leaves the
    generator in the state of a fresh one, (-1, -1), so that the
    next call starts again from the first point. *)
Theorem Next_starts_over_after_minus_two_minus_one (v v' : vPGen) :
  Next contains v = (Some (Pt (-2) (-1)), v') ->
  v' = AllContains (gbounds v).
Proof.
  unfold Next, AllContains.
  destruct ((gx v =? -1) && (gy v =? -1)).
  - set (rows := zrange _ _). generalize rows. clear rows.
    generalize (image.X (image.Min (gbounds v))).
    generalize (image.Y (image.Min (gbounds v))).
    intros y0 x0 rows. revert x0 y0.
    induction rows as [|y rows IH]; intros x0 y0; cbn [scanRows].
    + intros [= ]. 
    + destruct (find _ _) as [x'|].
      * intros [= Hx Hy <-]. subst. reflexivity.
      * apply IH.
  - set (rows := zrange _ _). generalize rows. clear rows.
    generalize (gx v). generalize (gy v).
    intros y0 x0 rows. revert x0 y0.
    induction rows as [|y rows IH]; intros x0 y0; cbn [scanRows].
    + intros [= ].
    + destruct (find _ _) as [x'|].
      * intros [= Hx Hy <-]. subst. reflexivity.
      * apply IH.
Qed.

End Generator.

Lemma AllContains_enumerates_witness :
  drain cases.diagonal 4 (AllContains (image.Rect 0 0 3 3))
  = List.filter cases.diagonal (rowMajor (image.Rect 0 0 3 3)).
Proof.
  apply (AllContains_enumerates cases.diagonal (image.Rect 0 0 3 3) 4).
  - apply Z.leb_le. reflexivity.
  - apply Nat.ltb_lt. reflexivity.
Defined.

Example AllContains_diagonal :
  drain cases.diagonal 4 (AllContains (image.Rect 0 0 3 3))
  = [Pt 0 0; Pt 1 1; Pt 2 2].
Proof. reflexivity. Qed.

Lemma Next_starts_over_after_minus_two_minus_one_witness :
  mkGen cases.strip (-1) (-1) = AllContains cases.strip.
Proof.
  apply (Next_starts_over_after_minus_two_minus_one (fun _ => true)
           (mkGen cases.strip (-2) (-1)) (mkGen cases.strip (-1) (-1))).
  reflexivity.
Defined.

(** With rows above zero left out of the hypothesis of X19: on the strip
    the generator gives its first two points again and again. *)
Example AllContains_strip_repeats :
  drain (fun _ => true) 6 (AllContains cases.strip)
  = [Pt (-3) (-1); Pt (-2) (-1); Pt (-3) (-1); Pt (-2) (-1);
     Pt (-3) (-1); Pt (-2) (-1)].
Proof. reflexivity. Qed.

End pgen_facts.

Module builder_facts.
Import builder.

Lemma accepted_true b x y :
  accepted b x y = true ->
  Forall (fun fn : CandidateFilter => fn x y = true) (cfilt b) /\
  Forall (fun s => Forall (fun fn : SiteFilter =>
                             fn x y (image.X s) (image.Y s) = true) (sfilt b))
    (bsites b).
Proof.
  unfold accepted. rewrite andb_true_iff, !forallb_forall.
  intros [H1 H2]. split.
  - apply List.Forall_forall. exact H1.
  - apply List.Forall_forall. intros s Hs. apply List.Forall_forall.
    specialize (H2 s Hs). rewrite forallb_forall in H2. exact H2.
Qed.

Lemma apart_addSite b x y :
  apart b -> accepted b x y = true -> apart (addSite b x y).1.
Proof.
  intros Hb Hacc. apply accepted_true in Hacc as [_ Hs].
  unfold apart, addSite. cbn [fst bsites sfilt]. intros i j s t Hij Hi Hj.
  destruct (Nat.lt_ge_cases j (length (bsites b))) as [Hlt | Hge].
  - rewrite lookup_app_l in Hi, Hj by lia. exact (Hb i j s t Hij Hi Hj).
  - assert (Hjlen : (j < length (bsites b ++ [Pt x y]))%nat)
      by (eapply lookup_lt_Some; exact Hj).
    rewrite length_app in Hjlen. cbn [length] in Hjlen.
    assert (j = length (bsites b)) by lia. subst j.
    rewrite lookup_app_l in Hi by lia.
    rewrite lookup_app_r, Nat.sub_diag in Hj by lia. injection Hj as <-.
    rewrite List.Forall_forall in Hs. apply Hs.
    apply list_elem_of_In. eapply list_elem_of_lookup_2. exact Hi.
Qed.

Lemma apart_serve b r b' : apart b -> serve b r = Some b' -> apart b'.
Proof.
  intros Hb. destruct r as [x y | rx ry]; cbn [serve].
  - intros [= <-]. unfold AddSite.
    destruct (accepted b x y) eqn:E; cbn [negb]; [|exact Hb].
    apply (apart_addSite b x y Hb E).
  - unfold AddRandomSite.
    destruct (_ || _); [discriminate|].
    match goal with |- context [accepted b ?cx ?cy] =>
      destruct (accepted b cx cy) eqn:E end; cbn [negb].
    + intros [= <-]. apply (apart_addSite b _ _ Hb E).
    + intros [= <-]. exact Hb.
Qed.

Lemma sfilt_serve b r b' : serve b r = Some b' -> sfilt b' = sfilt b.
Proof.
  destruct r as [x y | rx ry]; cbn [serve].
  - intros [= <-]. unfold AddSite. destruct (accepted b x y); reflexivity.
  - unfold AddRandomSite. destruct (_ || _); [discriminate|].
    destruct (accepted b _ _); intros [= <-]; reflexivity.
Qed.

Lemma apart_serveAll rs : forall b b',
  apart b -> serveAll b rs = Some b' -> apart b' /\ sfilt b' = sfilt b.
Proof.
  induction rs as [|r rs IH]; intros b b' Hb; cbn [serveAll].
  - intros [= <-]. auto.
  - destruct (serve b r) as [b1|] eqn:E; [|discriminate].
    intros H. destruct (IH b1 b' (apart_serve b r b1 Hb E) H) as [H1 H2].
    split; [exact H1|]. rewrite H2. apply (sfilt_serve b r b1 E).
Qed.

(** X21. With [MinDistance(dist)] as the site filter of a new
    [Builder], dist positive, whatever sites [AddSite] and
    [AddRandomSite] are asked to add, any two sites the builder ends
    up with lie at least [dist] apart. *)
Theorem sites_keep_their_distance (bounds : Rectangle)
    (cf : list CandidateFilter) (dist : Z) (rs : list request)
    (b : Builder) (i j : nat) (s t : Point) :
  0 < dist ->
  serveAll
    (SetSiteFilters (SetCandidateFilters (NewBuilder bounds) cf)
       [MinDistance dist]) rs = Some b ->
  (i < j)%nat -> bsites b !! i = Some s -> bsites b !! j = Some t ->
  dist * dist <=
  calculateDistSq (image.X s) (image.Y s) (image.X t) (image.Y t).
Proof.
  intros Hd Hrun Hij Hi Hj.
  apply apart_serveAll in Hrun as [Hap Hf].
  2:{ intros i' j' s' t' _ Hi'. cbn in Hi'. discriminate. }
  specialize (Hap i j s t Hij Hi Hj). rewrite Hf in Hap.
  cbn [SetSiteFilters sfilt] in Hap. inversion Hap as [|? ? Hmin _]; subst.
  unfold MinDistance in Hmin.
  apply orb_true_iff in Hmin as [Hmin | Hmin];
    [apply Z.leb_le in Hmin; lia | apply Z.leb_le in Hmin; exact Hmin].
Qed.

Lemma sites_keep_their_distance_witness :
  5 * 5 <= calculateDistSq 1 1 9 9.
Proof.
  apply (sites_keep_their_distance (image.Rect 0 0 20 20) [] 5
           cases.threePlaces
           (mkBuilder (image.Rect 0 0 20 20) [Pt 1 1; Pt 9 9]
              [MinDistance 5] [])
           0 1 (Pt 1 1) (Pt 9 9)); [lia | reflexivity | lia | | ];
    reflexivity.
Defined.

End builder_facts.

Module neighbours_facts.
Import neighbours.

Lemma myedges_fold l : forall (m : gmap (Point * Point) Segment) k,
  is_Some (fold_left (fun m e => <[toEdgeId e := e]> m) l m !! k) <->
  is_Some (m !! k) \/ exists e, In e l /\ toEdgeId e = k.
Proof.
  induction l as [|e l IH]; intros m k; cbn [fold_left].
  - split; [auto | intros [H | (e & [] & _)]; exact H].
  - rewrite IH. split.
    + intros [H | (e' & He' & Hk)].
      * destruct (decide (toEdgeId e = k)) as [Heq | Hne].
        -- right. exists e. split; [left; reflexivity | exact Heq].
        -- rewrite lookup_insert_ne in H by exact Hne. left. exact H.
      * right. exists e'. split; [right; exact He' | exact Hk].
    + intros [H | (e' & [<- | He'] & Hk)].
      * left. destruct (decide (toEdgeId e = k)) as [Heq | Hne].
        -- rewrite Heq, lookup_insert_eq. eauto.
        -- rewrite lookup_insert_ne by exact Hne. exact H.
      * left. rewrite Hk, lookup_insert_eq. eauto.
      * right. exists e'. auto.
Qed.

Lemma myedges_spec s e :
  is_Some (myedges s !! toEdgeId e) <-> sharedWith s e.
Proof.
  unfold myedges, sharedWith. rewrite myedges_fold. split.
  - intros [H | H]; [|exact H]. rewrite lookup_empty in H.
    destruct H as [? H]. discriminate.
  - intros H. right. exact H.
Qed.

(** The edges of [n] that [s] has as well. *)
Lemma Neighbours_fold s l : forall acc n es,
  In (n, es)
    (fold_left
       (fun ls syte =>
          if voronoi.ID syte =? voronoi.ID s then ls
          else
            let edges :=
              List.filter
                (fun e => bool_decide (is_Some (myedges s !! toEdgeId e)))
                (voronoi.Edges syte) in
            if (0 <? length edges)%nat then ls ++ [(syte, edges)] else ls)
       l acc) <->
  In (n, es) acc \/
  (In n l /\ voronoi.ID n <> voronoi.ID s /\ es <> [] /\
   es = List.filter
          (fun e => bool_decide (is_Some (myedges s !! toEdgeId e)))
          (voronoi.Edges n)).
Proof.
  induction l as [|syte l IH]; intros acc n es; cbn [fold_left].
  - split; [auto | intros [H | ([] & _)]; exact H].
  - rewrite IH. clear IH. cbn zeta.
    set (edges := List.filter _ (voronoi.Edges syte)).
    destruct (Z.eqb_spec (voronoi.ID syte) (voronoi.ID s)) as [Hid | Hid].
    + split.
      * intros [H | (H1 & H2)]; [left; exact H | right].
        split; [right; exact H1 | exact H2].
      * intros [H | ([<- | H1] & H2 & H3)]; [left; exact H | contradiction |].
        right. auto.
    + destruct (Nat.ltb_spec 0 (length edges)) as [Hlen | Hlen].
      * split.
        -- intros [H | (H1 & H2)].
           ++ apply in_app_or in H as [H | [[= <- <-] | []]];
                [left; exact H | right].
              split; [left; reflexivity|]. split; [exact Hid|].
              split; [|reflexivity]. intros E. rewrite E in Hlen.
              cbn in Hlen. lia.
           ++ right. split; [right; exact H1 | exact H2].
        -- intros [H | ([<- | H1] & H2 & H3 & H4)].
           ++ left. apply in_or_app. left. exact H.
           ++ left. apply in_or_app. right. left. subst es. reflexivity.
           ++ right. auto.
      * split.
        -- intros [H | (H1 & H2)]; [left; exact H | right].
           split; [right; exact H1 | exact H2].
        -- intros [H | ([<- | H1] & H2 & H3 & H4)]; [left; exact H | |].
           ++ exfalso. apply H3. subst es. fold edges.
              destruct edges; [reflexivity | cbn in Hlen; lia].
           ++ right. auto.
Qed.

(** X23. A neighbour listed by [Neighbours] is a site of the diagram
    with another ID, comes with at least one edge, and each of its
    listed edges is one of its own edges and, in one direction or
    the other, an edge of the site asked about.  The listing is
    symmetric: the site asked about is a neighbour of each of its
    neighbours. *)
Theorem Neighbours_share_an_edge (all : list voronoi.Site)
    (s n : voronoi.Site) (es : list Segment) :
  In (n, es) (Neighbours all s) ->
  In n all /\ voronoi.ID n <> voronoi.ID s /\ es <> [] /\
  Forall (fun e => In e (voronoi.Edges n) /\ sharedWith s e) es /\
  (In s all -> exists es', In (s, es') (Neighbours all n)).
Proof.
  unfold Neighbours. rewrite Neighbours_fold.
  intros [[] | (Hn & Hid & Hne & Hes)].
  split; [exact Hn|]. split; [exact Hid|]. split; [exact Hne|].
  assert (HF : Forall (fun e => In e (voronoi.Edges n) /\ sharedWith s e) es).
  { subst es. apply List.Forall_forall. intros e He.
    apply filter_In in He as [He Hb]. split; [exact He|].
    apply bool_decide_eq_true in Hb. apply myedges_spec. exact Hb. }
  split; [exact HF|].
  intros Hs. eexists. apply Neighbours_fold. right.
  split; [exact Hs|]. split; [congruence|]. split; [|reflexivity].
  destruct es as [|e es']; [contradiction|].
  inversion HF as [|? ? [He (e' & He' & Hk)] _]; subst.
  intros Hnil.
  assert (Hin : In e' (List.filter
                         (fun e0 => bool_decide
                                      (is_Some (myedges n !! toEdgeId e0)))
                         (voronoi.Edges s))).
  { apply filter_In. split; [exact He'|]. apply bool_decide_eq_true.
    apply myedges_spec. exists e. split; [exact He | symmetry; exact Hk]. }
  rewrite Hnil in Hin. destruct Hin.
Qed.

Lemma Neighbours_share_an_edge_witness :
  In cases.rightCell [cases.leftCell; cases.rightCell] /\
  voronoi.ID cases.rightCell <> voronoi.ID cases.leftCell /\
  [(Pt 4 4, Pt 4 0)] <> [] /\
  Forall (fun e => In e (voronoi.Edges cases.rightCell) /\
                   sharedWith cases.leftCell e) [(Pt 4 4, Pt 4 0)] /\
  (In cases.leftCell [cases.leftCell; cases.rightCell] ->
   exists es',
     In (cases.leftCell, es')
        (Neighbours [cases.leftCell; cases.rightCell] cases.rightCell)).
Proof.
  apply (Neighbours_share_an_edge [cases.leftCell; cases.rightCell]
           cases.leftCell cases.rightCell [(Pt 4 4, Pt 4 0)]).
  left. reflexivity.
Defined.

End neighbours_facts.

Module nearest_facts.
Import voronoi nearest.

(** X24. When no site other than the last one lies on the query
    point itself, [SiteFor] returns a site of the diagram that is at
    least as near to the point as every site. *)
Theorem SiteFor_nearest_unless_coincident (v : Voronoi) (x y : Z) :
  sites v <> [] ->
  List.Forall (fun s => distSq x y s <> 0) (removelast (sites v)) ->
  exists r, SiteFor v x y = Some r /\ In r (sites v) /\
    List.Forall (fun s => distSq x y r <= distSq x y s) (sites v).
Proof.
  intros Hne Hnz.
  destruct (voronoi_facts.SiteFor_nearest_without_coincident v x y Hne Hnz)
    as (r & Hr & Hin & Hall).
  exists r. split; [exact Hr|]. split; [|exact Hall].
  apply list_elem_of_In. exact Hin.
Qed.

Lemma SiteFor_nearest_unless_coincident_witness :
  exists r, SiteFor samples.twoSites 1 1 = Some r /\
    In r (sites samples.twoSites) /\
    List.Forall (fun s => distSq 1 1 r <= distSq 1 1 s)
      (sites samples.twoSites).
Proof.
  apply (SiteFor_nearest_unless_coincident samples.twoSites 1 1).
  - discriminate.
  - constructor; [|constructor]. vm_compute. discriminate.
Defined.

Lemma SiteFor_loop_before x y l1 : forall rest dist pick,
  dist <> 0 ->
  List.Forall (fun s => distSq x y s <> 0) l1 ->
  exists dist' pick',
    SiteFor_loop (l1 ++ rest) x y dist pick =
    SiteFor_loop rest x y dist' pick' /\ dist' <> 0.
Proof.
  induction l1 as [|s l1 IH]; intros rest dist pick Hd HF.
  - exists dist, pick. auto.
  - inversion HF; subst. cbn [app SiteFor_loop].
    replace (dist =? 0) with false by (symmetry; apply Z.eqb_neq; exact Hd).
    destruct ((dist <? 0) || (_ <? dist)); apply IH; assumption.
Qed.

(** X25. When the first site that lies on the query point itself is
    followed by another site, [SiteFor] returns that next site. *)
Theorem SiteFor_returns_the_site_after_a_coincident_one (v : Voronoi)
    (x y : Z) (l1 l2 : list Site) (s t : Site) :
  sites v = l1 ++ s :: t :: l2 ->
  List.Forall (fun q => distSq x y q <> 0) l1 ->
  distSq x y s = 0 ->
  SiteFor v x y = Some t.
Proof.
  intros Hs HF Hz. unfold SiteFor. rewrite Hs.
  destruct (SiteFor_loop_before x y l1 (s :: t :: l2) (-1) None
              ltac:(lia) HF) as (d & p & -> & Hd).
  cbn [SiteFor_loop].
  replace (d =? 0) with false by (symmetry; apply Z.eqb_neq; exact Hd).
  unfold distSq in Hz. rewrite Hz.
  pose proof (distance_facts.calculateDistSq_nonneg 0 0 0 0) as _.
  assert (Hb : (d <? 0) || (0 <? d) = true).
  { destruct (Z.ltb_spec d 0); [reflexivity|]. apply Z.ltb_lt. lia. }
  rewrite Hb. reflexivity.
Qed.

Lemma SiteFor_returns_the_site_after_a_coincident_one_witness :
  SiteFor samples.twoSites 0 0
  = Some (mkSite 1 10 10 [] (fun _ _ => true)).
Proof.
  apply (SiteFor_returns_the_site_after_a_coincident_one samples.twoSites
           0 0 [] [] (mkSite 0 0 0 [] (fun _ _ => true))
           (mkSite 1 10 10 [] (fun _ _ => true)));
    [reflexivity | constructor | reflexivity].
Defined.

End nearest_facts.

Module bridges_facts.
Import bridges.

(** X27. The bridge loop of [addMainRoads] and [addMinorRoads] draws
    bridges in the order given, counts each one it draws, draws none
    shorter than [MinBridgeLength] or, for a positive
    [MaxBridgeLength], longer than it, and never takes the counter
    above a [MaxBridges] that is not negative; [MaxBridges] = 0
    means no bridge. *)
Theorem drawBridges_respects_the_limits
    (maxBridges MaxBridgeLength MinBridgeLength created : Z)
    (bs : list Segment) :
  (drawBridges maxBridges MaxBridgeLength MinBridgeLength created bs).2
  = created +
    Z.of_nat (length (drawBridges maxBridges MaxBridgeLength MinBridgeLength
                        created bs).1) /\
  sublist (drawBridges maxBridges MaxBridgeLength MinBridgeLength created bs).1
    bs /\
  Forall (fun path =>
            MinBridgeLength <= bridgeLength path /\
            (0 < MaxBridgeLength -> bridgeLength path <= MaxBridgeLength))
    (drawBridges maxBridges MaxBridgeLength MinBridgeLength created bs).1 /\
  (0 <= maxBridges -> created <= maxBridges ->
   (drawBridges maxBridges MaxBridgeLength MinBridgeLength created bs).2
   <= maxBridges) /\
  (maxBridges = 0 -> 0 <= created ->
   (drawBridges maxBridges MaxBridgeLength MinBridgeLength created bs).1 = []).
Proof.
  revert created. induction bs as [|path rest IH]; intros created;
    cbn [drawBridges].
  - cbn [fst snd length]. repeat split; try lia; constructor.
  - destruct ((0 <=? maxBridges) && (maxBridges <=? created)) eqn:Hfull.
    { cbn [fst snd length]. repeat split; try lia;
        try constructor. apply sublist_nil_l. }
    cbn zeta.
    destruct ((0 <? MaxBridgeLength) && (MaxBridgeLength <? bridgeLength path))
      eqn:Hlong.
    { destruct (IH created) as (H1 & H2 & H3 & H4 & H5).
      repeat split; try assumption. apply sublist_cons. exact H2. }
    destruct (Z.ltb_spec (bridgeLength path) MinBridgeLength) as [Hshort | Hok].
    { destruct (IH created) as (H1 & H2 & H3 & H4 & H5).
      repeat split; try assumption. apply sublist_cons. exact H2. }
    destruct (IH (created + 1)) as (H1 & H2 & H3 & H4 & H5).
    destruct (drawBridges _ _ _ (created + 1) rest) as [drawn n].
    cbn [fst snd length] in *.
    apply andb_false_iff in Hfull, Hlong.
    rewrite Z.leb_gt in Hfull. rewrite Z.ltb_ge in Hlong.
    split; [lia|]. split; [apply sublist_skip; exact H2|].
    split; [|split].
    + constructor; [|exact H3]. split; [lia|].
      intros Hmax. destruct Hlong as [Hlong | Hlong]; [|lia].
      apply Z.ltb_ge in Hlong. lia.
    + intros Hm Hc. apply H4; [exact Hm|].
      destruct Hfull as [Hfull | Hfull]; [lia|].
      apply Z.leb_gt in Hfull. lia.
    + intros Hm Hc. exfalso. subst maxBridges.
      destruct Hfull as [Hfull | Hfull]; [lia|].
      apply Z.leb_gt in Hfull. lia.
Qed.

End bridges_facts.

Module docks_facts.
Import districts walls_facts districts_facts.

Lemma deref_addDock ds d k i :
  (d < length ds)%nat ->
  deref (update d (addDockSuitable k) ds) i =
  if bool_decide (i = d) then addDockSuitable k (deref ds d) else deref ds i.
Proof.
  intros Hd. destruct (decide (i = d)) as [-> | Hne].
  - rewrite bool_decide_eq_true_2 by reflexivity.
    apply deref_update_same. exact Hd.
  - rewrite bool_decide_eq_false_2 by exact Hne.
    apply deref_update_other. congruence.
Qed.

(** Step 0 looks at every district once: its statistics and the two
    lists. *)
Lemma collect_spec M dockCells l : forall ds0 docks0 pot0,
  NoDup l -> Forall (fun d => (d < length ds0)%nat) l ->
  let r := fold_left (collectStep M dockCells) l (ds0, docks0, pot0) in
  length r.1.1 = length ds0 /\
  (forall i,
     deref r.1.1 i =
     if bool_decide (i ∈ l)
     then addDockSuitable (dockCells (dID (deref ds0 i))) (deref ds0 i)
     else deref ds0 i) /\
  (forall d, d ∈ r.1.2 <->
     d ∈ docks0 \/
     (d ∈ l /\ dType (deref r.1.1 d) = Docks /\
      dDockSuitable (deref r.1.1 d) < M)) /\
  (forall d, d ∈ r.2 <->
     d ∈ pot0 \/
     (d ∈ l /\ dType (deref r.1.1 d) <> Docks /\
      M <= dDockSuitable (deref r.1.1 d))).
Proof.
  induction l as [|d l IH]; intros ds0 docks0 pot0 Hnd Hlen; cbn zeta.
  - cbn [fold_left fst snd]. split; [reflexivity|]. split; [|split].
    + intros i. rewrite bool_decide_eq_false_2 by apply not_elem_of_nil.
      reflexivity.
    + intros e. split; [auto | intros [H | [H _]]; [exact H|]].
      apply not_elem_of_nil in H. destruct H.
    + intros e. split; [auto | intros [H | [H _]]; [exact H|]].
      apply not_elem_of_nil in H. destruct H.
  - apply NoDup_cons in Hnd as [Hd Hnd].
    apply Forall_cons in Hlen as [Hdlen Hlen].
    cbn [fold_left].
    set (ds1 := update d (addDockSuitable (dockCells (dID (deref ds0 d)))) ds0).
    assert (Hstep : exists docks1 pot1,
      collectStep M dockCells (ds0, docks0, pot0) d = (ds1, docks1, pot1) /\
      (forall e, e ∈ docks1 <->
         e ∈ docks0 \/ (e = d /\ dType (deref ds1 d) = Docks /\
                        dDockSuitable (deref ds1 d) < M)) /\
      (forall e, e ∈ pot1 <->
         e ∈ pot0 \/ (e = d /\ dType (deref ds1 d) <> Docks /\
                      M <= dDockSuitable (deref ds1 d)))).
    { unfold collectStep. fold ds1.
      destruct (decide (dType (deref ds1 d) = Docks)) as [HD | HD].
      - rewrite (bool_decide_eq_true_2 _ HD). cbn [andb negb].
        destruct (Z.ltb_spec (dDockSuitable (deref ds1 d)) M) as [Hs | Hs].
        + eexists _, _. split; [reflexivity|]. split; intros e.
          * rewrite elem_of_app, list_elem_of_singleton. tauto.
          * split; [auto | intros [H | (_ & H & _)]; [exact H | tauto]].
        + eexists _, _. split; [reflexivity|]. split; intros e.
          * split; [auto | intros [H | (_ & _ & H)]; [exact H | lia]].
          * split; [auto | intros [H | (_ & H & _)]; [exact H | tauto]].
      - rewrite (bool_decide_eq_false_2 _ HD). cbn [andb negb].
        destruct (Z.leb_spec M (dDockSuitable (deref ds1 d))) as [Hs | Hs].
        + eexists _, _. split; [reflexivity|]. split; intros e.
          * split; [auto | intros [H | (_ & H & _)]; [exact H | tauto]].
          * rewrite elem_of_app, list_elem_of_singleton. tauto.
        + eexists _, _. split; [reflexivity|]. split; intros e.
          * split; [auto | intros [H | (_ & H & _)]; [exact H | tauto]].
          * split; [auto | intros [H | (_ & _ & H)]; [exact H | lia]]. }
    destruct Hstep as (docks1 & pot1 & -> & Hdk & Hpk).
    assert (Hlen1 : Forall (fun d => (d < length ds1)%nat) l).
    { eapply List.Forall_impl; [|exact Hlen]. cbn beta. intros a Ha.
      subst ds1. rewrite length_update. exact Ha. }
    specialize (IH ds1 docks1 pot1 Hnd Hlen1). cbn zeta in IH.
    destruct (fold_left _ l (ds1, docks1, pot1)) as [[ds docks] pot].
    cbn [fst snd] in *. destruct IH as (IH1 & IH2 & IH3 & IH4).
    assert (Hd1 : deref ds d = deref ds1 d).
    { rewrite IH2. rewrite bool_decide_eq_false_2 by exact Hd. reflexivity. }
    split; [rewrite IH1; subst ds1; apply length_update|].
    split; [|split].
    + intros i. rewrite IH2. subst ds1. rewrite !deref_addDock by exact Hdlen.
      destruct (decide (i = d)) as [-> | Hne].
      * rewrite (bool_decide_eq_false_2 (d ∈ l)) by exact Hd.
        rewrite (bool_decide_eq_true_2 (d = d)) by reflexivity.
        rewrite (bool_decide_eq_true_2 (d ∈ d :: l)) by (left).
        reflexivity.
      * rewrite (bool_decide_eq_false_2 (i = d)) by exact Hne.
        destruct (decide (i ∈ l)) as [Hil | Hil].
        -- rewrite (bool_decide_eq_true_2 (i ∈ l)) by exact Hil.
           rewrite (bool_decide_eq_true_2 (i ∈ d :: l)) by (right; exact Hil).
           reflexivity.
        -- rewrite (bool_decide_eq_false_2 (i ∈ l)) by exact Hil.
           rewrite (bool_decide_eq_false_2 (i ∈ d :: l)); [reflexivity|].
           rewrite elem_of_cons. tauto.
    + intros e. rewrite IH3, Hdk, elem_of_cons, <- Hd1. split.
      * intros [[H | (-> & H)] | (H1 & H2)]; auto.
      * intros [H | ([-> | H1] & H2)]; auto.
    + intros e. rewrite IH4, Hpk, elem_of_cons, <- Hd1. split.
      * intros [[H | (-> & H)] | (H1 & H2)]; auto.
      * intros [H | ([-> | H1] & H2)]; auto.
Qed.


Lemma elem_of_rev {A} (x : A) l : x ∈ rev l <-> x ∈ l.
Proof. rewrite !list_elem_of_In. symmetry. apply in_rev. Qed.

Lemma deref_setType ds d t i :
  (d < length ds)%nat ->
  deref (update d (setType t) ds) i =
  if bool_decide (i = d) then setType t (deref ds d) else deref ds i.
Proof.
  intros Hd. destruct (decide (i = d)) as [-> | Hne].
  - rewrite bool_decide_eq_true_2 by reflexivity.
    apply deref_update_same. exact Hd.
  - rewrite bool_decide_eq_false_2 by exact Hne.
    apply deref_update_other. congruence.
Qed.

(** Step 1 writes types only.  A district that ends as docks has room
    for them, or it was docks before and not on the list. *)
Lemma fixDocks_room M bcfg docks : forall pot b b',
  Forall (fun d => (d < length (Districts b))%nat) docks ->
  Forall (fun d => (d < length (Districts b))%nat /\
                   dType (deref (Districts b) d) <> Docks /\
                   M <= dDockSuitable (deref (Districts b) d)) pot ->
  NoDup pot -> (forall d, d ∈ docks -> d ∉ pot) ->
  fixDocks bcfg docks pot b = Done b' ->
  length (Districts b') = length (Districts b) /\
  (forall i,
     dDockSuitable (deref (Districts b') i)
     = dDockSuitable (deref (Districts b) i) /\
     dID (deref (Districts b') i) = dID (deref (Districts b) i) /\
     dSite (deref (Districts b') i) = dSite (deref (Districts b) i)) /\
  (forall i, dType (deref (Districts b') i) = Docks ->
     M <= dDockSuitable (deref (Districts b') i) \/
     ((i ∉ docks) /\ dType (deref (Districts b) i) = Docks)).
Proof.
  induction docks as [|d docks IH]; intros pot b b' Hdocks Hpot Hnd Hdisj Hrun;
    cbn [fixDocks] in Hrun.
  - injection Hrun as <-. split; [reflexivity|]. split; [auto|].
    intros i Hi. right. split; [apply not_elem_of_nil | exact Hi].
  - apply Forall_cons in Hdocks as [Hd Hdocks].
    destruct pot as [|last pot].
    + destruct (_ <? count (Stats b) Docks); [|discriminate].
      destruct (drawUntil (replacement bcfg (Stats b)) (draws b))
        as [[t rest]|] eqn:Hdraw; [|discriminate].
      apply drawUntil_ok in Hdraw. unfold replacement in Hdraw.
      destruct (decide (t = Docks)) as [HtD | HtD];
        [rewrite bool_decide_eq_true_2 in Hdraw by exact HtD; discriminate|].
      apply IH in Hrun; cbn [Districts] in *.
      * destruct Hrun as (H1 & H2 & H3). rewrite length_update in H1.
        split; [exact H1|]. split.
        -- intros i. destruct (H2 i) as (-> & -> & ->).
           rewrite deref_setType by exact Hd.
           destruct (bool_decide (i = d)) eqn:E; [|auto].
           apply bool_decide_eq_true in E. subst i. auto.
        -- intros i Hi. destruct (H3 i Hi) as [H | [Hni HiD]]; [left; exact H|].
           rewrite deref_setType in HiD by exact Hd.
           destruct (decide (i = d)) as [-> | Hne].
           ++ rewrite bool_decide_eq_true_2 in HiD by reflexivity.
              cbn in HiD. contradiction.
           ++ rewrite bool_decide_eq_false_2 in HiD by exact Hne.
              right. split; [|exact HiD]. rewrite elem_of_cons. tauto.
      * eapply List.Forall_impl; [|exact Hdocks]. cbn beta. intros a Ha.
        rewrite length_update. exact Ha.
      * constructor.
      * constructor.
      * intros e _. apply not_elem_of_nil.
    + apply Forall_cons in Hpot as [(Hl & HlD & HlM) Hpot].
      apply NoDup_cons in Hnd as [Hlast Hnd].
      assert (Hdl : d <> last).
      { intros ->. apply (Hdisj last); left. }
      set (ds1 := update last (setType Docks) (Districts b)) in *.
      assert (Hlen1 : length ds1 = length (Districts b))
        by (subst ds1; apply length_update).
      assert (Hderef : forall i,
        deref (update d (setType (dType (deref (Districts b) last))) ds1) i =
        if bool_decide (i = d)
        then setType (dType (deref (Districts b) last)) (deref (Districts b) d)
        else if bool_decide (i = last)
             then setType Docks (deref (Districts b) last)
             else deref (Districts b) i).
      { intros i. rewrite deref_setType by (rewrite Hlen1; exact Hd).
        subst ds1. rewrite !deref_setType by exact Hl.
        rewrite (bool_decide_eq_false_2 (d = last)) by exact Hdl.
        reflexivity. }
      apply IH in Hrun; cbn [Districts] in *.
      * destruct Hrun as (H1 & H2 & H3). rewrite length_update, Hlen1 in H1.
        split; [exact H1|]. split.
        -- intros i. destruct (H2 i) as (-> & -> & ->). rewrite Hderef.
           destruct (bool_decide (i = d)) eqn:E1.
           { apply bool_decide_eq_true in E1. subst i. auto. }
           destruct (bool_decide (i = last)) eqn:E2; [|auto].
           apply bool_decide_eq_true in E2. subst i. auto.
        -- intros i Hi. destruct (H3 i Hi) as [H | [Hni HiD]]; [left; exact H|].
           rewrite Hderef in HiD.
           destruct (decide (i = d)) as [-> | Hne].
           { rewrite bool_decide_eq_true_2 in HiD by reflexivity.
             cbn in HiD. contradiction. }
           rewrite bool_decide_eq_false_2 in HiD by exact Hne.
           destruct (decide (i = last)) as [-> | Hnl].
           { left. destruct (H2 last) as (-> & _). rewrite Hderef.
             rewrite bool_decide_eq_false_2 by congruence.
             rewrite bool_decide_eq_true_2 by reflexivity. exact HlM. }
           rewrite bool_decide_eq_false_2 in HiD by exact Hnl.
           right. split; [|exact HiD]. rewrite elem_of_cons. tauto.
      * eapply List.Forall_impl; [|exact Hdocks]. cbn beta. intros a Ha.
        rewrite length_update, Hlen1. exact Ha.
      * rewrite List.Forall_forall in Hpot |- *. intros e He.
        destruct (Hpot e He) as (He1 & He2 & He3).
        assert (e <> last).
        { intros ->. apply Hlast. apply list_elem_of_In. exact He. }
        assert (e <> d).
        { intros ->. apply (Hdisj d); [left|]. right.
          apply list_elem_of_In. exact He. }
        rewrite length_update, Hlen1, Hderef.
        rewrite !bool_decide_eq_false_2 by assumption. auto.
      * exact Hnd.
      * intros e He Hep. apply (Hdisj e); [right; exact He | right; exact Hep].
Qed.

(** X26. When [verifyDistrictLocations] returns without error, each
    district it was given has had the dock-suitable points of its
    cell counted once, and each of them that ends as [Docks] has at
    least [MinDockSize] of them. *)
Theorem verified_docks_have_room (bcfg : gmap DistrictType DistrictConfig)
    (cfg : CityConfig) (dockCells : Z -> Z) (added : list nat)
    (b b' : Build) (d : nat) :
  NoDup added ->
  Forall (fun i => (i < length (Districts b))%nat) added ->
  verifyDistrictLocations bcfg cfg dockCells added b = Done b' ->
  d ∈ added ->
  dDockSuitable (deref (Districts b') d)
  = dDockSuitable (deref (Districts b) d)
    + dockCells (dID (deref (Districts b) d)) /\
  (dType (deref (Districts b') d) = Docks ->
   MinDockSize cfg <= dDockSuitable (deref (Districts b') d)).
Proof.
  intros Hnd Hlen. unfold verifyDistrictLocations, collectDocks.
  pose proof (collect_spec (MinDockSize cfg) dockCells added (Districts b)
                [] [] Hnd Hlen) as Hc.
  pose proof (collectDocks_fold (MinDockSize cfg) dockCells added
                (Districts b) [] []) as Hs.
  cbn zeta in Hc, Hs.
  destruct (fold_left _ added (Districts b, [], [])) as [[ds docks] pot].
  cbn [fst snd app] in *.
  destruct Hc as (Hl & Hderef & Hdk & Hpk).
  destruct Hs as (_ & dk & pk & -> & -> & Hdks & Hpks & _).
  assert (Hsuit : forall i, i ∈ added ->
            dDockSuitable (deref ds i)
            = dDockSuitable (deref (Districts b) i)
              + dockCells (dID (deref (Districts b) i))).
  { intros i Hi. rewrite Hderef, bool_decide_eq_true_2 by exact Hi.
    reflexivity. }
  assert (Hvalid : forall e, e ∈ added -> (e < length ds)%nat).
  { intros e He. rewrite Hl. rewrite List.Forall_forall in Hlen.
    apply Hlen. apply list_elem_of_In. exact He. }
  destruct (length dk =? 0)%nat eqn:Hno.
  - intros [= <-] Hd. cbn [Districts]. split; [apply Hsuit, Hd|].
    intros HD. apply Nat.eqb_eq in Hno. destruct dk; [|discriminate].
    destruct (Z.le_gt_cases (MinDockSize cfg) (dDockSuitable (deref ds d)))
      as [H | H]; [exact H|].
    exfalso. apply (not_elem_of_nil d). apply Hdk. right.
    split; [exact Hd|]. split; [exact HD | lia].
  - intros Hrun Hd.
    apply (fixDocks_room (MinDockSize cfg)) in Hrun; cbn [Districts] in *.
    + destruct Hrun as (_ & Hsame & Hroom).
      destruct (Hsame d) as (Hs1 & _). rewrite Hs1.
      split; [apply Hsuit, Hd|]. intros HD.
      destruct (Hroom d HD) as [H | [Hni HD0]]; [rewrite <- Hs1; exact H|].
      destruct (Z.le_gt_cases (MinDockSize cfg) (dDockSuitable (deref ds d)))
        as [H | H]; [exact H|].
      exfalso. apply Hni. apply elem_of_rev. apply Hdk. right.
      split; [exact Hd|]. split; [exact HD0 | lia].
    + apply List.Forall_forall. intros e He. apply Hvalid.
      apply list_elem_of_In in He. apply (proj1 (elem_of_rev _ _)) in He.
      exact (elem_of_sublist _ _ _ He Hdks).
    + apply List.Forall_forall. intros e He.
      apply list_elem_of_In in He. apply (proj1 (elem_of_rev _ _)) in He.
      destruct (proj1 (Hpk e) He) as [H | (H1 & H2 & H3)].
      { apply not_elem_of_nil in H. destruct H. }
      split; [apply Hvalid, H1 | auto].
    + rewrite <- Permutation_rev. eapply sublist_NoDup; eassumption.
    + intros e He Hep. apply (proj1 (elem_of_rev _ _)) in He.
      apply (proj1 (elem_of_rev _ _)) in Hep.
      destruct (proj1 (Hdk e) He) as [H | (_ & H2 & _)];
        [apply not_elem_of_nil in H; destruct H|].
      destruct (proj1 (Hpk e) Hep) as [H | (_ & H3 & _)];
        [apply not_elem_of_nil in H; destruct H|].
      contradiction.
Qed.

Lemma verified_docks_have_room_witness :
  dDockSuitable (deref (Districts cases.harbourVerified) 1)
  = dDockSuitable (deref (Districts cases.harbour) 1)
    + cases.berths (dID (deref (Districts cases.harbour) 1)) /\
  (dType (deref (Districts cases.harbourVerified) 1) = Docks ->
   MinDockSize samples.fourDistricts
   <= dDockSuitable (deref (Districts cases.harbourVerified) 1)).
Proof.
  apply (verified_docks_have_room samples.parksAndDocks samples.fourDistricts
           cases.berths [0; 1]%nat cases.harbour cases.harbourVerified 1%nat).
  - refine (bool_decide_unpack _ _). vm_compute. exact I.
  - repeat constructor.
  - vm_compute. reflexivity.
  - refine (bool_decide_unpack _ _). vm_compute. exact I.
Defined.

Example harbour_swap :
  dType <$> Districts cases.harbourVerified = [Park; Docks].
Proof. vm_compute. reflexivity. Qed.

End docks_facts.

Module walls_more.
Import walls walls_facts.

Lemma dType_setFortified ds d f c i :
  dType (deref (update d (setFortified f c) ds) i) = dType (deref ds i).
Proof.
  destruct (decide (d = i)) as [-> | Hne].
  - destruct (Nat.lt_ge_cases i (length ds)) as [Hlt | Hge].
    + rewrite deref_update_same by exact Hlt. reflexivity.
    + unfold update. rewrite list_insert_ge by lia. reflexivity.
  - rewrite deref_update_other by exact Hne. reflexivity.
Qed.

(** X28. The first loop of [addWalls] returns an error exactly when
    one of the districts it is given has a type without a
    configuration. *)
Theorem addWalls_fails_on_a_type_without_config
    (bcfg : gmap DistrictType DistrictConfig) (added : list nat)
    (ds : list District) :
  flagsFromConfig bcfg added ds = None <->
  exists d, In d added /\ bcfg !! dType (deref ds d) = None.
Proof.
  revert ds. induction added as [|d added IH]; intros ds; cbn [flagsFromConfig].
  - split; [discriminate | intros (d & [] & _)].
  - destruct (bcfg !! dType (deref ds d)) as [dcfg|] eqn:E.
    + rewrite IH. split.
      * intros (e & He & Hn). exists e. split; [right; exact He|].
        rewrite dType_setFortified in Hn. exact Hn.
      * intros (e & [<- | He] & Hn); [congruence|].
        exists e. split; [exact He|]. rewrite dType_setFortified. exact Hn.
    + split; [|reflexivity]. intros _. exists d. split; [left; reflexivity|].
      exact E.
Qed.

Section Sorting.

Variable sortSlice : (nat -> nat -> bool) -> list nat -> list nat.

(** X29. When [MinFortifiedSites] asks for at least as many further
    districts as there are outside, [addWalls] appends every outside
    district to the inside group, leaves it in the outside group as
    well and sets no [HasFortifications] flag; when no further
    district is needed the groups stay as sorted. *)
Theorem addWalls_takes_every_outside_district
    (bcfg : gmap DistrictType DistrictConfig) (m : Z) (centre : Point)
    (added : list nat) (ds ds1 : list District) :
  flagsFromConfig bcfg added ds = Some ds1 ->
  let cw := List.filter (isCurtain ds1) (seq 0 (length ds1)) in
  let ins := List.filter (isInside ds1) (seq 0 (length ds1)) in
  let outs := List.filter (isOutside ds1) (seq 0 (length ds1)) in
  (0 < m - Z.of_nat (length ins) ->
   Z.of_nat (length outs) <= m - Z.of_nat (length ins) ->
   settleGroups sortSlice bcfg m centre added ds
   = Some (ds1, cw, ins ++ outs, outs)) /\
  (m - Z.of_nat (length ins) <= 0 ->
   settleGroups sortSlice bcfg m centre added ds = Some (ds1, cw, ins, outs)).
Proof.
  intros Hflags cw ins outs.
  unfold settleGroups. rewrite Hflags, sortOut_spec. fold cw ins outs.
  unfold chooseMore. split.
  - intros Hneed Hfew.
    replace (0 <? m - Z.of_nat (length ins)) with true
      by (symmetry; apply Z.ltb_lt; lia).
    replace (Z.of_nat (length outs) <=? m - Z.of_nat (length ins)) with true
      by (symmetry; apply Z.leb_le; lia).
    reflexivity.
  - intros Hneed.
    replace (0 <? m - Z.of_nat (length ins)) with false
      by (symmetry; apply Z.ltb_ge; lia).
    reflexivity.
Qed.

End Sorting.

Lemma addWalls_takes_every_outside_district_witness :
  (0 < 9 - Z.of_nat (length [0; 2; 4; 6]%nat) ->
   Z.of_nat (length [1; 3; 5]%nat) <= 9 - Z.of_nat (length [0; 2; 4; 6]%nat) ->
   settleGroups samples.sortBy samples.wallConfig 9 (Pt 0 0)
     [0; 1; 2; 3; 4; 5; 6]%nat samples.sevenDistricts
   = Some (cases.sevenFlagged, [], [0; 2; 4; 6]%nat ++ [1; 3; 5]%nat,
           [1; 3; 5]%nat)) /\
  (9 - Z.of_nat (length [0; 2; 4; 6]%nat) <= 0 ->
   settleGroups samples.sortBy samples.wallConfig 9 (Pt 0 0)
     [0; 1; 2; 3; 4; 5; 6]%nat samples.sevenDistricts
   = Some (cases.sevenFlagged, [], [0; 2; 4; 6]%nat, [1; 3; 5]%nat)).
Proof.
  apply (addWalls_takes_every_outside_district samples.sortBy
           samples.wallConfig 9 (Pt 0 0) [0; 1; 2; 3; 4; 5; 6]%nat
           samples.sevenDistricts cases.sevenFlagged).
  vm_compute. reflexivity.
Defined.

End walls_more.

Module render_facts.
Import citymap citymap_facts layers_facts buildings_facts endDraw_facts render.

Lemma fold_left_reaches_In {A B} `{EqDecision B} (R Q : A -> Prop)
    (f : A -> B -> A) l hit :
  In hit l ->
  (forall a b, In b l -> b <> hit -> R a -> R (f a b)) ->
  (forall a, R a -> Q (f a hit)) ->
  (forall a b, In b l -> Q a -> Q (f a b)) ->
  forall a, R a -> Q (fold_left f l a).
Proof.
  induction l as [|b l IH]; intros Hin HR Hhit HQ a Ha; [destruct Hin|].
  cbn [fold_left].
  assert (HQl : forall a, Q a -> Q (fold_left f l a)).
  { apply fold_left_inv_In. intros a' b' Hb'. apply HQ. right. exact Hb'. }
  destruct (decide (b = hit)) as [-> | Hne].
  - apply HQl, Hhit, Ha.
  - destruct Hin as [-> | Hin]; [contradiction|].
    apply IH.
    + exact Hin.
    + intros a' b' Hb'. apply HR. right. exact Hb'.
    + exact Hhit.
    + intros a' b' Hb'. apply HQ. right. exact Hb'.
    + apply HR; [left; reflexivity | exact Hne | exact Ha].
Qed.

Section Colours.

Variable Colour : Type.

Lemma PRect_Set (im : Picture Colour) x y col :
  PRect Colour (Set_ Colour im x y col) = PRect Colour im.
Proof. unfold Set_. destruct (image.In_ _ _); reflexivity. Qed.

Lemma PPix_Set_other (im : Picture Colour) dx dy col x y :
  Pt dx dy <> Pt x y ->
  PPix Colour (Set_ Colour im dx dy col) !! Pt x y = PPix Colour im !! Pt x y.
Proof.
  intros Hne. unfold Set_. destruct (image.In_ _ _); [|reflexivity].
  cbn [PPix]. apply lookup_insert_ne. exact Hne.
Qed.

Lemma PPix_Set_same (im : Picture Colour) x y col :
  image.In_ (Pt x y) (PRect Colour im) = true ->
  PPix Colour (Set_ Colour im x y col) !! Pt x y = Some col.
Proof.
  intros Hin. unfold Set_. rewrite Hin. cbn [PPix]. apply lookup_insert_eq.
Qed.

(** Inside the rectangle a turn of the loop does not fail: it sets the
    pixel to its colour or, for a district without a colour, leaves the
    picture alone. *)
Lemma customPixel_inside c (scheme : ColourScheme Colour) dx dy im :
  image.In_ (Pt dx dy) (Rect64 (citymap.im c)) = true ->
  match colourAt Colour c scheme dx dy with
  | Some col => customPixel Colour c scheme dx dy im
                = inr (Set_ Colour im dx dy col)
  | None => customPixel Colour c scheme dx dy im = inr im
  end.
Proof.
  intros Hin. pose proof (In_not_out c dx dy Hin) as Hout.
  unfold colourAt, customPixel, IsGatehouse, IsTower, IsWall, IsBridge, IsRoad.
  rewrite Hout. cbn zeta.
  destruct (bitmap.Get _ bitGate); [reflexivity|].
  destruct (bitmap.Get _ bitTower); [reflexivity|].
  destruct (bitmap.Get _ bitWall); [reflexivity|].
  destruct (bitmap.Get _ bitBridge); [reflexivity|].
  destruct (bitmap.Get _ bitRoad); [reflexivity|].
  unfold BuildingID, District. rewrite Hout. cbn [fst].
  destruct (negb _); [reflexivity|].
  destruct (Districts Colour scheme !! _); reflexivity.
Qed.

(** X30. [CustomImage] never returns an error.  Its picture has the
    bounds of the map, and inside them each pixel has the colour of
    what is there, a gatehouse before a tower, a wall, a bridge, a
    road, a building and the district; a pixel of a district type
    without a colour in the scheme is not set. *)
Theorem CustomImage_never_fails (c : imageMap)
    (scheme : ColourScheme Colour) :
  exists im,
    CustomImage Colour c scheme = inr im /\
    PRect Colour im = Rect64 (citymap.im c) /\
    (forall x y,
       image.In_ (Pt x y) (Rect64 (citymap.im c)) = true ->
       PPix Colour im !! Pt x y = colourAt Colour c scheme x y).
Proof.
  unfold CustomImage. set (bnds := Rect64 (citymap.im c)).
  set (xs := zrange (image.X (image.Min bnds)) (image.X (image.Max bnds))).
  set (ys := zrange (image.Y (image.Min bnds)) (image.Y (image.Max bnds))).
  set (step := fun (dy : Z) (acc : error + Picture Colour) (dx : Z) =>
                 match acc with
                 | inl err => inl err
                 | inr im => customPixel Colour c scheme dx dy im
                 end).
  set (row := fun acc dy => fold_left (step dy) xs acc).
  set (good := fun acc : error + Picture Colour =>
                 exists im, acc = inr im /\ PRect Colour im = bnds).
  assert (Hin : forall dx dy, In dx xs -> In dy ys ->
                  image.In_ (Pt dx dy) bnds = true).
  { intros dx dy Hx Hy. apply In_zrange in Hx, Hy. unfold image.In_.
    cbn [image.X image.Y].
    rewrite !andb_true_iff, !Z.leb_le, !Z.ltb_lt. lia. }
  assert (Hstep : forall dx dy acc, In dx xs -> In dy ys -> good acc ->
            exists im im', acc = inr im /\ step dy acc dx = inr im' /\
              PRect Colour im' = bnds /\
              (forall x y, Pt dx dy <> Pt x y ->
                 PPix Colour im' !! Pt x y = PPix Colour im !! Pt x y) /\
              (PPix Colour im !! Pt dx dy = None \/
               PPix Colour im !! Pt dx dy = colourAt Colour c scheme dx dy ->
               PPix Colour im' !! Pt dx dy = colourAt Colour c scheme dx dy)).
  { intros dx dy acc Hx Hy (im & -> & Hr). exists im. cbn [step].
    pose proof (customPixel_inside c scheme dx dy im (Hin dx dy Hx Hy)) as Hp.
    destruct (colourAt Colour c scheme dx dy) as [col|].
    - exists (Set_ Colour im dx dy col). rewrite Hp, PRect_Set.
      repeat split; [exact Hr| |].
      + intros x y Hne. apply PPix_Set_other, Hne.
      + intros _. apply PPix_Set_same. rewrite Hr. apply Hin; assumption.
    - exists im. rewrite Hp. repeat split; [exact Hr|].
      intros [H | H]; exact H. }
  assert (Hgood_row : forall acc dy, In dy ys -> good acc -> good (row acc dy)).
  { intros acc dy Hy Hacc. unfold row.
    apply (fold_left_inv_In good); [|exact Hacc].
    intros a dx Hx Ha.
    destruct (Hstep dx dy a Hx Hy Ha) as (im & im' & _ & -> & Hr & _).
    exists im'. auto. }
  assert (Hgood : good (fold_left row ys (inr (NewRGBA Colour bnds)))).
  { apply (fold_left_inv_In good); [|exists (NewRGBA Colour bnds); auto].
    intros a dy. apply Hgood_row. }
  destruct Hgood as (im & Him & Hr). exists im.
  split; [exact Him|]. split; [exact Hr|].
  intros x y Hxy.
  assert (Hx : In x xs /\ In y ys).
  { unfold image.In_ in Hxy. cbn [image.X image.Y] in Hxy.
    rewrite !andb_true_iff, !Z.leb_le, !Z.ltb_lt in Hxy.
    split; apply In_zrange; lia. }
  destruct Hx as [Hx Hy].
  set (R := fun acc : error + Picture Colour =>
              exists im, acc = inr im /\ PRect Colour im = bnds /\
                         PPix Colour im !! Pt x y = None).
  set (Q := fun acc : error + Picture Colour =>
              exists im, acc = inr im /\ PRect Colour im = bnds /\
                         PPix Colour im !! Pt x y
                         = colourAt Colour c scheme x y).
  assert (HRstep : forall dx dy a, In dx xs -> In dy ys -> Pt dx dy <> Pt x y ->
                     R a -> R (step dy a dx)).
  { intros dx dy a Hdx Hdy Hne (im0 & -> & Hr0 & Hp0).
    destruct (Hstep dx dy (inr im0) Hdx Hdy ltac:(exists im0; auto))
      as (im1 & im' & [= <-] & -> & Hr' & Hother & _).
    exists im'. split; [reflexivity|]. split; [exact Hr'|].
    rewrite Hother by exact Hne. exact Hp0. }
  assert (HQstep : forall dx dy a, In dx xs -> In dy ys ->
                     Q a -> Q (step dy a dx)).
  { intros dx dy a Hdx Hdy (im0 & -> & Hr0 & Hp0).
    destruct (Hstep dx dy (inr im0) Hdx Hdy ltac:(exists im0; auto))
      as (im1 & im' & [= <-] & -> & Hr' & Hother & Hsame).
    exists im'. split; [reflexivity|]. split; [exact Hr'|].
    destruct (decide (Pt dx dy = Pt x y)) as [[= -> ->] | Hne].
    - apply Hsame. right. exact Hp0.
    - rewrite Hother by exact Hne. exact Hp0. }
  assert (Hhit : forall a, R a -> Q (step y a x)).
  { intros a (im0 & -> & Hr0 & Hp0).
    destruct (Hstep x y (inr im0) Hx Hy ltac:(exists im0; auto))
      as (im1 & im' & [= <-] & -> & Hr' & _ & Hsame).
    exists im'. split; [reflexivity|]. split; [exact Hr'|].
    apply Hsame. left. exact Hp0. }
  assert (HQ : Q (fold_left row ys (inr (NewRGBA Colour bnds)))).
  { apply (fold_left_reaches_In R Q row ys y Hy).
    - intros a dy Hdy Hne Ha. unfold row.
      apply (fold_left_inv_In R); [|exact Ha].
      intros a' dx Hdx. apply HRstep; [exact Hdx | exact Hdy |].
      intros [= _ E]. contradiction.
    - intros a Ha. unfold row.
      apply (fold_left_reaches_In R Q (step y) xs x Hx); [| | |exact Ha].
      + intros a' dx Hdx Hne. apply HRstep; [exact Hdx | exact Hy |].
        intros [= E]. contradiction.
      + exact Hhit.
      + intros a' dx Hdx. apply HQstep; assumption.
    - intros a dy Hdy Ha. unfold row.
      apply (fold_left_inv_In Q); [|exact Ha].
      intros a' dx Hdx. apply HQstep; assumption.
    - exists (NewRGBA Colour bnds). split; [reflexivity|].
      split; [reflexivity|]. apply lookup_empty. }
  destruct HQ as (im2 & Him2 & _ & Hp). rewrite Him in Him2.
  injection Him2 as <-. exact Hp.
Qed.

End Colours.

End render_facts.

(** ** Towers without a spacing *)
Module towers_more.
Import towers.

Section Closures.

Variable cmap : citymap.imageMap.
Variable outline : Outline.
Variable TowerArea : Rectangle.
Variable MinDistBetweenTowers : Z.
Variable allTowers : list Rectangle.

(** X22. With a [MinDistBetweenTowers] of zero or less [fillWithTowers]
    does not come back, however many turns its loop is given: the
    index does not move on from zero, or it is negative and the slice is
    read out of range. *)
Theorem fillWithTowers_never_returns_without_spacing (fuel : nat)
    (a b : Point) (towers : list Rectangle) :
  MinDistBetweenTowers <= 0 ->
  fillWithTowers cmap outline TowerArea MinDistBetweenTowers allTowers
    fuel a b towers = None.
Proof. apply towers_facts.fillWithTowers_needs_spacing. Qed.

End Closures.

Lemma fillWithTowers_never_returns_without_spacing_witness :
  fillWithTowers samples.map40 samples.plain (image.Rect 0 0 2 2) 0 []
    1000 (Pt 5 5) (Pt 25 5) [] = None.
Proof.
  apply (fillWithTowers_never_returns_without_spacing samples.map40
           samples.plain (image.Rect 0 0 2 2) 0 [] 1000 (Pt 5 5) (Pt 25 5) []).
  lia.
Defined.

End towers_more.
